(** * better-gemini-mcp: path guard, process runner, orchestrator,
      segmenter and segment store

    A shallow embedding of the TypeScript sources.  JavaScript strings are
    lists of UTF-16 code units ([list JS.char], a code unit being a number
    below 65536), so that lengths, positions and slices count what the
    code counts.  JavaScript numbers that hold positions, lengths,
    timestamps and indices are integers ([Z]). *)

From Stdlib Require Import ZArith Lia List Ascii String DecimalString.
From stdpp Require Import base list gmap strings.

Local Open Scope Z_scope.

(** ** JavaScript string primitives used by the sources *)

Module JS.

(** A string is the sequence of its UTF-16 code units. *)
Definition char : Type := N.

Definition chr (a : ascii) : char := N_of_ascii a.

(** The code units of an ASCII literal of the source. *)
Definition str (s : string) : list char := map chr (list_ascii_of_string s).

(** [s.length] *)
Definition len (s : list char) : Z := Z.of_nat (length s).

(** [String.prototype.slice(a, b)]: a negative bound counts from the end,
    both bounds are clamped to the string. *)
Definition clampIndex (s : list char) (a : Z) : nat :=
  if decide (a < 0) then Z.to_nat (Z.max (len s + a) 0)
  else Z.to_nat (Z.min a (len s)).

Definition slice (s : list char) (a b : Z) : list char :=
  let from := clampIndex s a in
  let to := clampIndex s b in
  take (to - from)%nat (drop from s).

(** [String.prototype.lastIndexOf(c, pos)] for a one-character search
    string: the greatest index [k <= min(max(pos,0), length-1)] with
    [s[k] = c], or [-1]. *)
Fixpoint lastIndexOf_from (c : char) (s : list char) (k : nat) : Z :=
  if decide (s !! k = Some c) then Z.of_nat k
  else match k with
       | O => -1
       | S k' => lastIndexOf_from c s k'
       end.

Definition lastIndexOf (c : char) (s : list char) (pos : Z) : Z :=
  let start := Z.min (Z.max pos 0) (len s - 1) in
  if decide (start < 0) then -1
  else lastIndexOf_from c s (Z.to_nat start).

Definition newline : char := chr "010".

(** [s.startsWith(pre)] *)
Fixpoint startsWith (s pre : list char) {struct pre} : bool :=
  match pre, s with
  | [], _ => true
  | c :: pre', d :: s' => bool_decide (c = d) && startsWith s' pre'
  | _ :: _, [] => false
  end.

(** [s.endsWith(suf)] *)
Definition endsWith (s suf : list char) : bool :=
  startsWith (rev s) (rev suf).

(** [s.includes(sub)] *)
Fixpoint includes (s sub : list char) : bool :=
  startsWith s sub ||
  match s with
  | [] => false
  | _ :: s' => includes s' sub
  end.

(** [s.toLowerCase()], as far as the ASCII patterns searched in its
    result can tell: [A] to [Z] are mapped.  The other upper-case letters
    have images outside ASCII, save U+212A (mapped to [k]) and U+0130
    (mapped to [i] followed by U+0307); no pattern searched holds a [k],
    and none holds an [i] that ends it or comes before U+0307. *)
Definition lowerChar (c : char) : char :=
  if (65 <=? c)%N && (c <=? 90)%N then (c + 32)%N else c.

Definition toLowerCase (s : list char) : list char := map lowerChar s.

(** What [s.trim()] removes: the WhiteSpace and LineTerminator code
    points of ECMAScript.  These are TAB, LF, VT, FF, CR, SP and NBSP,
    then the other space separators U+1680, U+2000 to U+200A, U+202F,
    U+205F and U+3000, then LS U+2028, PS U+2029 and ZWNBSP U+FEFF. *)
Definition isWhitespace (c : char) : bool :=
  bool_decide (c ∈ [9; 10; 11; 12; 13; 32; 160; 5760; 8232; 8233; 8239; 8287;
                    12288; 65279]%N)
  || ((8192 <=? c)%N && (c <=? 8202)%N).

Fixpoint trimStart (s : list char) : list char :=
  match s with
  | c :: s' => if isWhitespace c then trimStart s' else s
  | [] => []
  end.

Definition trim (s : list char) : list char :=
  rev (trimStart (rev (trimStart s))).

End JS.

(** ** Response chunker (utils/responseChunker.ts) *)

Module ResponseChunker.

Record CachedChunk := mkChunk {
  content : list JS.char;
  index : Z;
  total : Z
}.

(** Lines 41-54 of [chunkResponse]: the end position of the chunk that
    starts at [currentPosition]. *)
Definition endPositionOf (response : list JS.char) (chunkSizeBytes currentPosition : Z) : Z :=
  let endPosition := currentPosition + chunkSizeBytes in
  if decide (endPosition < JS.len response) then
    let searchStart := Z.max currentPosition (endPosition - 500) in
    let lastNewline := JS.lastIndexOf JS.newline response endPosition in
    if decide (lastNewline > searchStart) then lastNewline + 1
    else endPosition
  else JS.len response.

(** The [while (currentPosition < response.length)] loop.  [fuel] bounds
    the number of iterations; [chunkResponse] supplies the length of the
    response, which the loop never exhausts when the chunk size is
    positive (every iteration advances [currentPosition]). *)
Fixpoint chunkLoop (fuel : nat) (response : list JS.char) (chunkSizeBytes : Z)
    (currentPosition chunkIndex : Z) (chunks : list CachedChunk) : list CachedChunk :=
  match fuel with
  | O => chunks
  | S fuel' =>
      if decide (currentPosition < JS.len response) then
        let endPosition := endPositionOf response chunkSizeBytes currentPosition in
        let chunkContent := JS.slice response currentPosition endPosition in
        chunkLoop fuel' response chunkSizeBytes endPosition (chunkIndex + 1)
          (chunks ++ [mkChunk chunkContent chunkIndex 0])
      else chunks
  end.

Definition setTotal (totalChunks : Z) (chunk : CachedChunk) : CachedChunk :=
  mkChunk (content chunk) (index chunk) totalChunks.

Definition chunkResponse (response : list JS.char) (chunkSizeKB : Z) : list CachedChunk :=
  let chunkSizeBytes := chunkSizeKB * 1024 in
  if decide (JS.len response <= chunkSizeBytes) then
    [mkChunk response 1 1]
  else
    let chunks := chunkLoop (length response) response chunkSizeBytes 0 1 [] in
    let totalChunks := Z.of_nat (length chunks) in
    map (setTotal totalChunks) chunks.

Definition needsChunking (response : list JS.char) (chunkSizeKB : Z) : bool :=
  bool_decide (JS.len response > chunkSizeKB * 1024).

End ResponseChunker.

(** ** Node's POSIX [path] module

    [path] belongs to the Node.js runtime, not to this repository.  It is
    modelled by its documented POSIX behaviour: a path is cut at every [/];
    empty components and [.] are dropped, [..] removes the component before
    it (and is itself dropped at the root of an absolute path). *)

Module Path.

Definition sep : JS.char := JS.chr "/".
Definition dot : list JS.char := [JS.chr "."].
Definition dotdot : list JS.char := [JS.chr "."; JS.chr "."].

Definition isAbsolute (p : list JS.char) : bool :=
  match p with
  | c :: _ => bool_decide (c = sep)
  | [] => false
  end.

(** The components between separators, empty ones included. *)
Fixpoint splitSep (p : list JS.char) : list (list JS.char) :=
  match p with
  | [] => [[]]
  | c :: rest =>
      if decide (c = sep) then [] :: splitSep rest
      else match splitSep rest with
           | seg :: segs => (c :: seg) :: segs
           | [] => [[c]]
           end
  end.

Fixpoint joinSep (segs : list (list JS.char)) : list JS.char :=
  match segs with
  | [] => []
  | [seg] => seg
  | seg :: rest => seg ++ sep :: joinSep rest
  end.

(** [normalizeString(path, allowAboveRoot)] on components; [res] is the
    stack of components kept so far, most recent first. *)
Fixpoint normalizeSegments (allowAboveRoot : bool) (segs res : list (list JS.char))
    : list (list JS.char) :=
  match segs with
  | [] => rev res
  | seg :: rest =>
      if decide (seg = [] \/ seg = dot) then normalizeSegments allowAboveRoot rest res
      else if decide (seg = dotdot) then
        match res with
        | top :: res' =>
            if decide (top = dotdot) then
              normalizeSegments allowAboveRoot rest
                (if allowAboveRoot then dotdot :: res else res)
            else normalizeSegments allowAboveRoot rest res'
        | [] =>
            normalizeSegments allowAboveRoot rest
              (if allowAboveRoot then [dotdot] else [])
        end
      else normalizeSegments allowAboveRoot rest (seg :: res)
  end.

Definition normalizeString (p : list JS.char) (allowAboveRoot : bool) : list JS.char :=
  joinSep (normalizeSegments allowAboveRoot (splitSep p) []).

(** [path.resolve(...args)]: arguments are taken from the right until an
    absolute one is met; [cwd] ([process.cwd()]) is used when none is. *)
Fixpoint resolveLoop (cwd : list JS.char) (argsRev : list (list JS.char))
    (resolvedPath : list JS.char) : list JS.char * bool :=
  match argsRev with
  | [] =>
      if decide (cwd = []) then (resolvedPath, false)
      else (cwd ++ sep :: resolvedPath, isAbsolute cwd)
  | p :: rest =>
      if decide (p = []) then resolveLoop cwd rest resolvedPath
      else if isAbsolute p then (p ++ sep :: resolvedPath, true)
      else resolveLoop cwd rest (p ++ sep :: resolvedPath)
  end.

Definition resolve (cwd : list JS.char) (args : list (list JS.char)) : list JS.char :=
  let '(resolvedPath, resolvedAbsolute) := resolveLoop cwd (rev args) [] in
  let normalized := normalizeString resolvedPath (negb resolvedAbsolute) in
  if resolvedAbsolute then sep :: normalized
  else if decide (normalized = []) then dot else normalized.

(** [path.normalize(p)] *)
Definition normalize (p : list JS.char) : list JS.char :=
  if decide (p = []) then dot
  else
    let isAbs := isAbsolute p in
    let trailingSeparator := bool_decide (last p = Some sep) in
    let n := normalizeString p (negb isAbs) in
    if decide (n = []) then
      (if isAbs then [sep] else if trailingSeparator then dot ++ [sep] else dot)
    else
      let n := if trailingSeparator then n ++ [sep] else n in
      if isAbs then sep :: n else n.

End Path.

(** ** Path validator (utils/pathValidator.ts) *)

Module PathValidator.

Record PathValidationResult := mkResult {
  input : list JS.char;
  resolved : list JS.char;
  exists_ : bool;
  allowed : bool;
  reason : option (list JS.char)
}.

Definition isWithinProjectRoot (absolutePath projectRoot : list JS.char) : bool :=
  let normalizedPath := Path.normalize absolutePath in
  let normalizedRoot := Path.normalize projectRoot in
  let rootWithSep :=
    if JS.endsWith normalizedRoot [Path.sep] then normalizedRoot
    else normalizedRoot ++ [Path.sep] in
  bool_decide (normalizedPath = normalizedRoot) || JS.startsWith normalizedPath rootWithSep.

Section WithEnvironment.

(** [process.cwd()], and whether [fs.accessSync] succeeds on a path. *)
Variable cwd : list JS.char.
Variable accessSync : list JS.char -> bool.

Definition validatePath (inputPath projectRoot : list JS.char) : PathValidationResult :=
  let normalizedRoot := Path.resolve cwd [projectRoot] in
  let resolved :=
    if Path.isAbsolute inputPath then Path.resolve cwd [inputPath]
    else Path.resolve cwd [normalizedRoot; inputPath] in
  let resolved := Path.normalize resolved in
  let allowed := isWithinProjectRoot resolved normalizedRoot in
  let exists_ := if allowed then accessSync resolved else false in
  let reason :=
    if negb allowed then
      if JS.includes inputPath (JS.str "..") then
        Some (JS.str "Path contains parent directory traversal (..)")
      else Some (JS.str "Path is outside project root")
    else if negb exists_ then Some (JS.str "Path does not exist")
    else None in
  mkResult inputPath resolved exists_ allowed reason.

End WithEnvironment.

End PathValidator.

(** ** Response cache (utils/responseCache.ts) *)

Module ResponseCache.

Import ResponseChunker.

Record CacheEntry := mkEntry {
  chunks : list CachedChunk;
  createdAt : Z;
  expiresAt : Z
}.

(** [DEFAULTS.CACHE_TTL_MS] and the sweep interval. *)
Definition CACHE_TTL_MS : Z := 3600000.
Definition CLEANUP_INTERVAL_MS : Z := 5 * 60 * 1000.

(** The module-level state: the [cache] map and the [cleanupScheduled]
    flag. *)
Record Store := mkStore {
  cache : gmap (list JS.char) CacheEntry;
  cleanupScheduled : bool
}.

Definition emptyStore : Store := mkStore ∅ false.

(** [generateCacheKey]: [timestamp] is [Date.now().toString(36)] and
    [random] is [Math.random().toString(36).substring(2, 10)]. *)
Definition generateCacheKey (timestamp random : list JS.char) : list JS.char :=
  JS.str "cache_" ++ timestamp ++ random.

Definition scheduleCleanup (st : Store) : Store :=
  if cleanupScheduled st then st else mkStore (cache st) true.

(** [cacheResponse(chunks, ttlMs)] at time [now], with the key freshly
    generated as [key]. *)
Definition cacheResponse (chunks : list CachedChunk) (ttlMs : Z)
    (key : list JS.char) (now : Z) (st : Store) : list JS.char * Store :=
  let entry := mkEntry chunks now (now + ttlMs) in
  let st := mkStore (<[key := entry]> (cache st)) (cleanupScheduled st) in
  (key, scheduleCleanup st).

Definition getResponse (key : list JS.char) (now : Z) (st : Store)
    : option CacheEntry * Store :=
  match cache st !! key with
  | None => (None, st)
  | Some entry =>
      if decide (now > expiresAt entry) then
        (None, mkStore (delete key (cache st)) (cleanupScheduled st))
      else (Some entry, st)
  end.

Definition getChunk (key : list JS.char) (chunkIndex : Z) (now : Z) (st : Store)
    : option CachedChunk * Store :=
  match getResponse key now st with
  | (None, st') => (None, st')
  | (Some entry, st') =>
      if decide (chunkIndex < 1 \/ chunkIndex > Z.of_nat (length (chunks entry))) then
        (None, st')
      else (chunks entry !! Z.to_nat (chunkIndex - 1), st')
  end.

Definition hasValidCache (key : list JS.char) (now : Z) (st : Store) : bool * Store :=
  let '(r, st') := getResponse key now st in (bool_decide (r <> None), st').

Definition deleteCache (key : list JS.char) (st : Store) : bool * Store :=
  (bool_decide (is_Some (cache st !! key)),
   mkStore (delete key (cache st)) (cleanupScheduled st)).

(** [clearExpired]: drops every entry with [now > expiresAt] and returns
    how many were dropped. *)
Definition clearExpired (now : Z) (st : Store) : Z * Store :=
  let kept := filter (fun kv => ~ (now > expiresAt kv.2)) (cache st) in
  (Z.of_nat (size (cache st)) - Z.of_nat (size kept),
   mkStore kept (cleanupScheduled st)).

(** One firing of the interval timer set up by [scheduleCleanup]. *)
Definition cleanupTick (now : Z) (st : Store) : Store :=
  let '(_, st') := clearExpired now st in
  if decide (size (cache st') = 0%nat) then mkStore (cache st') false else st'.

End ResponseCache.

(** ** Constants (constants.ts) *)

Module Constants.

Inductive ErrorCode :=
| INVALID_ARGUMENT | PATH_NOT_ALLOWED | GEMINI_CLI_NOT_FOUND | GEMINI_CLI_ERROR
| AUTH_MISSING | QUOTA_EXCEEDED | CACHE_EXPIRED | INVALID_CHUNK_INDEX | INTERNAL.

(** The notes open with U+26A1 and with U+1F504, the latter a surrogate
    pair. *)
Definition FALLBACK_RETRY : list JS.char :=
  9889%N :: JS.str " Retrying with fallback model...".
Definition AUTO_SELECT_RETRY : list JS.char :=
  [55357%N; 56580%N] ++ JS.str " Retrying with auto-selected model...".

Definition FLASH_DEFAULT : list JS.char := JS.str "gemini-3-flash-preview".
Definition PRO_DEFAULT : list JS.char := JS.str "gemini-3-pro-preview".
Definition FLASH_FALLBACK : list JS.char := JS.str "gemini-2.5-flash".
Definition PRO_FALLBACK : list JS.char := JS.str "gemini-2.5-pro".
Definition AUTO_SELECT : option (list JS.char) := None.

Inductive ToolName := quick_query | deep_research | analyze_directory.

Record ModelTierConfig := mkTiers {
  tier1 : list JS.char;
  tier2 : list JS.char;
  tier3 : option (list JS.char)
}.

Definition MODEL_TIERS (tool : ToolName) : ModelTierConfig :=
  match tool with
  | quick_query => mkTiers FLASH_DEFAULT FLASH_FALLBACK AUTO_SELECT
  | deep_research => mkTiers PRO_DEFAULT PRO_FALLBACK AUTO_SELECT
  | analyze_directory => mkTiers FLASH_DEFAULT FLASH_FALLBACK AUTO_SELECT
  end.

Definition GEMINI : list JS.char := JS.str "gemini".
Definition FLAG_MODEL : list JS.char := JS.str "-m".
Definition FLAG_PROMPT : list JS.char := JS.str "-p".
Definition FLAG_YES : list JS.char := JS.str "-y".
Definition FLAG_OUTPUT_FORMAT : list JS.char := JS.str "--output-format".
Definition FORMAT_JSON : list JS.char := JS.str "json".

Definition RESPONSE_CHUNK_SIZE_KB : Z := 10.

Definition quote : JS.char := JS.chr "034".

Definition SYSTEM_PROMPT : list JS.char :=
  JS.str "
You are analyzing a codebase on behalf of an AI coding agent.

WHEN TO USE THIS TOOL:
- The calling agent should use MCP tools (quick_query, deep_research, analyze_directory) FIRST when questions involve repository files or code analysis
- This reduces the calling agent's context and model usage by offloading heavy reading/analysis to Gemini CLI's large context window
- Prefer using tools over asking the agent to read files directly

CRITICAL CONSTRAINTS:
- Read-only analysis ONLY (no write/edit tools available without --yolo flag)
- Do NOT suggest code changes, patches, or file modifications
- Do NOT attempt to use run_shell_command or write_file (not available)

OPTIMIZATION FOR TOKEN EFFICIENCY:
- The calling agent has limited context - be concise but thorough
- Prioritize KEY findings over exhaustive details
- Include file paths for all referenced code
- Use bullet points and structured formatting for clarity
- If asked about security/architecture/performance, focus ONLY on that dimension

OUTPUT FORMAT:
- Start with a 2-3 sentence executive summary
- Provide detailed findings with file path references
- End with a " ++ [quote] ++ JS.str "## Files Referenced" ++ [quote]
  ++ JS.str " section listing all paths examined
".

End Constants.

(** ** Command executor (utils/commandExecutor.ts) *)

Module CommandExecutor.

(** What the Node event loop delivers for one spawned child: data on its
    pipes, a spawn error, its close with an exit code ([None] is the
    [null] code of a child ended by a signal), and the passing of time. *)
Inductive ProcEvent :=
| StdoutData (chunk : list JS.char)
| StderrData (chunk : list JS.char)
| ErrorEvent (message : list JS.char)
| Close (code : option Z)
| Elapsed (ms : Z).

Inductive Settlement :=
| Resolved (value : list JS.char)
| Rejected (message : list JS.char).

Record ExecState := mkExec {
  stdout : list JS.char;
  stderr : list JS.char;
  isResolved : bool;
  lastReportedLength : Z;
  settled : option Settlement;
  reported : list (list JS.char);
  killed : bool
}.

Definition spawned : ExecState := mkExec [] [] false 0 None [] false.

(** The template text of an exit code. *)
Definition showCode (code : option Z) : list JS.char :=
  match code with
  | Some n => JS.str (NilZero.string_of_int (Z.to_int n))
  | None => JS.str "null"
  end.

Section Handlers.

Variable command : list JS.char.
(** Whether the caller passed [onProgress]. *)
Variable hasProgress : bool.

Definition handle (st : ExecState) (ev : ProcEvent) : ExecState :=
  match ev with
  | StdoutData chunk =>
      let stdout' := stdout st ++ chunk in
      if hasProgress && bool_decide (JS.len stdout' > lastReportedLength st) then
        let newContent := JS.slice stdout' (lastReportedLength st) (JS.len stdout') in
        mkExec stdout' (stderr st) (isResolved st) (JS.len stdout') (settled st)
               (reported st ++ [newContent]) (killed st)
      else
        mkExec stdout' (stderr st) (isResolved st) (lastReportedLength st) (settled st)
               (reported st) (killed st)
  | StderrData chunk =>
      mkExec (stdout st) (stderr st ++ chunk) (isResolved st) (lastReportedLength st)
             (settled st) (reported st) (killed st)
  | ErrorEvent message =>
      if isResolved st then st
      else
        mkExec (stdout st) (stderr st) true (lastReportedLength st)
               (Some (Rejected (JS.str "Failed to spawn command '" ++ command
                                  ++ JS.str "': " ++ message)))
               (reported st) (killed st)
  | Close code =>
      if isResolved st then st
      else if decide (code = Some 0) then
        mkExec (stdout st) (stderr st) true (lastReportedLength st)
               (Some (Resolved (JS.trim (stdout st)))) (reported st) (killed st)
      else
        let sanitizedStderr :=
          if decide (JS.trim (stderr st) = []) then JS.str "Unknown error"
          else JS.trim (stderr st) in
        mkExec (stdout st) (stderr st) true (lastReportedLength st)
               (Some (Rejected (JS.str "Command failed with exit code " ++ showCode code
                                  ++ JS.str ": " ++ sanitizedStderr)))
               (reported st) (killed st)
  | Elapsed _ => st
  end.

(** [executeCommand(command, args, onProgress)] against a child that
    produces [events]: the state of the promise and of the child after
    all of them. *)
Definition executeCommand (events : list ProcEvent) : ExecState :=
  fold_left handle events spawned.

End Handlers.

End CommandExecutor.

(** ** Setup wizard's runner (setup/wizard.ts, [runCommand]) *)

Module SetupWizard.

Import CommandExecutor.

Record RunState := mkRun {
  r_stdout : list JS.char;
  r_stderr : list JS.char;
  timedOut : bool;
  timerArmed : bool;
  clock : Z;
  r_settled : option Settlement;
  r_killed : bool
}.

Definition started : RunState := mkRun [] [] false true 0 None false.

(** A promise settles once; later [resolve]/[reject] calls are ignored. *)
Definition settle (current : option Settlement) (s : Settlement) : option Settlement :=
  match current with
  | Some _ => current
  | None => Some s
  end.

Section Handlers.

Variable command : list JS.char.
Variable timeoutMs : Z.

Definition handle (st : RunState) (ev : ProcEvent) : RunState :=
  match ev with
  | Elapsed ms =>
      let clock' := clock st + ms in
      if timerArmed st && bool_decide (timeoutMs <= clock') then
        mkRun (r_stdout st) (r_stderr st) true false clock'
              (settle (r_settled st)
                 (Rejected (JS.str "Command timed out after "
                              ++ showCode (Some timeoutMs) ++ JS.str "ms")))
              true
      else
        mkRun (r_stdout st) (r_stderr st) (timedOut st) (timerArmed st) clock'
              (r_settled st) (r_killed st)
  | StdoutData chunk =>
      mkRun (r_stdout st ++ chunk) (r_stderr st) (timedOut st) (timerArmed st)
            (clock st) (r_settled st) (r_killed st)
  | StderrData chunk =>
      mkRun (r_stdout st) (r_stderr st ++ chunk) (timedOut st) (timerArmed st)
            (clock st) (r_settled st) (r_killed st)
  | ErrorEvent message =>
      mkRun (r_stdout st) (r_stderr st) (timedOut st) false (clock st)
            (settle (r_settled st)
               (Rejected (JS.str "Failed to spawn '" ++ command ++ JS.str "': " ++ message)))
            (r_killed st)
  | Close code =>
      if timedOut st then
        mkRun (r_stdout st) (r_stderr st) (timedOut st) false (clock st)
              (r_settled st) (r_killed st)
      else if decide (code = Some 0) then
        mkRun (r_stdout st) (r_stderr st) (timedOut st) false (clock st)
              (settle (r_settled st) (Resolved (JS.trim (r_stdout st)))) (r_killed st)
      else
        let message :=
          if decide (JS.trim (r_stderr st) = []) then
            JS.str "Command failed with exit code " ++ showCode code
          else JS.trim (r_stderr st) in
        mkRun (r_stdout st) (r_stderr st) (timedOut st) false (clock st)
              (settle (r_settled st) (Rejected message)) (r_killed st)
  end.

Definition runCommand (events : list ProcEvent) : RunState :=
  fold_left handle events started.

End Handlers.

Definition DEFAULT_TIMEOUT_MS : Z := 60000.

End SetupWizard.

(** ** Gemini executor (utils/geminiExecutor.ts) *)

Module GeminiExecutor.

Import Constants CommandExecutor.

Record GeminiResponse := mkResponse {
  answer : list JS.char;
  filesAccessed : list (list JS.char);
  tokensUsed : Z;
  toolCalls : Z;
  latencyMs : Z;
  model : list JS.char
}.

(** The value of [parseGeminiOutput]; an absent field is [None]. *)
Record ParsedOutput := mkParsed {
  text : list JS.char;
  parsedTokensUsed : option Z;
  parsedToolCalls : option Z;
  parsedFilesAccessed : option (list (list JS.char))
}.

Definition getModelTiers (toolName : ToolName) : list (option (list JS.char)) :=
  let config := MODEL_TIERS toolName in
  [Some (tier1 config); Some (tier2 config); tier3 config].

(** [isQuotaError] on the message of an [Error]; [executeCommand] rejects
    with [Error] objects only. *)
Definition isQuotaError (errorMessage : list JS.char) : bool :=
  let message := JS.toLowerCase errorMessage in
  JS.includes message (JS.str "quota") ||
  JS.includes message (JS.str "resource_exhausted") ||
  JS.includes message (JS.str "rate limit") ||
  JS.includes message (JS.str "capacity") ||
  JS.includes message (JS.str "too many requests") ||
  JS.includes message (JS.str "429").

Definition buildGeminiArgs (prompt : list JS.char) (model : option (list JS.char))
    : list (list JS.char) :=
  let args := match model with
              | Some m => [FLAG_MODEL; m]
              | None => []
              end in
  let args := args ++ [FLAG_YES] in
  let args := args ++ [FLAG_OUTPUT_FORMAT; FORMAT_JSON] in
  let args := args ++ [FLAG_PROMPT; prompt] in
  args.

Definition finalPromptOf (prompt : list JS.char) : list JS.char :=
  SYSTEM_PROMPT ++ JS.str "

---

USER REQUEST:
" ++ prompt.

(** What the caller of [executeGeminiCLI] can observe while it runs:
    child processes spawned and calls of its [onProgress] callback. *)
Inductive TraceEvent :=
| Spawn (command : list JS.char) (args : list (list JS.char))
| Progress (output : list JS.char).

Inductive Outcome :=
| Returned (response : GeminiResponse)
| Thrown (message : list JS.char)
| Pending.

Section WithEngine.

(** [JSON.parse] and the field sniffing built on it; total, since
    [parseGeminiOutput] catches every parse failure. *)
Variable parseGeminiOutput : list JS.char -> ParsedOutput.
(** The events produced by the [i]-th child spawned during the call,
    given its argument vector. *)
Variable child : nat -> list (list JS.char) -> list ProcEvent.
(** [Date.now() - startTime] when the [i]-th child has finished. *)
Variable latency : nat -> Z.
Variable hasProgress : bool.

(** The [for] loop over the tiers, from tier [i] on; [rest] holds
    [modelTiers[i..]]. *)
Fixpoint tierLoop (finalPrompt : list JS.char) (modelTiers : list (option (list JS.char)))
    (i : nat) (rest : list (option (list JS.char))) (lastError : option (list JS.char))
    (trace : list TraceEvent) : Outcome * list TraceEvent :=
  match rest with
  | [] => (Thrown (default (JS.str "Gemini CLI execution failed") lastError), trace)
  | model :: rest' =>
      let trace :=
        if (0 <? i)%nat then
          let message := if (i =? 1)%nat then FALLBACK_RETRY else AUTO_SELECT_RETRY in
          if hasProgress then trace ++ [Progress (message ++ [JS.newline])] else trace
        else trace in
      let args := buildGeminiArgs finalPrompt model in
      let run := executeCommand GEMINI hasProgress (child i args) in
      let trace := trace ++ Spawn GEMINI args :: map Progress (reported run) in
      match settled run with
      | Some (Resolved output) =>
          let parsed := parseGeminiOutput output in
          (Returned (mkResponse (text parsed)
                       (default [] (parsedFilesAccessed parsed))
                       (default 0 (parsedTokensUsed parsed))
                       (default 0 (parsedToolCalls parsed))
                       (latency i)
                       (default (JS.str "auto") model)),
           trace)
      | Some (Rejected message) =>
          if isQuotaError message
             && bool_decide (Z.of_nat i < Z.of_nat (length modelTiers) - 1)
          then tierLoop finalPrompt modelTiers (S i) rest' (Some message) trace
          else (Thrown message, trace)
      | None => (Pending, trace)
      end
  end.

Definition executeGeminiCLI (prompt : list JS.char) (toolName : ToolName)
    : Outcome * list TraceEvent :=
  let finalPrompt := finalPromptOf prompt in
  let modelTiers := getModelTiers toolName in
  tierLoop finalPrompt modelTiers 0 modelTiers None [].

End WithEngine.

End GeminiExecutor.

(** ** Deep research tool (tools/deep-research.tool.ts) *)

Module DeepResearchTool.

Import Constants ResponseChunker ResponseCache GeminiExecutor.

Record ChunkInfo := mkChunkInfo {
  cacheKey : list JS.char;
  current : Z;
  totalChunks : Z
}.

(** What [execute] hands back, before [JSON.stringify]: the response
    object or the error object. *)
Inductive ToolPayload :=
| ToolResponse (model answer : list JS.char) (files : list (list JS.char))
    (tokensUsed toolCalls : Z) (chunks : option ChunkInfo)
| ToolError (code : ErrorCode) (message nextStep : list JS.char).

(** How the promise returned by [execute] settles. *)
Inductive ToolSettlement :=
| Resolves (payload : ToolPayload)
| Rejects (message : list JS.char)
| Unsettled.

(** The [catch] block: error code and recovery hint from the message. *)
Definition classify (errorMessage : list JS.char) : ErrorCode * list JS.char :=
  if JS.includes errorMessage (JS.str "not found") || JS.includes errorMessage (JS.str "ENOENT")
  then (GEMINI_CLI_NOT_FOUND,
        JS.str "Install Gemini CLI: npm install -g @google/gemini-cli, or run setup wizard: npx better-gemini-mcp init")
  else if JS.includes errorMessage (JS.str "auth") || JS.includes errorMessage (JS.str "login")
  then (AUTH_MISSING,
        JS.str "Authenticate Gemini CLI: run 'gemini' and select 'Login with Google', or set GEMINI_API_KEY environment variable")
  else if JS.includes errorMessage (JS.str "quota")
  then (QUOTA_EXCEEDED,
        JS.str "Quota exhausted after fallback. Wait for quota reset or upgrade plan. Consider using quick_query for lighter tasks.")
  else (GEMINI_CLI_ERROR, JS.str "Check server logs for details").

Section WithEngine.

Variable parseGeminiOutput : list JS.char -> ParsedOutput.
Variable child : nat -> list (list JS.char) -> list CommandExecutor.ProcEvent.
Variable latency : nat -> Z.
Variable hasProgress : bool.

(** The [try]/[catch] of [execute] (lines 124-198), entered once the
    arguments have been validated and [fullPrompt] has been built.
    [freshKey] and [now] are the key and the time the cache would use.
    The [catch] block returns the error object; nothing is rethrown. *)
Definition executeTry (fullPrompt : list JS.char) (freshKey : list JS.char) (now : Z)
    (st : Store) : ToolSettlement * Store :=
  match (executeGeminiCLI parseGeminiOutput child latency hasProgress
           fullPrompt deep_research).1 with
  | Returned result =>
      if needsChunking (GeminiExecutor.answer result) RESPONSE_CHUNK_SIZE_KB then
        let chunked := chunkResponse (GeminiExecutor.answer result) RESPONSE_CHUNK_SIZE_KB in
        let '(key, st') := cacheResponse chunked CACHE_TTL_MS freshKey now st in
        let first := match chunked with
                     | c :: _ => content c
                     | [] => []
                     end in
        (Resolves
           (ToolResponse (GeminiExecutor.model result) first
              (GeminiExecutor.filesAccessed result)
              (GeminiExecutor.tokensUsed result) (GeminiExecutor.toolCalls result)
              (Some (mkChunkInfo key 1 (Z.of_nat (length chunked))))),
         st')
      else
        (Resolves
           (ToolResponse (GeminiExecutor.model result) (GeminiExecutor.answer result)
              (GeminiExecutor.filesAccessed result)
              (GeminiExecutor.tokensUsed result) (GeminiExecutor.toolCalls result) None),
         st)
  | Thrown errorMessage =>
      let '(code, nextStep) := classify errorMessage in
      (Resolves (ToolError code errorMessage nextStep), st)
  | Pending => (Unsettled, st)
  end.

End WithEngine.

End DeepResearchTool.

(** ** Read-only policy (docs/project-overview-PRD.md, section 7.4)

    "Gemini CLI is read-only by default in headless mode without the
    [--yolo] or [-y] flags.  Tools like [write_file], [replace], and
    [run_shell_command] are not available unless explicitly enabled." *)

Module ReadOnlyPolicy.

Definition writeEnablingFlags : list (list JS.char) := [JS.str "--yolo"; JS.str "-y"].

Definition grantsWriteOrExecute (args : list (list JS.char)) : bool :=
  existsb (fun flag => bool_decide (flag ∈ args)) writeEnablingFlags.

End ReadOnlyPolicy.

(** ** Vocabulary for statements about a child's events *)

Module Events.

Import CommandExecutor.

(** Events other than the child's end: output and the passing of time. *)
Definition isRunning (ev : ProcEvent) : bool :=
  match ev with
  | StdoutData _ | StderrData _ | Elapsed _ => true
  | ErrorEvent _ | Close _ => false
  end.

(** Everything the child wrote to its standard output / standard error. *)
Definition stdoutOf (events : list ProcEvent) : list JS.char :=
  concat (map (fun ev => match ev with StdoutData c => c | _ => [] end) events).

Definition stderrOf (events : list ProcEvent) : list JS.char :=
  concat (map (fun ev => match ev with StderrData c => c | _ => [] end) events).

(** Total time that passed, and whether no step of it runs backwards. *)
Definition elapsedOf (events : list ProcEvent) : Z :=
  fold_right Z.add 0 (map (fun ev => match ev with Elapsed ms => ms | _ => 0 end) events).

Definition forwardInTime (ev : ProcEvent) : bool :=
  match ev with
  | Elapsed ms => bool_decide (0 <= ms)
  | _ => true
  end.

End Events.

(** ** Vocabulary for statements about the tier fallback *)

Module Fallback.

Import Constants CommandExecutor GeminiExecutor.

(** The argument vectors of the children spawned, in order. *)
Definition spawnsOf (trace : list TraceEvent) : list (list (list JS.char)) :=
  flat_map (fun ev => match ev with Spawn _ args => [args] | Progress _ => [] end) trace.

(** The progress note sent before tier [i] is retried. *)
Definition noteFor (i : nat) : list JS.char :=
  (if (i =? 1)%nat then FALLBACK_RETRY else AUTO_SELECT_RETRY) ++ [JS.newline].

Definition tierAt (tiers : list (option (list JS.char))) (i : nat) : option (list JS.char) :=
  default None (tiers !! i).

Section WithEngine.

Variable child : nat -> list (list JS.char) -> list ProcEvent.
Variable hasProgress : bool.
Variable finalPrompt : list JS.char.
Variable tiers : list (option (list JS.char)).

Definition argsAt (i : nat) : list (list JS.char) :=
  buildGeminiArgs finalPrompt (tierAt tiers i).

(** The child of attempt [i], run to the end of its events. *)
Definition runAt (i : nat) : ExecState :=
  executeCommand GEMINI hasProgress (child i (argsAt i)).

(** What attempt [i] adds to the trace. *)
Definition attemptTrace (i : nat) : list TraceEvent :=
  (if (0 <? i)%nat && hasProgress then [Progress (noteFor i)] else [])
  ++ Spawn GEMINI (argsAt i) :: map Progress (reported (runAt i)).

End WithEngine.

(** How attempt [i], when it is the last one made, decides the outcome. *)
Definition finalOutcome (parse : list JS.char -> ParsedOutput)
    (child : nat -> list (list JS.char) -> list ProcEvent) (latency : nat -> Z)
    (hasProgress : bool) (finalPrompt : list JS.char)
    (tiers : list (option (list JS.char))) (i : nat) (outcome : Outcome) : Prop :=
  match settled (runAt child hasProgress finalPrompt tiers i) with
  | Some (Resolved output) =>
      outcome = Returned (mkResponse (text (parse output))
                            (default [] (parsedFilesAccessed (parse output)))
                            (default 0 (parsedTokensUsed (parse output)))
                            (default 0 (parsedToolCalls (parse output)))
                            (latency i)
                            (default (JS.str "auto") (tierAt tiers i)))
  | Some (Rejected message) => outcome = Thrown message
  | None => outcome = Pending
  end.

End Fallback.

(** ** Simulated engines for the scenarios of the specification *)

Module Scenarios.

Import CommandExecutor GeminiExecutor.

(** Plain-text output: what [parseGeminiOutput] returns when the output
    is not JSON. *)
Definition rawParse (output : list JS.char) : ParsedOutput :=
  mkParsed output None None None.

Definition exhausted : list ProcEvent :=
  [StderrData (JS.str "RESOURCE_EXHAUSTED"); Close (Some 1)].

(** Every tier reports resource exhaustion on standard error and exits
    with code 1. *)
Definition alwaysExhausted (i : nat) (args : list (list JS.char)) : list ProcEvent :=
  exhausted.

(** The first child reports resource exhaustion, every later one
    answers. *)
Definition secondTierAnswers (i : nat) (args : list (list JS.char)) : list ProcEvent :=
  if (i =? 0)%nat then exhausted
  else [StdoutData (JS.str "All good."); Close (Some 0)].

(** The engine's binary is missing: [spawn] reports ENOENT. *)
Definition notInstalled (i : nat) (args : list (list JS.char)) : list ProcEvent :=
  [ErrorEvent (JS.str "spawn gemini ENOENT"); Close (Some (-2))].

Definition noLatency (i : nat) : Z := 0.

End Scenarios.

(** ** Vocabulary for statements about paths and chunks *)

Module PathSpec.

(** A component as [path.resolve] leaves it: non-empty, free of
    separators, and neither [.] nor [..]. *)
Definition clean_seg (seg : list JS.char) : Prop :=
  seg <> [] /\ seg <> Path.dot /\ seg <> Path.dotdot /\ Path.sep ∉ seg.

(** The component names along a path. *)
Definition components (p : list JS.char) : list (list JS.char) :=
  filter (fun seg => seg <> []) (Path.splitSep p).

(** [path] lies strictly below [root]: its components extend the root's by
    at least one name. *)
Definition strict_descendant (root path : list JS.char) : Prop :=
  exists name rest, components path = components root ++ name :: rest.

Definition render (segs : list (list JS.char)) : list JS.char :=
  Path.sep :: Path.joinSep segs.

(** The components [path.resolve] computes for an absolute path. *)
Definition canon (p : list JS.char) : list (list JS.char) :=
  Path.normalizeSegments false (Path.splitSep p) [].

End PathSpec.

Module ChunkSpec.

Import ResponseChunker.

(** What the loop produces from position [cur]: consecutive slices of the
    response, each non-empty and at most one character over the target. *)
Fixpoint cut_from (s : list JS.char) (c cur idx : Z) (chunks : list CachedChunk) : Prop :=
  match chunks with
  | [] => JS.len s <= cur
  | ch :: rest =>
      let n := JS.len (content ch) in
      content ch = take (Z.to_nat n) (drop (Z.to_nat cur) s) /\
      index ch = idx /\ total ch = 0 /\
      1 <= n <= c + 1 /\ cur + n <= JS.len s /\
      (n = c + 1 <-> s !! Z.to_nat (cur + c) = Some JS.newline) /\
      (n = c + 1 -> last (content ch) = Some JS.newline) /\
      cut_from s c (cur + n) (idx + 1) rest
  end.

End ChunkSpec.

(** ** Prompt references (utils/pathValidator.ts, second half) *)

Module PromptPaths.

Import PathValidator.

(** The character class [[\w./-]] of [AT_PATH_PATTERN]. *)
Definition isPathChar (c : JS.char) : bool :=
  ((48 <=? c)%N && (c <=? 57)%N) || ((65 <=? c)%N && (c <=? 90)%N)
  || ((97 <=? c)%N && (c <=? 122)%N) || (c =? 95)%N
  || (c =? 46)%N || (c =? 47)%N || (c =? 45)%N.

Definition at_sign : JS.char := JS.chr "@".

Fixpoint pathRun (s : list JS.char) : list JS.char :=
  match s with
  | c :: s' => if isPathChar c then c :: pathRun s' else []
  | [] => []
  end.

(** The [exec] loop over [/@([\w./-]+)/g]: at each position the pattern
    matches when an [@] is followed by at least one path character, and
    takes the longest run of them; the search resumes after the match.
    [skip] counts the characters the previous match still covers. *)
Fixpoint matchesFrom (skip : nat) (s : list JS.char) : list (list JS.char) :=
  match s with
  | [] => []
  | c :: rest =>
      match skip with
      | S k => matchesFrom k rest
      | O =>
          if decide (c = at_sign) then
            match pathRun rest with
            | [] => matchesFrom 0 rest
            | run => run :: matchesFrom (length run) rest
            end
          else matchesFrom 0 rest
      end
  end.

Definition extractAtPathReferences (prompt : list JS.char) : list (list JS.char) :=
  matchesFrom 0 prompt.

Section WithEnvironment.

Variable cwd : list JS.char.
Variable accessSync : list JS.char -> bool.

Definition validatePromptPaths (prompt projectRoot : list JS.char)
    : list PathValidationResult :=
  map (fun p => validatePath cwd accessSync p projectRoot) (extractAtPathReferences prompt).

Definition checkPromptPathsValid (prompt projectRoot : list JS.char)
    : bool * list PathValidationResult :=
  let results := validatePromptPaths prompt projectRoot in
  let invalidPaths := List.filter (fun r => negb (allowed r)) results in
  (bool_decide (length invalidPaths = 0%nat), invalidPaths).

(** The path check of [analyze_directory] (tools/index.ts, lines 172-181):
    the project root is handed to [isWithinProjectRoot] as it is. *)
Definition analyzeDirectoryAllowed (inputPath projectRoot : list JS.char) : bool :=
  let resolvedPath :=
    if Path.isAbsolute inputPath then Path.resolve cwd [inputPath]
    else Path.resolve cwd [projectRoot; inputPath] in
  isWithinProjectRoot resolvedPath projectRoot.

End WithEnvironment.

(** [getProjectRoot]: [PROJECT_ROOT] when set and non-empty, else the
    working directory. *)
Definition getProjectRoot (envRoot : option (list JS.char)) (cwd : list JS.char) : list JS.char :=
  match envRoot with
  | Some r => if decide (r = []) then cwd else r
  | None => cwd
  end.

End PromptPaths.

(** ** Chunk estimate (utils/responseChunker.ts) *)

Module ChunkEstimate.

(** [Math.ceil(response.length / chunkSizeBytes)], for a non-zero chunk
    size; lengths are far below 2^53, where the quotient is exact. *)
Definition estimateChunkCount (response : list JS.char) (chunkSizeKB : Z) : Z :=
  let chunkSizeBytes := chunkSizeKB * 1024 in
  - ((- JS.len response) / chunkSizeBytes).

End ChunkEstimate.

(** ** Response cache, remaining operations *)

Module CacheOps.

Import ResponseChunker ResponseCache.

Record Metadata := mkMetadata {
  totalChunks : Z;
  metaExpiresAt : Z;
  metaCreatedAt : Z
}.

Definition getCacheMetadata (key : list JS.char) (now : Z) (st : Store)
    : option Metadata * Store :=
  match getResponse key now st with
  | (None, st') => (None, st')
  | (Some entry, st') =>
      (Some (mkMetadata (Z.of_nat (length (chunks entry))) (expiresAt entry) (createdAt entry)),
       st')
  end.

Definition clearAll (st : Store) : Store := mkStore ∅ (cleanupScheduled st).

(** The interval callback runs only while the timer exists, that is while
    [cleanupScheduled] is set. *)
Definition timerFires (now : Z) (st : Store) : Store :=
  if cleanupScheduled st then cleanupTick now st else st.

(** One call into the module, or one firing of its timer. *)
Inductive CacheOp :=
| OpCacheResponse (stored : list CachedChunk) (ttlMs : Z) (key : list JS.char) (now : Z)
| OpGetResponse (key : list JS.char) (now : Z)
| OpGetChunk (key : list JS.char) (chunkIndex : Z) (now : Z)
| OpGetCacheMetadata (key : list JS.char) (now : Z)
| OpHasValidCache (key : list JS.char) (now : Z)
| OpDeleteCache (key : list JS.char)
| OpClearExpired (now : Z)
| OpClearAll
| OpTimer (now : Z).

Definition applyOp (st : Store) (op : CacheOp) : Store :=
  match op with
  | OpCacheResponse stored ttlMs key now => (cacheResponse stored ttlMs key now st).2
  | OpGetResponse key now => (getResponse key now st).2
  | OpGetChunk key chunkIndex now => (getChunk key chunkIndex now st).2
  | OpGetCacheMetadata key now => (getCacheMetadata key now st).2
  | OpHasValidCache key now => (hasValidCache key now st).2
  | OpDeleteCache key => (deleteCache key st).2
  | OpClearExpired now => (clearExpired now st).2
  | OpClearAll => clearAll st
  | OpTimer now => timerFires now st
  end.

Definition runOps (ops : list CacheOp) : Store := fold_left applyOp ops emptyStore.

(** The key an operation is about, if it is about one. *)
Definition opKey (op : CacheOp) : option (list JS.char) :=
  match op with
  | OpCacheResponse _ _ key _ | OpGetResponse key _ | OpGetChunk key _ _
  | OpGetCacheMetadata key _ | OpHasValidCache key _ | OpDeleteCache key => Some key
  | OpClearExpired _ | OpClearAll | OpTimer _ => None
  end.

End CacheOps.

(** ** Cache statistics (utils/responseCache.ts, [getCacheStats]) *)

Module CacheStats.

Import ResponseCache.

(** [Date] objects are modelled by their time value. *)
Record Stats := mkStats {
  statsSize : Z;
  oldestEntry : option Z;
  newestEntry : option Z
}.

(** One round of the loop over [cache.values()]. *)
Definition statsStep (acc : option Z * option Z) (entry : CacheEntry)
    : option Z * option Z :=
  let '(oldest, newest) := acc in
  (match oldest with
   | None => Some (createdAt entry)
   | Some o => if decide (createdAt entry < o) then Some (createdAt entry) else oldest
   end,
   match newest with
   | None => Some (createdAt entry)
   | Some n => if decide (createdAt entry > n) then Some (createdAt entry) else newest
   end).

(** [t ? new Date(t) : null]: [null] and [0] are both falsy. *)
Definition toDate (t : option Z) : option Z :=
  match t with
  | Some v => if decide (v = 0) then None else Some v
  | None => None
  end.

(** [getCacheStats()], with [values] the entries in the order in which
    [cache.values()] enumerates them. *)
Definition getCacheStats (values : list CacheEntry) (st : Store) : Stats :=
  let '(oldest, newest) := fold_left statsStep values (None, None) in
  mkStats (Z.of_nat (size (cache st))) (toDate oldest) (toDate newest).

End CacheStats.

(** ** Fetch chunk tool (tools/fetch-chunk.tool.ts) *)

Module FetchChunkTool.

Import Constants ResponseChunker ResponseCache CacheOps.

Inductive FetchResult :=
| FetchError (code : ErrorCode) (message : list JS.char)
| FetchedChunk (index total : Z) (content : list JS.char) (expiresAt : Z).

Definition CACHE_EXPIRED_MESSAGE : list JS.char :=
  JS.str "Cache key not found or expired. Re-run original query to regenerate response.".
Definition INVALID_CHUNK_INDEX_MESSAGE : list JS.char :=
  JS.str "Requested chunk index out of range".

(** [execute]; the cache is read three times, at the clock readings
    [now1], [now2] and [now3]. *)
Definition execute (cacheKey : list JS.char) (chunkIndex : Z) (now1 now2 now3 : Z)
    (st : Store) : FetchResult * Store :=
  if decide (cacheKey = []) then
    (FetchError INVALID_ARGUMENT (JS.str "cacheKey must be a non-empty string"), st)
  else if decide (chunkIndex < 1) then
    (FetchError INVALID_ARGUMENT (JS.str "chunkIndex must be a positive integer (1-based)"), st)
  else
    match getResponse cacheKey now1 st with
    | (None, st1) => (FetchError CACHE_EXPIRED CACHE_EXPIRED_MESSAGE, st1)
    | (Some _, st1) =>
        match getCacheMetadata cacheKey now2 st1 with
        | (None, st2) => (FetchError CACHE_EXPIRED CACHE_EXPIRED_MESSAGE, st2)
        | (Some metadata, st2) =>
            if decide (chunkIndex > totalChunks metadata) then
              (FetchError INVALID_CHUNK_INDEX INVALID_CHUNK_INDEX_MESSAGE, st2)
            else
              match getChunk cacheKey chunkIndex now3 st2 with
              | (None, st3) =>
                  (FetchError INTERNAL (JS.str "Failed to retrieve chunk from cache"), st3)
              | (Some chunk, st3) =>
                  (FetchedChunk chunkIndex (totalChunks metadata) (content chunk)
                     (metaExpiresAt metadata), st3)
              end
        end
    end.

(** The content of a fetched chunk, empty for an error. *)
Definition contentOf (r : FetchResult) : list JS.char :=
  match r with
  | FetchedChunk _ _ content _ => content
  | FetchError _ _ => []
  end.

End FetchChunkTool.

(** ** Deep research tool, the whole of [execute] *)

Module DeepResearchExecute.

Import Constants PathValidator PromptPaths ResponseCache GeminiExecutor DeepResearchTool.

Inductive Focus := focus_security | focus_architecture | focus_performance | focus_general.
Inductive CitationMode := citation_none | citation_paths_only.

Definition FOCUS_INSTRUCTIONS (focus : Focus) : list JS.char :=
  match focus with
  | focus_security =>
      JS.str "Focus on security implications, vulnerabilities, attack vectors, and security best practices."
  | focus_architecture =>
      JS.str "Focus on architectural patterns, design decisions, component relationships, and structural concerns."
  | focus_performance =>
      JS.str "Focus on performance characteristics, bottlenecks, optimization opportunities, and efficiency."
  | focus_general => []
  end.

Definition CITATION_INSTRUCTIONS (mode : CitationMode) : list JS.char :=
  match mode with
  | citation_none => []
  | citation_paths_only =>
      JS.str "Include a '## Files Referenced' section at the end of your response listing all file paths you examined or referenced in your analysis."
  end.

Definition blankLine : list JS.char := [JS.newline; JS.newline].

(** Lines 113-122: the prompt with its focus and citation instructions. *)
Definition buildFullPrompt (prompt : list JS.char) (focus : option Focus)
    (citationMode : option CitationMode) : list JS.char :=
  let fullPrompt := prompt in
  let fullPrompt :=
    match focus with
    | Some focus_general | None => fullPrompt
    | Some f => FOCUS_INSTRUCTIONS f ++ blankLine ++ fullPrompt
    end in
  match citationMode with
  | Some citation_none | None => fullPrompt
  | Some m => fullPrompt ++ blankLine ++ CITATION_INSTRUCTIONS m
  end.

Inductive ExecuteResult :=
| InvalidArgument (message field : list JS.char)
| PathNotAllowed (message : list JS.char) (invalidPaths : list PathValidationResult)
| Tried (settlement : ToolSettlement).

Definition NO_PROMPT_PROVIDED : list JS.char :=
  JS.str "Please provide a prompt for analysis. Use @ syntax to include files (e.g., '@src/auth.ts explain what this does') or ask general questions".

Section WithEngine.

Variable cwd : list JS.char.
Variable accessSync : list JS.char -> bool.
Variable envRoot : option (list JS.char).
Variable parseGeminiOutput : list JS.char -> ParsedOutput.
Variable child : nat -> list (list JS.char) -> list CommandExecutor.ProcEvent.
Variable latency : nat -> Z.
Variable hasProgress : bool.

(** [execute]: the result, the cache afterwards, and what the caller
    could observe of the engine. *)
Definition execute (prompt : list JS.char) (focus : option Focus)
    (citationMode : option CitationMode) (freshKey : list JS.char) (now : Z) (st : Store)
    : ExecuteResult * Store * list TraceEvent :=
  let projectRoot := getProjectRoot envRoot cwd in
  if decide (prompt = [] \/ JS.len (JS.trim prompt) = 0) then
    (InvalidArgument NO_PROMPT_PROVIDED (JS.str "prompt"), st, [])
  else
    let pathValidation := checkPromptPathsValid cwd accessSync prompt projectRoot in
    if negb pathValidation.1 then
      (PathNotAllowed (JS.str "Invalid @path references in prompt") pathValidation.2, st, [])
    else
      let fullPrompt := buildFullPrompt prompt focus citationMode in
      let '(settlement, st') :=
        executeTry parseGeminiOutput child latency hasProgress fullPrompt freshKey now st in
      (Tried settlement, st',
       (executeGeminiCLI parseGeminiOutput child latency hasProgress
          fullPrompt deep_research).2).

End WithEngine.

End DeepResearchExecute.

(** ** Logger, command line of the debug log (utils/logger.ts) *)

Module LoggerModel.

Definition isPromptFlag (arg : list JS.char) : bool :=
  bool_decide (arg = JS.str "-p") || bool_decide (arg = JS.str "--prompt").

Definition truncateArg (arg : list JS.char) : list JS.char :=
  if decide (JS.len arg > 100) then JS.slice arg 0 100 ++ JS.str "...[truncated]"
  else arg.

(** [args.map((arg, index) => ...)]: [previous] is [args[index - 1]]. *)
Fixpoint safeArgsFrom (previous : option (list JS.char)) (args : list (list JS.char))
    : list (list JS.char) :=
  match args with
  | [] => []
  | arg :: rest =>
      (match previous with
       | Some p => if isPromptFlag p then truncateArg arg else arg
       | None => arg
       end) :: safeArgsFrom (Some arg) rest
  end.

Definition safeArgs (args : list (list JS.char)) : list (list JS.char) :=
  safeArgsFrom None args.

Fixpoint joinWith (sepr : list JS.char) (parts : list (list JS.char)) : list JS.char :=
  match parts with
  | [] => []
  | [p] => p
  | p :: rest => p ++ sepr ++ joinWith sepr rest
  end.

(** The text [Logger.commandExecution] hands to [Logger.debug]. *)
Definition commandExecutionMessage (command : list JS.char) (args : list (list JS.char))
    (startTime : Z) : list JS.char :=
  JS.str "[" ++ CommandExecutor.showCode (Some startTime) ++ JS.str "] Executing: "
  ++ command ++ JS.str " " ++ joinWith (JS.str " ") (safeArgs args).

End LoggerModel.

(** ** Setup wizard, test invocation (setup/wizard.ts) *)

Module WizardTest.

Import Constants CommandExecutor SetupWizard.

Record ValidationResult := mkValidation {
  success : bool;
  message : list JS.char;
  isAuthError : bool
}.

Definition TEST_ARGS : list (list JS.char) :=
  [FLAG_PROMPT; JS.str "What is 2+2? Answer with just the number.";
   FLAG_OUTPUT_FORMAT; FORMAT_JSON].

Definition TEST_TIMEOUT_MS : Z := 120000.

(** [testGeminiInvocation] against a child producing [events]; [None]
    while [runCommand] has not settled. *)
Definition testGeminiInvocation (events : list ProcEvent) : option ValidationResult :=
  match r_settled (runCommand GEMINI TEST_TIMEOUT_MS events) with
  | None => None
  | Some (Resolved _) =>
      Some (mkValidation true (JS.str "Test invocation successful") false)
  | Some (Rejected errorMessage) =>
      Some (mkValidation false errorMessage
              (JS.includes errorMessage (JS.str "auth")
               || JS.includes errorMessage (JS.str "login")
               || JS.includes errorMessage (JS.str "credential")
               || JS.includes errorMessage (JS.str "unauthenticated")
               || JS.includes errorMessage (JS.str "timed out")))
  end.

End WizardTest.

(** ** Stores for the scenarios of the cache *)

Module CacheScenarios.

Import ResponseChunker ResponseCache.

Definition bundleA : list CachedChunk :=
  [mkChunk (JS.str "hel") 1 2; mkChunk (JS.str "lo") 2 2].

Definition bundleB : list CachedChunk := [mkChunk (JS.str "world") 1 1].

(** Two bundles, each kept for 1000 ms: two chunks under [cache_a],
    stored at time 0, and one chunk under [cache_b], stored at time 5. *)
Definition twoBundles : Store :=
  (cacheResponse bundleB 1000 (JS.str "cache_b") 5
     (cacheResponse bundleA 1000 (JS.str "cache_a") 0 emptyStore).2).2.

(** An answer of 2500 characters: three chunks at 1 KB. *)
Definition longAnswer : list JS.char := repeat (JS.chr "A") 2500.

End CacheScenarios.

(** * Properties *)

(** ** JavaScript primitives *)

Lemma lastIndexOf_from_spec c s k :
  let r := JS.lastIndexOf_from c s k in
  (r = -1 \/ (0 <= r <= Z.of_nat k /\ s !! Z.to_nat r = Some c)) /\
  (forall j : nat, r < Z.of_nat j <= Z.of_nat k -> s !! j <> Some c).
Proof.
  induction k as [|k IH]; simpl.
  - case_decide as H.
    + split; [right; split; [lia|exact H]|]. intros j Hj. lia.
    + split; [left; reflexivity|]. intros j Hj.
      assert (j = 0%nat) by lia. subst. exact H.
  - case_decide as H.
    + split.
      * right. split; [lia|]. rewrite Nat2Z.id. exact H.
      * intros j Hj. lia.
    + destruct IH as [IH1 IH2]. split.
      * destruct IH1 as [->|[Hr Hl]]; [left; reflexivity|].
        right. split; [lia|exact Hl].
      * intros j Hj. destruct (decide (j = S k)) as [->|Hne]; [exact H|].
        apply IH2. lia.
Qed.

Lemma lastIndexOf_spec c s pos :
  0 <= pos < JS.len s ->
  let r := JS.lastIndexOf c s pos in
  (r = -1 \/ (0 <= r <= pos /\ s !! Z.to_nat r = Some c)) /\
  (forall j : Z, r < j <= pos -> s !! Z.to_nat j <> Some c).
Proof.
  intros Hpos. unfold JS.lastIndexOf.
  replace (Z.min (Z.max pos 0) (JS.len s - 1)) with pos by lia.
  case_decide; [lia|].
  pose proof (lastIndexOf_from_spec c s (Z.to_nat pos)) as [H1 H2].
  simpl. split.
  - destruct H1 as [H1|[H1 H1']]; [left; exact H1|right; split; [lia|exact H1']].
  - intros j Hj. specialize (H2 (Z.to_nat j)). apply H2. lia.
Qed.

Lemma slice_nonneg s a b :
  0 <= a <= b -> b <= JS.len s ->
  JS.slice s a b = take (Z.to_nat (b - a)) (drop (Z.to_nat a) s).
Proof.
  intros Ha Hb. unfold JS.slice, JS.clampIndex.
  repeat case_decide; try lia.
  f_equal; [lia|]. f_equal. lia.
Qed.

(** ** Response chunker *)

Import ResponseChunker ChunkSpec.

Lemma endPositionOf_bounds s c cur :
  0 < c -> 0 <= cur < JS.len s ->
  let e := endPositionOf s c cur in
  cur < e <= JS.len s /\ e <= cur + c + 1 /\
  (e - cur = c + 1 <-> s !! Z.to_nat (cur + c) = Some JS.newline) /\
  (e - cur = c + 1 -> s !! Z.to_nat (e - 1) = Some JS.newline).
Proof.
  intros Hc Hcur. unfold endPositionOf. simpl.
  case_decide as Hend.
  - pose proof (lastIndexOf_spec JS.newline s (cur + c) ltac:(lia)) as [H1 H2].
    simpl in H1, H2.
    set (r := JS.lastIndexOf JS.newline s (cur + c)) in *.
    case_decide as Hr.
    + destruct H1 as [H1|[H1 H1']]; [lia|].
      split; [lia|]. split; [lia|]. split.
      * split.
        -- intros He. replace (cur + c) with r by lia. exact H1'.
        -- intros Hnl. destruct (decide (r = cur + c)) as [->|Hne]; [lia|].
           exfalso. apply (H2 (cur + c)); [lia|exact Hnl].
      * intros He. replace (r + 1 - 1) with r by lia. exact H1'.
    + split; [lia|]. split; [lia|]. split; [|lia].
      split; [lia|].
      intros Hnl. exfalso.
      destruct (decide (r = cur + c)) as [Heq|Hne]; [lia|].
      apply (H2 (cur + c)); [|exact Hnl].
      destruct H1 as [H1|[H1 _]]; lia.
  - split; [lia|]. split; [lia|]. split; [|lia].
    split; [lia|].
    intros Hnl. apply lookup_lt_Some in Hnl. unfold JS.len in *. lia.
Qed.

Lemma chunkLoop_acc fuel s c cur idx acc :
  chunkLoop fuel s c cur idx acc = acc ++ chunkLoop fuel s c cur idx [].
Proof.
  revert cur idx acc. induction fuel as [|fuel IH]; intros cur idx acc; simpl.
  - by rewrite app_nil_r.
  - case_decide; [|by rewrite app_nil_r].
    rewrite IH. rewrite (IH _ _ [_]). by rewrite <- app_assoc.
Qed.

Lemma chunkLoop_step fuel s c cur idx :
  cur < JS.len s ->
  chunkLoop (S fuel) s c cur idx [] =
    mkChunk (JS.slice s cur (endPositionOf s c cur)) idx 0
      :: chunkLoop fuel s c (endPositionOf s c cur) (idx + 1) [].
Proof.
  intros Hcur. simpl. case_decide; [|lia]. by rewrite chunkLoop_acc.
Qed.

Lemma chunkLoop_done fuel s c cur idx :
  JS.len s <= cur -> chunkLoop fuel s c cur idx [] = [].
Proof. intros H. destruct fuel; simpl; [done|]. case_decide; [lia|done]. Qed.

Lemma last_take_drop (s : list JS.char) (a n : nat) :
  (0 < n)%nat -> (a + n <= length s)%nat ->
  last (take n (drop a s)) = s !! (a + n - 1)%nat.
Proof.
  intros Hn Hlen. rewrite last_lookup.
  rewrite length_take, length_drop.
  replace (Init.Nat.pred (n `min` (length s - a))) with (n - 1)%nat by lia.
  rewrite lookup_take_lt by lia. rewrite lookup_drop. f_equal. lia.
Qed.

Lemma chunkLoop_cut fuel s c cur idx :
  0 < c -> 0 <= cur ->
  (Z.to_nat (JS.len s - cur) <= fuel)%nat ->
  cut_from s c cur idx (chunkLoop fuel s c cur idx []).
Proof.
  intros Hc. revert cur idx. induction fuel as [|fuel IH]; intros cur idx Hcur Hfuel.
  - simpl. lia.
  - destruct (decide (cur < JS.len s)) as [Hlt|Hge].
    + rewrite chunkLoop_step by done.
      pose proof (endPositionOf_bounds s c cur Hc ltac:(lia)) as (Hb1 & Hb2 & Hb3 & Hb4).
      simpl in Hb1, Hb2, Hb3, Hb4.
      set (e := endPositionOf s c cur) in *.
      assert (Hslice : JS.slice s cur e = take (Z.to_nat (e - cur)) (drop (Z.to_nat cur) s))
        by (apply slice_nonneg; lia).
      assert (Hlen : JS.len (JS.slice s cur e) = e - cur).
      { rewrite Hslice. unfold JS.len in *. rewrite length_take, length_drop. lia. }
      simpl. rewrite Hlen.
      split; [exact Hslice|]. split; [done|]. split; [done|].
      split; [lia|]. split; [lia|]. split; [exact Hb3|]. split.
      * intros He. rewrite Hslice. rewrite last_take_drop.
        -- rewrite <- (Hb4 He). f_equal. lia.
        -- lia.
        -- unfold JS.len in *. lia.
      * replace (cur + (e - cur)) with e by lia.
        apply IH; [lia|]. unfold JS.len in *. lia.
    + rewrite chunkLoop_done by lia. simpl. lia.
Qed.

Lemma cut_from_concat s c cur idx chunks :
  0 <= cur -> cut_from s c cur idx chunks ->
  concat (map content chunks) = drop (Z.to_nat cur) s.
Proof.
  revert cur idx. induction chunks as [|ch rest IH]; intros cur idx Hcur H; simpl in *.
  - rewrite drop_ge; [done|]. unfold JS.len in *. lia.
  - destruct H as (Hc & _ & _ & Hn & Hle & _ & _ & Hrest).
    unfold JS.len in *.
    assert (Hnext : 0 <= cur + Z.of_nat (length (content ch))) by lia.
    rewrite (IH _ _ Hnext Hrest).
    rewrite Hc at 1.
    replace (Z.to_nat (cur + Z.of_nat (length (content ch))))
      with (Z.to_nat cur + Z.to_nat (Z.of_nat (length (content ch))))%nat by lia.
    rewrite <- drop_drop. apply take_drop.
Qed.

Lemma cut_from_index s c cur idx chunks :
  cut_from s c cur idx chunks ->
  map index chunks = seqZ idx (Z.of_nat (length chunks)).
Proof.
  revert cur idx. induction chunks as [|ch rest IH]; intros cur idx H; simpl in *.
  - done.
  - destruct H as (_ & Hi & _ & _ & _ & _ & _ & Hrest).
    rewrite (IH _ _ Hrest), Hi.
    rewrite (seqZ_cons idx) by lia. f_equal. f_equal; lia.
Qed.

Lemma cut_from_split s c cur idx pre ch post :
  0 <= cur -> cut_from s c cur idx (pre ++ ch :: post) ->
  let start := cur + JS.len (concat (map content pre)) in
  let n := JS.len (content ch) in
  1 <= n <= c + 1 /\
  (n = c + 1 <-> s !! Z.to_nat (start + c) = Some JS.newline) /\
  (n = c + 1 -> last (content ch) = Some JS.newline).
Proof.
  revert cur idx. induction pre as [|p pre IH]; intros cur idx Hcur H; simpl in *.
  - destruct H as (_ & _ & _ & Hn & _ & Hiff & Hlast & _).
    unfold JS.len at 1 3. simpl. rewrite Z.add_0_r. done.
  - destruct H as (_ & _ & _ & Hn & _ & _ & _ & Hrest).
    unfold JS.len in *.
    assert (Hnext : 0 <= cur + Z.of_nat (length (content p))) by lia.
    specialize (IH _ _ Hnext Hrest). simpl in IH.
    rewrite length_app.
    replace (cur + Z.of_nat (length (content p) + length (concat (map content pre))))
      with (cur + Z.of_nat (length (content p)) + Z.of_nat (length (concat (map content pre))))
      by lia.
    exact IH.
Qed.

Lemma map_content_setTotal t chunks :
  map content (map (setTotal t) chunks) = map content chunks.
Proof. rewrite map_map. by apply map_ext. Qed.

Lemma map_index_setTotal t chunks :
  map index (map (setTotal t) chunks) = map index chunks.
Proof. rewrite map_map. by apply map_ext. Qed.

Lemma Forall_total_setTotal t chunks :
  Forall (fun ch => total ch = t) (map (setTotal t) chunks).
Proof. induction chunks; simpl; constructor; auto. Qed.

Lemma chunkLoop_total fuel s c :
  0 < c -> (length s <= fuel)%nat ->
  cut_from s c 0 1 (chunkLoop fuel s c 0 1 []).
Proof.
  intros Hc Hfuel. apply chunkLoop_cut; [done|lia|]. unfold JS.len. lia.
Qed.

(** Extra fuel is never consumed: the loop stops by its own condition. *)
Lemma chunkLoop_fuel_irrelevant fuel1 fuel2 s c cur idx :
  0 < c -> 0 <= cur ->
  (Z.to_nat (JS.len s - cur) <= fuel1)%nat ->
  (Z.to_nat (JS.len s - cur) <= fuel2)%nat ->
  chunkLoop fuel1 s c cur idx [] = chunkLoop fuel2 s c cur idx [].
Proof.
  intros Hc. revert fuel2 cur idx.
  induction fuel1 as [|fuel1 IH]; intros fuel2 cur idx Hcur H1 H2.
  - rewrite !chunkLoop_done by lia. done.
  - destruct (decide (cur < JS.len s)) as [Hlt|Hge].
    + destruct fuel2 as [|fuel2]; [lia|].
      rewrite !chunkLoop_step by done.
      pose proof (endPositionOf_bounds s c cur Hc ltac:(lia)) as (Hb1 & _).
      simpl in Hb1. f_equal. apply IH; lia.
    + rewrite !chunkLoop_done by lia. done.
Qed.

(** C2: concatenating the chunks of [chunkResponse s kb] in index order
    gives back [s]; the chunks are numbered 1..n and each carries the
    total n; and a response of at most [kb * 1024] characters yields the
    single chunk [{content: s, index: 1, total: 1}]. *)
Theorem chunkResponse_roundtrip (s : list JS.char) (kb : Z) :
  0 < kb ->
  let chunks := chunkResponse s kb in
  concat (map content chunks) = s /\
  map index chunks = seqZ 1 (Z.of_nat (length chunks)) /\
  Forall (fun ch => total ch = Z.of_nat (length chunks)) chunks /\
  (JS.len s <= kb * 1024 -> chunks = [mkChunk s 1 1]).
Proof.
  intros Hkb. unfold chunkResponse. simpl.
  case_decide as Hfit.
  - simpl. rewrite app_nil_r. repeat split; auto.
  - pose proof (chunkLoop_total (length s) s (kb * 1024) ltac:(lia) ltac:(lia)) as Hcut.
    set (chunks := chunkLoop (length s) s (kb * 1024) 0 1 []) in *.
    rewrite map_content_setTotal, map_index_setTotal, length_map.
    split; [|split; [|split]].
    + rewrite (cut_from_concat s (kb * 1024) 0 1 chunks ltac:(lia) Hcut). done.
    + exact (cut_from_index _ _ _ _ _ Hcut).
    + apply Forall_total_setTotal.
    + intros Hle. lia.
Qed.

Lemma chunkResponse_roundtrip_witness :
  0 < 1 /\
  concat (map content (chunkResponse (JS.str "line one") 1)) = JS.str "line one".
Proof.
  split; [lia|].
  apply (chunkResponse_roundtrip (JS.str "line one") 1). lia.
Defined.

(** C10: when the response is longer than the target [c = kb * 1024],
    every chunk is non-empty and has at most [c + 1] characters; a chunk
    has exactly [c + 1] characters precisely when the character at its
    provisional cut position (its start offset plus [c]) is a newline, and
    that newline is then the last character of the chunk. *)
Theorem chunkResponse_chunk_bounds (s : list JS.char) (kb : Z)
    (pre : list CachedChunk) (ch : CachedChunk) (post : list CachedChunk) :
  0 < kb ->
  kb * 1024 < JS.len s ->
  chunkResponse s kb = pre ++ ch :: post ->
  let c := kb * 1024 in
  let start := JS.len (concat (map content pre)) in
  1 <= JS.len (content ch) <= c + 1 /\
  (JS.len (content ch) = c + 1 <-> s !! Z.to_nat (start + c) = Some JS.newline) /\
  (JS.len (content ch) = c + 1 -> last (content ch) = Some JS.newline).
Proof.
  intros Hkb Hlong Heq. unfold chunkResponse in Heq. simpl in Heq.
  case_decide as Hfit; [lia|].
  pose proof (chunkLoop_total (length s) s (kb * 1024) ltac:(lia) ltac:(lia)) as Hcut.
  set (chunks := chunkLoop (length s) s (kb * 1024) 0 1 []) in *.
  apply map_eq_app in Heq. destruct Heq as (pre' & rest' & Hchunks & Hpre & Hrest).
  apply map_eq_cons in Hrest. destruct Hrest as (ch' & post' & -> & Hch & Hpost).
  rewrite Hchunks in Hcut.
  pose proof (cut_from_split s (kb * 1024) 0 1 pre' ch' post' ltac:(lia) Hcut) as Hsplit.
  simpl in Hsplit. rewrite Z.add_0_l in Hsplit.
  subst pre ch. rewrite map_content_setTotal. simpl. exact Hsplit.
Qed.

Lemma chunkResponse_chunk_bounds_witness :
  let s := repeat (JS.chr "a") 1024 ++ [JS.newline; (JS.chr "b")] in
  let ch := mkChunk (repeat (JS.chr "a") 1024 ++ [JS.newline]) 1 2 in
  1 <= JS.len (content ch) <= 1 * 1024 + 1 /\
  (JS.len (content ch) = 1 * 1024 + 1 <->
     s !! Z.to_nat (JS.len (concat (map content [])) + 1 * 1024) = Some JS.newline) /\
  (JS.len (content ch) = 1 * 1024 + 1 -> last (content ch) = Some JS.newline).
Proof.
  intros s ch.
  apply (chunkResponse_chunk_bounds s 1 [] ch [mkChunk [JS.chr "b"] 2 2]).
  - lia.
  - vm_compute. reflexivity.
  - vm_compute. reflexivity.
Defined.

(** Scenario of the chunker's unit test: 2500 characters at 1 KB. *)
Example chunkResponse_2500 :
  map (fun ch => (JS.len (content ch), index ch, total ch))
      (chunkResponse (repeat (JS.chr "A") 2500) 1)
  = [(1024, 1, 3); (1024, 2, 3); (452, 3, 3)].
Proof. vm_compute. reflexivity. Qed.

(** ** POSIX paths *)

Import PathValidator PathSpec.

Lemma splitSep_nonnil p : Path.splitSep p <> [].
Proof. destruct p as [|c p]; simpl; [done|]. case_decide; [done|]. by destruct (Path.splitSep p). Qed.

Lemma splitSep_app_sep a b :
  Path.splitSep (a ++ Path.sep :: b) = Path.splitSep a ++ Path.splitSep b.
Proof.
  induction a as [|c a IH]; simpl.
  - done.
  - case_decide; [by rewrite IH|].
    rewrite IH. destruct (Path.splitSep a) eqn:E; [by apply splitSep_nonnil in E|done].
Qed.

Lemma splitSep_sepfree seg : Path.sep ∉ seg -> Path.splitSep seg = [seg].
Proof.
  induction seg as [|c seg IH]; intros H; simpl; [done|].
  case_decide as Hc; [subst; exfalso; apply H; left|].
  rewrite IH; [done|]. intros Hin. apply H. by right.
Qed.

Lemma splitSep_joinSep segs :
  segs <> [] -> Forall (fun seg => Path.sep ∉ seg) segs ->
  Path.splitSep (Path.joinSep segs) = segs.
Proof.
  induction segs as [|seg rest IH]; intros Hne Hall; [done|].
  inversion Hall as [|? ? Hseg Hrest]; subst.
  destruct rest as [|seg' rest'].
  - simpl. by apply splitSep_sepfree.
  - change (Path.joinSep (seg :: seg' :: rest'))
      with (seg ++ Path.sep :: Path.joinSep (seg' :: rest')).
    rewrite splitSep_app_sep, splitSep_sepfree by done.
    rewrite IH by done. done.
Qed.

Lemma splitSep_render segs :
  Forall clean_seg segs ->
  Path.splitSep (render segs) = [] :: (if decide (segs = []) then [[]] else segs).
Proof.
  intros Hall. unfold render. simpl. f_equal.
  case_decide as Hnil; [by subst|].
  apply splitSep_joinSep; [done|].
  eapply Forall_impl; [exact Hall|]. by intros seg (_ & _ & _ & H).
Qed.

Lemma normalizeSegments_app allow a b res :
  Path.normalizeSegments allow (a ++ b) res =
  Path.normalizeSegments allow b (rev (Path.normalizeSegments allow a res)).
Proof.
  revert res. induction a as [|seg a IH]; intros res; simpl.
  - by rewrite rev_involutive.
  - repeat case_decide; try apply IH.
    destruct res as [|top res']; [apply IH|]. case_decide; apply IH.
Qed.

Lemma normalizeSegments_clean segs res :
  Forall clean_seg segs ->
  Path.normalizeSegments false segs res = rev res ++ segs.
Proof.
  revert res. induction segs as [|seg segs IH]; intros res Hall; simpl.
  - by rewrite app_nil_r.
  - inversion Hall as [|? ? (H1 & H2 & H3 & H4) Hrest]; subst.
    case_decide as Hd; [destruct Hd; congruence|].
    case_decide; [congruence|].
    rewrite IH by done. simpl. by rewrite <- app_assoc.
Qed.

Lemma normalizeSegments_Forall_clean segs res :
  Forall (fun seg => Path.sep ∉ seg) segs ->
  Forall clean_seg res ->
  Forall clean_seg (Path.normalizeSegments false segs res).
Proof.
  revert res. induction segs as [|seg segs IH]; intros res Hsegs Hres; simpl.
  - by apply Forall_rev.
  - inversion Hsegs as [|? ? Hseg Hrest]; subst.
    case_decide as Hd; [by apply IH|].
    case_decide as Hdd.
    + destruct res as [|top res']; [by apply IH|].
      inversion Hres as [|? ? Htop Hres']; subst.
      case_decide; [by apply IH|by apply IH].
    + apply IH; [done|]. constructor; [|done].
      repeat split; try done; intros ->; apply Hd; auto.
Qed.

Lemma splitSep_sep_free p : Forall (fun seg => Path.sep ∉ seg) (Path.splitSep p).
Proof.
  induction p as [|c p IH]; simpl.
  - constructor; [|done]. by intros H%elem_of_nil.
  - case_decide as Hc.
    + constructor; [|done]. by intros H%elem_of_nil.
    + destruct (Path.splitSep p) as [|seg segs]; simpl.
      * constructor; [|done]. intros H%elem_of_cons. destruct H as [H|H]; [congruence|].
        by apply elem_of_nil in H.
      * inversion IH; subst. constructor; [|done].
        intros H%elem_of_cons. destruct H as [H|H]; [congruence|done].
Qed.

Lemma startsWith_spec s pre :
  JS.startsWith s pre = true <-> exists t, s = pre ++ t.
Proof.
  revert s. induction pre as [|c pre IH]; intros s; simpl.
  - split; [intros _; by exists s|done].
  - destruct s as [|d s].
    + split; [done|]. intros [t Ht]. discriminate.
    + rewrite andb_true_iff, bool_decide_eq_true, IH. split.
      * intros [-> [t ->]]. by exists t.
      * intros [t Ht]. injection Ht as -> ->. split; [done|by exists t].
Qed.

Lemma endsWith_char s c :
  JS.endsWith s [c] = true <-> last s = Some c.
Proof.
  unfold JS.endsWith. rewrite startsWith_spec. simpl.
  split.
  - intros [t Ht]. rewrite <- (rev_involutive s), Ht. simpl.
    by rewrite last_snoc.
  - intros Hl. destruct s as [|d s] using rev_ind; [done|].
    rewrite last_snoc in Hl. injection Hl as ->.
    rewrite rev_app_distr. simpl. by eexists.
Qed.

Lemma joinSep_cons seg rest :
  rest <> [] -> Path.joinSep (seg :: rest) = seg ++ Path.sep :: Path.joinSep rest.
Proof. by destruct rest. Qed.

Lemma joinSep_app a b :
  a <> [] -> b <> [] ->
  Path.joinSep (a ++ b) = Path.joinSep a ++ Path.sep :: Path.joinSep b.
Proof.
  induction a as [|seg a IH]; intros Ha Hb; [done|].
  destruct a as [|seg' a'].
  - simpl. by destruct b.
  - change ((seg :: seg' :: a') ++ b) with (seg :: ((seg' :: a') ++ b)).
    rewrite joinSep_cons by (simpl; congruence). rewrite IH by done.
    rewrite (joinSep_cons seg (seg' :: a')) by done. by rewrite <- app_assoc.
Qed.

Lemma joinSep_nil_inv segs :
  Forall clean_seg segs -> Path.joinSep segs = [] -> segs = [].
Proof.
  intros Hall Hj. destruct segs as [|seg rest]; [done|].
  inversion Hall as [|? ? (Hne & _) _]; subst.
  destruct rest; simpl in Hj; [congruence|].
  by destruct seg.
Qed.

Lemma last_joinSep segs :
  segs <> [] -> Forall clean_seg segs ->
  last (Path.joinSep segs) <> Some Path.sep.
Proof.
  induction segs as [|seg rest IH]; intros Hne Hall; [done|].
  inversion Hall as [|? ? (Hn & _ & _ & Hfree) Hrest]; subst.
  destruct rest as [|seg' rest'].
  - simpl. intros Hl. apply Hfree. rewrite last_lookup in Hl.
    by apply list_elem_of_lookup_2 in Hl.
  - rewrite joinSep_cons by done. rewrite last_app_cons, last_cons.
    destruct (last (Path.joinSep (seg' :: rest'))) eqn:E.
    + by apply IH.
    + exfalso. apply last_None in E. by apply joinSep_nil_inv in E.
Qed.

Lemma last_render segs :
  Forall clean_seg segs ->
  last (render segs) = Some Path.sep <-> segs = [].
Proof.
  intros Hall. unfold render. split.
  - intros Hl. destruct segs as [|seg rest]; [done|]. exfalso.
    rewrite last_cons in Hl.
    destruct (last (Path.joinSep (seg :: rest))) eqn:E.
    + rewrite <- E in Hl. by apply last_joinSep in Hl.
    + apply last_None in E. by apply joinSep_nil_inv in E.
  - by intros ->.
Qed.

Lemma canon_clean p : Forall clean_seg (canon p).
Proof. apply normalizeSegments_Forall_clean; [apply splitSep_sep_free|done]. Qed.

Lemma normalizeSegments_empty_seg allow rest res :
  Path.normalizeSegments allow ([] :: rest) res = Path.normalizeSegments allow rest res.
Proof.
  cbn [Path.normalizeSegments].
  destruct (decide _) as [|Hd]; [done|]. exfalso; apply Hd; by left.
Qed.

Lemma canon_render segs : Forall clean_seg segs -> canon (render segs) = segs.
Proof.
  intros Hall. unfold canon. rewrite splitSep_render by done.
  rewrite normalizeSegments_empty_seg.
  case_decide as Hnil.
  - subst. by rewrite normalizeSegments_empty_seg.
  - by rewrite normalizeSegments_clean.
Qed.

Lemma components_render segs : Forall clean_seg segs -> components (render segs) = segs.
Proof.
  intros Hall. unfold components. rewrite splitSep_render by done.
  rewrite filter_cons_False by (intros H; by apply H).
  case_decide as Hnil.
  - subst. by rewrite filter_cons_False by (intros H; by apply H).
  - clear Hnil. induction Hall as [|seg rest (Hn & _) Hrest IH]; [done|].
    rewrite filter_cons_True by done. by rewrite IH.
Qed.

Lemma render_inj a b :
  Forall clean_seg a -> Forall clean_seg b -> render a = render b -> a = b.
Proof. intros Ha Hb H. by rewrite <- (canon_render a), <- (canon_render b), H. Qed.

Lemma normalize_render segs :
  Forall clean_seg segs -> Path.normalize (render segs) = render segs.
Proof.
  intros Hall. unfold Path.normalize.
  case_decide as Hnil; [done|].
  change (Path.isAbsolute (render segs)) with true. simpl negb.
  change (Path.normalizeString (render segs) false)
    with (Path.joinSep (canon (render segs))).
  rewrite canon_render by done.
  case_decide as Hj.
  - apply joinSep_nil_inv in Hj; [|done]. by subst.
  - rewrite bool_decide_eq_false_2; [done|].
    rewrite last_render by done. intros ->. by apply Hj.
Qed.

Lemma isAbsolute_nonnil p : Path.isAbsolute p = true -> p <> [].
Proof. by destruct p. Qed.

Lemma normalizeSegments_trailing segs res :
  Path.normalizeSegments false (segs ++ [[]]) res = Path.normalizeSegments false segs res.
Proof.
  rewrite normalizeSegments_app, normalizeSegments_empty_seg. simpl.
  by rewrite rev_involutive.
Qed.

Lemma resolve_absolute cwd p :
  Path.isAbsolute p = true -> Path.resolve cwd [p] = render (canon p).
Proof.
  intros Habs. unfold Path.resolve. simpl rev. cbn [Path.resolveLoop].
  destruct (decide (p = [])) as [->|_]; [done|]. rewrite Habs.
  unfold Path.normalizeString. simpl negb.
  rewrite splitSep_app_sep. change (Path.splitSep []) with [[]: list JS.char].
  by rewrite normalizeSegments_trailing.
Qed.

Lemma resolve_pair cwd r p :
  Path.isAbsolute r = true -> Path.isAbsolute p = false ->
  Path.resolve cwd [r; p] =
    render (Path.normalizeSegments false (Path.splitSep p) (rev (canon r))).
Proof.
  intros Hr Hp. unfold Path.resolve. simpl rev. cbn [Path.resolveLoop].
  pose proof (isAbsolute_nonnil r Hr) as Hrn.
  destruct (decide (p = [])) as [->|Hpn].
  - destruct (decide (r = [])) as [|_]; [done|]. rewrite Hr.
    unfold Path.normalizeString. simpl negb.
    rewrite splitSep_app_sep. change (Path.splitSep []) with [[]: list JS.char].
    rewrite normalizeSegments_trailing, normalizeSegments_empty_seg.
    cbn [Path.normalizeSegments]. by rewrite rev_involutive.
  - rewrite Hp. destruct (decide (r = [])) as [|_]; [done|]. rewrite Hr.
    unfold Path.normalizeString. simpl negb.
    rewrite !splitSep_app_sep. change (Path.splitSep []) with [[]: list JS.char].
    rewrite app_assoc, normalizeSegments_trailing.
    by rewrite normalizeSegments_app.
Qed.

Lemma isAbsolute_render segs : Path.isAbsolute (render segs) = true.
Proof. done. Qed.

Lemma resolve_clean cwd r p :
  Path.isAbsolute r = true ->
  exists segs, Forall clean_seg segs /\
    Path.resolve cwd (if Path.isAbsolute p then [p] else [r; p]) = render segs.
Proof.
  intros Hr. destruct (Path.isAbsolute p) eqn:Hp.
  - exists (canon p). split; [apply canon_clean|by apply resolve_absolute].
  - eexists. split; [|by apply resolve_pair].
    apply normalizeSegments_Forall_clean; [apply splitSep_sep_free|].
    apply Forall_rev, canon_clean.
Qed.

(** Containment on rendered paths: the string test of
    [isWithinProjectRoot] is the prefix order on components. *)
Lemma isWithinProjectRoot_render R P :
  Forall clean_seg R -> Forall clean_seg P ->
  isWithinProjectRoot (render P) (render R) = true <-> R `prefix_of` P.
Proof.
  intros HR HP. unfold isWithinProjectRoot.
  rewrite !normalize_render by done.
  rewrite orb_true_iff, bool_decide_eq_true.
  destruct (decide (R = [])) as [->|HRn].
  - split; [intros _; apply prefix_nil|]. intros _. right.
    change (render []) with [Path.sep]. reflexivity.
  - assert (Hends : JS.endsWith (render R) [Path.sep] = false).
    { apply not_true_is_false. rewrite endsWith_char, last_render by done. done. }
    rewrite Hends, startsWith_spec. split.
    + intros [Heq|[t Ht]].
      * apply render_inj in Heq; [|done..]. by subst.
      * assert (Hsplit : Path.splitSep (render P) = Path.splitSep (render R) ++ Path.splitSep t).
        { rewrite Ht.
          replace ((render R ++ [Path.sep]) ++ t) with (render R ++ Path.sep :: t)
            by (by rewrite <- app_assoc).
          by rewrite splitSep_app_sep. }
        rewrite !splitSep_render in Hsplit by done.
        destruct (decide (R = [])) as [|_]; [done|].
        simpl in Hsplit. injection Hsplit as Hsplit.
        destruct (decide (P = [])) as [->|_].
        -- exfalso. destruct R as [|? [|? ?]]; try done;
             pose proof (splitSep_nonnil t); destruct (Path.splitSep t); done.
        -- by exists (Path.splitSep t).
    + intros [k ->]. destruct k as [|name k].
      * left. by rewrite app_nil_r.
      * right. exists (Path.joinSep (name :: k)). unfold render.
        rewrite joinSep_app by done. simpl. by rewrite <- app_assoc.
Qed.

(** C1: for an absolute trusted root [r], the path that [validatePath]
    reports as resolved is the absolute resolution of [p] (against [r]
    when [p] is relative); the path is allowed exactly when that
    resolution is the resolved root itself or lies strictly below it; and
    the sibling [/a/project-evil] of the root [/a/project] is refused. *)
Theorem validatePath_containment (cwd : list JS.char) (accessSync : list JS.char -> bool)
    (p r : list JS.char) :
  Path.isAbsolute r = true ->
  let v := validatePath cwd accessSync p r in
  let root := Path.resolve cwd [r] in
  let target := Path.resolve cwd (if Path.isAbsolute p then [p] else [r; p]) in
  resolved v = target /\
  (allowed v = true <-> target = root \/ strict_descendant root target) /\
  allowed (validatePath cwd accessSync (JS.str "/a/project-evil") (JS.str "/a/project"))
    = false.
Proof.
  intros Hr. simpl.
  destruct (resolve_clean cwd r p Hr) as (P & HP & Htarget).
  pose proof (resolve_absolute cwd r Hr) as Hroot.
  pose proof (canon_clean r) as HR.
  assert (Hres : Path.normalize
            (if Path.isAbsolute p then Path.resolve cwd [p]
             else Path.resolve cwd [Path.resolve cwd [r]; p]) = render P).
  { rewrite <- Htarget. destruct (Path.isAbsolute p) eqn:Hp.
    - rewrite Htarget. by apply normalize_render.
    - rewrite Hroot. rewrite (resolve_pair cwd (render (canon r)) p) by done.
      rewrite canon_render by done.
      rewrite <- (resolve_pair cwd r p) by done.
      rewrite Htarget. by apply normalize_render. }
  unfold validatePath. cbn [resolved allowed].
  rewrite Hres, Htarget, Hroot. split; [done|]. split.
  - rewrite isWithinProjectRoot_render by done.
    unfold strict_descendant. rewrite !components_render by done. split.
    + intros [k ->]. destruct k as [|name k].
      * left. by rewrite app_nil_r.
      * right. by exists name, k.
    + intros [Heq|(name & k & ->)].
      * apply render_inj in Heq; [|done..]. by subst.
      * by eexists.
  - vm_compute. reflexivity.
Qed.

Lemma validatePath_containment_witness :
  Path.isAbsolute (JS.str "/home/u/proj") = true /\
  let v := validatePath (JS.str "/srv") (fun _ => true)
             (JS.str "src/../lib/a.ts") (JS.str "/home/u/proj") in
  let root := Path.resolve (JS.str "/srv") [JS.str "/home/u/proj"] in
  let target := Path.resolve (JS.str "/srv")
                  (if Path.isAbsolute (JS.str "src/../lib/a.ts")
                   then [JS.str "src/../lib/a.ts"]
                   else [JS.str "/home/u/proj"; JS.str "src/../lib/a.ts"]) in
  resolved v = target /\
  (allowed v = true <-> target = root \/ strict_descendant root target) /\
  allowed (validatePath (JS.str "/srv") (fun _ => true)
             (JS.str "/a/project-evil") (JS.str "/a/project")) = false.
Proof.
  split; [reflexivity|].
  apply (validatePath_containment (JS.str "/srv") (fun _ => true)
           (JS.str "src/../lib/a.ts") (JS.str "/home/u/proj")).
  reflexivity.
Defined.

(** Scenario A of the specification: a traversal out of the root. *)
Example validatePath_traversal :
  let v := validatePath (JS.str "/srv") (fun _ => true)
             (JS.str "../../../etc/passwd") (JS.str "/home/u/proj") in
  resolved v = JS.str "/etc/passwd" /\ allowed v = false /\
  reason v = Some (JS.str "Path contains parent directory traversal (..)").
Proof. vm_compute. repeat split. Qed.

(** ** Response cache *)

Import ResponseCache.

Lemma getResponse_Some key now st entry :
  (getResponse key now st).1 = Some entry <->
  cache st !! key = Some entry /\ now <= expiresAt entry.
Proof.
  unfold getResponse. destruct (cache st !! key) as [e|] eqn:E.
  - case_decide as Hexp; simpl.
    + split; [done|]. intros [[= ->] Hle]. lia.
    + split; [intros [= ->]; split; [done|lia]|]. by intros [[= ->] _].
  - simpl. split; [done|]. by intros [? _].
Qed.

Lemma getChunk_Some key i now st ch :
  (getChunk key i now st).1 = Some ch <->
  exists entry, cache st !! key = Some entry /\ now <= expiresAt entry /\
    1 <= i <= Z.of_nat (length (chunks entry)) /\
    chunks entry !! Z.to_nat (i - 1) = Some ch.
Proof.
  unfold getChunk.
  destruct (getResponse key now st) as [[entry|] st'] eqn:E.
  - assert (Hr : (getResponse key now st).1 = Some entry) by (by rewrite E).
    apply getResponse_Some in Hr. destruct Hr as [Hl Hle].
    case_decide as Hidx; simpl.
    + split; [done|]. intros (e & He & _ & Hi & _).
      rewrite Hl in He. injection He as <-. lia.
    + split.
      * intros Hch. exists entry. repeat split; try done; lia.
      * intros (e & He & _ & _ & Hch). rewrite Hl in He. by injection He as <-.
  - simpl. split; [done|]. intros (e & He & Hle & _).
    assert (Hr : (getResponse key now st).1 = Some e) by (by apply getResponse_Some).
    by rewrite E in Hr.
Qed.

Lemma getChunk_in_range key i now st entry :
  cache st !! key = Some entry -> now <= expiresAt entry ->
  1 <= i <= Z.of_nat (length (chunks entry)) ->
  exists ch, (getChunk key i now st).1 = Some ch.
Proof.
  intros Hl Hle Hi.
  destruct (lookup_lt_is_Some_2 (chunks entry) (Z.to_nat (i - 1)) ltac:(lia)) as [ch Hch].
  exists ch. apply getChunk_Some. by exists entry.
Qed.

Lemma clearExpired_lookup key now st :
  cache (clearExpired now st).2 !! key = (getResponse key now st).1.
Proof.
  unfold clearExpired, getResponse. simpl.
  destruct (cache st !! key) as [e|] eqn:E.
  - case_decide as Hexp; simpl.
    + apply map_lookup_filter_None. right. intros x Hx. simpl.
      rewrite E in Hx. injection Hx as <-. tauto.
    + apply map_lookup_filter_Some. split; [done|]. simpl. done.
  - simpl. apply map_lookup_filter_None. by left.
Qed.

Lemma chunkResponse_indices s kb :
  0 < kb ->
  map index (chunkResponse s kb) = seqZ 1 (Z.of_nat (length (chunkResponse s kb))).
Proof.
  intros Hkb. unfold chunkResponse. simpl. case_decide as Hfit; [done|].
  rewrite map_index_setTotal, length_map.
  eapply cut_from_index. apply chunkLoop_total; lia.
Qed.

(** A bundle produced by the chunker and then stored hands back, for
    index [i], the chunk whose own [index] field is [i]. *)
Lemma getChunk_index_of_chunkResponse s kb ttl key t0 st i now ch :
  0 < kb ->
  (getChunk key i now (cacheResponse (chunkResponse s kb) ttl key t0 st).2).1 = Some ch ->
  index ch = i.
Proof.
  intros Hkb Hget. apply getChunk_Some in Hget.
  destruct Hget as (entry & Hl & _ & Hi & Hch).
  assert (Hentry : entry = mkEntry (chunkResponse s kb) t0 (t0 + ttl)).
  { unfold cacheResponse, scheduleCleanup in Hl. simpl in Hl.
    destruct (cleanupScheduled st); simpl in Hl;
      rewrite lookup_insert_eq in Hl; by injection Hl as <-. }
  subst entry. simpl in *.
  assert (Hidx : map index (chunkResponse s kb) !! Z.to_nat (i - 1) = Some (index ch)).
  { change (map index (chunkResponse s kb)) with (index <$> chunkResponse s kb).
    by rewrite list_lookup_fmap, Hch. }
  rewrite chunkResponse_indices in Hidx by done.
  apply lookup_seqZ in Hidx. lia.
Qed.

Lemma cacheResponse_lookup stored ttl key t0 st :
  cache (cacheResponse stored ttl key t0 st).2 !! key
    = Some (mkEntry stored t0 (t0 + ttl)).
Proof.
  unfold cacheResponse, scheduleCleanup. simpl.
  destruct (cleanupScheduled st); simpl; by rewrite lookup_insert_eq.
Qed.

(** C7: [getChunk(k, i)] at time [now] returns a chunk exactly when an
    entry is stored under [k], [now] is not past its [expiresAt], and [i]
    lies in [1, number of stored chunks]; the chunk returned is then the
    [i]-th stored one.  In every other case it returns null.  An entry
    stored by [cacheResponse] expires at its creation time plus the TTL
    (one hour by default), so its chunks can be fetched up to that moment
    and not after; a deleted key is absent; and the periodic sweep keeps
    exactly the entries that [getResponse] would still return. *)
Theorem getChunk_present_iff :
  (forall key i now st ch,
     (getChunk key i now st).1 = Some ch <->
     exists entry, cache st !! key = Some entry /\ now <= expiresAt entry /\
       1 <= i <= Z.of_nat (length (chunks entry)) /\
       chunks entry !! Z.to_nat (i - 1) = Some ch) /\
  (forall key i now st,
     (getChunk key i now st).1 = None <->
     cache st !! key = None \/
     exists entry, cache st !! key = Some entry /\
       (now > expiresAt entry \/ i < 1 \/ i > Z.of_nat (length (chunks entry)))) /\
  (forall stored ttl key t0 st,
     cache (cacheResponse stored ttl key t0 st).2 !! key
       = Some (mkEntry stored t0 (t0 + ttl))) /\
  (forall stored ttl key t0 st i now,
     is_Some (getChunk key i now (cacheResponse stored ttl key t0 st).2).1 <->
     now <= t0 + ttl /\ 1 <= i <= Z.of_nat (length stored)) /\
  CACHE_TTL_MS = 60 * 60 * 1000 /\
  (forall key st, cache (deleteCache key st).2 !! key = None) /\
  (forall key now st,
     cache (clearExpired now st).2 !! key = (getResponse key now st).1).
Proof.
  split; [exact getChunk_Some|]. split; [|split; [|split; [|split; [|split]]]].
  - intros key i now st. split.
    + intros Hnone. destruct (cache st !! key) as [entry|] eqn:E; [|by left].
      right. exists entry. split; [done|].
      destruct (decide (now > expiresAt entry)) as [|Hle]; [by left|].
      destruct (decide (i < 1)) as [|Hlo]; [by right; left|].
      destruct (decide (i > Z.of_nat (length (chunks entry)))) as [|Hhi]; [by right; right|].
      exfalso.
      destruct (getChunk_in_range key i now st entry E ltac:(lia) ltac:(lia)) as [ch Hch].
      by rewrite Hnone in Hch.
    + intros Hcase. destruct (getChunk key i now st).1 as [ch|] eqn:E; [|done].
      exfalso. apply getChunk_Some in E. destruct E as (entry & Hl & Hle & Hi & _).
      destruct Hcase as [Hn|(e & He & Hbad)]; [by rewrite Hl in Hn|].
      rewrite Hl in He. injection He as <-. lia.
  - apply cacheResponse_lookup.
  - intros stored ttl key t0 st i now.
    pose proof (cacheResponse_lookup stored ttl key t0 st) as Hl. split.
    + intros [ch Hch]. apply getChunk_Some in Hch.
      destruct Hch as (entry & He & Hle & Hi & _).
      rewrite Hl in He. injection He as <-. simpl in *. done.
    + intros [Hle Hi].
      destruct (getChunk_in_range key i now _ _ Hl ltac:(simpl; lia) ltac:(simpl; lia))
        as [ch Hch].
      by exists ch.
  - reflexivity.
  - intros key st. simpl. by rewrite lookup_delete_eq.
  - exact clearExpired_lookup.
Qed.

(** Scenario C of the specification. *)
Example getChunk_scenario :
  let k := JS.str "cache_k" in
  let st := (cacheResponse [mkChunk (JS.str "x") 1 1] CACHE_TTL_MS k 1000 emptyStore).2 in
  (getChunk k 1 2000 st).1 = Some (mkChunk (JS.str "x") 1 1) /\
  (getChunk k 2 2000 st).1 = None /\
  (getChunk k 1 (1000 + CACHE_TTL_MS) st).1 = Some (mkChunk (JS.str "x") 1 1) /\
  (getChunk k 1 (1000 + CACHE_TTL_MS + 1) st).1 = None.
Proof. vm_compute. repeat split. Qed.

(** ** Command executor *)

Import CommandExecutor Events.

Lemma executeCommand_snoc command hp events ev :
  executeCommand command hp (events ++ [ev])
  = CommandExecutor.handle command hp (executeCommand command hp events) ev.
Proof. unfold executeCommand. by rewrite fold_left_app. Qed.

Lemma executeCommand_app command hp events later :
  executeCommand command hp (events ++ later)
  = fold_left (CommandExecutor.handle command hp) later (executeCommand command hp events).
Proof. unfold executeCommand. by rewrite fold_left_app. Qed.

(** While the child neither fails to spawn nor closes, the promise stays
    pending, the child is left alone, and the buffers hold all output. *)
Lemma executeCommand_running command hp events :
  forallb isRunning events = true ->
  let st := executeCommand command hp events in
  stdout st = stdoutOf events /\ stderr st = stderrOf events /\
  isResolved st = false /\ settled st = None /\ killed st = false.
Proof.
  induction events as [|ev events IH] using rev_ind; intros Hrun; [done|].
  rewrite forallb_app in Hrun. apply andb_true_iff in Hrun as [Hrun Hev].
  simpl in Hev. apply andb_true_iff in Hev as [Hev _].
  destruct (IH Hrun) as (Hout & Herr & Hres & Hset & Hkill).
  rewrite executeCommand_snoc. unfold stdoutOf, stderrOf.
  rewrite !map_app, !concat_app. simpl. rewrite !app_nil_r.
  fold (stdoutOf events) (stderrOf events).
  destruct ev as [c|c|m|code|ms]; try done; simpl.
  - destruct (hp && _); simpl; rewrite Hout, Herr; by rewrite ?app_nil_r.
  - rewrite Hout, Herr. by rewrite ?app_nil_r.
  - rewrite Hout, Herr. by rewrite ?app_nil_r.
Qed.

(** Once the promise is settled no later event changes its outcome. *)
Lemma handle_settled command hp st ev :
  isResolved st = true ->
  let st' := CommandExecutor.handle command hp st ev in
  isResolved st' = true /\ settled st' = settled st /\ killed st' = killed st.
Proof.
  intros Hres. destruct ev as [c|c|m|code|ms]; simpl; rewrite ?Hres; try done.
  by destruct (hp && _).
Qed.

Lemma fold_handle_settled command hp st later :
  isResolved st = true ->
  let st' := fold_left (CommandExecutor.handle command hp) later st in
  isResolved st' = true /\ settled st' = settled st /\ killed st' = killed st.
Proof.
  revert st. induction later as [|ev later IH]; intros st Hres; [done|].
  simpl. destruct (handle_settled command hp st ev Hres) as (H1 & H2 & H3).
  destruct (IH _ H1) as (H4 & H5 & H6). simpl in *.
  rewrite H4, H5, H6, H2, H3. done.
Qed.

(** C8 (as amended): when the child closes with exit code 0 (and did not
    fail to spawn), [executeCommand] resolves with the accumulated standard
    output with leading and trailing white space removed; when it closes
    with any other code, or with none, it rejects with a message built from
    the code and the trimmed standard error; either outcome is final. *)
Theorem executeCommand_on_close (command : list JS.char) (hp : bool)
    (events : list ProcEvent) (code : option Z) (later : list ProcEvent) :
  forallb isRunning events = true ->
  let st := executeCommand command hp (events ++ Close code :: later) in
  (code = Some 0 ->
     settled st = Some (Resolved (JS.trim (stdoutOf events)))) /\
  (code <> Some 0 ->
     settled st = Some (Rejected
       (JS.str "Command failed with exit code " ++ showCode code ++ JS.str ": "
        ++ (if decide (JS.trim (stderrOf events) = []) then JS.str "Unknown error"
            else JS.trim (stderrOf events))))).
Proof.
  intros Hrun.
  destruct (executeCommand_running command hp events Hrun) as (Hout & Herr & Hres & Hset & _).
  change (events ++ Close code :: later) with (events ++ [Close code] ++ later).
  rewrite app_assoc, executeCommand_app, executeCommand_snoc.
  set (st0 := CommandExecutor.handle command hp (executeCommand command hp events) (Close code)).
  assert (Hst0 : isResolved st0 = true).
  { unfold st0. simpl. rewrite Hres. by case_decide. }
  destruct (fold_handle_settled command hp st0 later Hst0) as (_ & Hkeep & _).
  simpl in Hkeep. simpl. rewrite Hkeep. unfold st0. simpl. rewrite Hres.
  split; intros Hcode.
  - rewrite decide_True by done. simpl. by rewrite Hout.
  - rewrite decide_False by done. simpl. by rewrite Herr.
Qed.

Lemma executeCommand_on_close_witness :
  forallb isRunning [StdoutData (JS.str "  answer "); StderrData (JS.str "warn")] = true /\
  settled (executeCommand (JS.str "gemini") true
             ([StdoutData (JS.str "  answer "); StderrData (JS.str "warn")]
                ++ Close (Some 0) :: []))
    = Some (Resolved (JS.str "answer")).
Proof.
  split; [reflexivity|].
  apply (executeCommand_on_close (JS.str "gemini") true
           [StdoutData (JS.str "  answer "); StderrData (JS.str "warn")] (Some 0) []);
    reflexivity.
Defined.

(** C8, as the claim words it, fails: the child wrote five characters and
    a newline and exited with code 0, yet the promise resolves with the
    five characters only. *)
Lemma executeCommand_full_stdout_counterexample :
  let st := executeCommand (JS.str "gemini") false
              [StdoutData (JS.str "hello" ++ [JS.newline]); Close (Some 0)] in
  stdout st = JS.str "hello" ++ [JS.newline] /\
  settled st = Some (Resolved (JS.str "hello")) /\
  settled st <> Some (Resolved (stdout st)).
Proof. vm_compute. repeat split. discriminate. Qed.

(** ** Timeouts *)

Import SetupWizard.

Lemma runCommand_snoc command timeoutMs events ev :
  runCommand command timeoutMs (events ++ [ev])
  = SetupWizard.handle command timeoutMs (runCommand command timeoutMs events) ev.
Proof. unfold runCommand. by rewrite fold_left_app. Qed.

Lemma elapsedOf_snoc events ev :
  elapsedOf (events ++ [ev])
  = elapsedOf events + match ev with Elapsed ms => ms | _ => 0 end.
Proof.
  unfold elapsedOf. induction events as [|e events IH]; simpl; [lia|].
  rewrite IH. lia.
Qed.

Lemma elapsedOf_nonneg events :
  forallb forwardInTime events = true -> 0 <= elapsedOf events.
Proof.
  induction events as [|e events IH]; simpl; [done|].
  intros [He Hrest]%andb_true_iff. specialize (IH Hrest).
  unfold elapsedOf in *. simpl. destruct e; simpl in *; try lia.
  apply bool_decide_eq_true in He. lia.
Qed.

(** Before the deadline the wizard's runner is still waiting, with its
    timer armed. *)
Lemma runCommand_before_deadline command timeoutMs events :
  forallb isRunning events = true ->
  forallb forwardInTime events = true ->
  elapsedOf events < timeoutMs ->
  let st := runCommand command timeoutMs events in
  timerArmed st = true /\ timedOut st = false /\ clock st = elapsedOf events /\
  r_settled st = None /\ r_killed st = false.
Proof.
  induction events as [|ev events IH] using rev_ind; intros Hrun Hfwd Hlt; [done|].
  rewrite forallb_app in Hrun, Hfwd.
  apply andb_true_iff in Hrun as [Hrun Hev]. apply andb_true_iff in Hfwd as [Hfwd Hevf].
  simpl in Hev, Hevf. rewrite andb_true_r in Hev, Hevf.
  rewrite elapsedOf_snoc in Hlt |- *.
  pose proof (elapsedOf_nonneg events Hfwd) as Hnn.
  assert (Hlt' : elapsedOf events < timeoutMs).
  { destruct ev; simpl in *; try lia. apply bool_decide_eq_true in Hevf. lia. }
  destruct (IH Hrun Hfwd Hlt') as (Harm & Hto & Hclk & Hset & Hkill).
  rewrite runCommand_snoc.
  destruct ev as [c|c|m|code|ms]; try done; simpl.
  - repeat split; try done. lia.
  - repeat split; try done. lia.
  - rewrite Harm, Hclk. simpl. rewrite bool_decide_eq_false_2 by lia.
    simpl. done.
Qed.

(** C9 (as amended): [executeCommand] has no timeout, optional or
    otherwise: however much time passes, as long as the child neither
    fails to spawn nor closes, its promise stays pending and the child is
    not terminated.  The hard timeout lives in the setup wizard's
    [runCommand] only, where it is always armed: once the time passed
    reaches [timeoutMs] before the child has ended, the child is killed
    and the promise rejects with "Command timed out after <timeoutMs>ms",
    and the child's later close does not change that. *)
Theorem executeCommand_never_times_out (command : list JS.char) (hp : bool)
    (timeoutMs : Z) (events : list ProcEvent) (ms : Z) (code : option Z) :
  forallb isRunning events = true ->
  forallb forwardInTime events = true ->
  elapsedOf events < timeoutMs <= elapsedOf events + ms ->
  (let st := executeCommand command hp (events ++ [Elapsed ms]) in
   settled st = None /\ killed st = false) /\
  (let st := runCommand command timeoutMs (events ++ [Elapsed ms]) in
   r_killed st = true /\
   r_settled st = Some (Rejected (JS.str "Command timed out after "
                                    ++ showCode (Some timeoutMs) ++ JS.str "ms")) /\
   r_settled (SetupWizard.handle command timeoutMs st (Close code)) = r_settled st).
Proof.
  intros Hrun Hfwd Hdeadline. split.
  - assert (Hrun' : forallb isRunning (events ++ [Elapsed ms]) = true).
    { rewrite forallb_app, Hrun. done. }
    destruct (executeCommand_running command hp _ Hrun') as (_ & _ & _ & Hset & Hkill).
    done.
  - destruct (runCommand_before_deadline command timeoutMs events Hrun Hfwd ltac:(lia))
      as (Harm & Hto & Hclk & Hset & Hkill).
    rewrite runCommand_snoc. simpl. rewrite Harm, Hclk. simpl.
    rewrite bool_decide_eq_true_2 by lia. simpl. rewrite Hset. done.
Qed.

Lemma executeCommand_never_times_out_witness :
  forallb isRunning [StdoutData (JS.str "thinking"); Elapsed 59000] = true /\
  forallb forwardInTime [StdoutData (JS.str "thinking"); Elapsed 59000] = true /\
  (let st := executeCommand (JS.str "gemini") true
               ([StdoutData (JS.str "thinking"); Elapsed 59000] ++ [Elapsed 1000]) in
   settled st = None /\ killed st = false) /\
  (let st := runCommand (JS.str "gemini") DEFAULT_TIMEOUT_MS
               ([StdoutData (JS.str "thinking"); Elapsed 59000] ++ [Elapsed 1000]) in
   r_killed st = true /\
   r_settled st = Some (Rejected (JS.str "Command timed out after 60000ms")) /\
   r_settled (SetupWizard.handle (JS.str "gemini") DEFAULT_TIMEOUT_MS st (Close None))
     = r_settled st).
Proof.
  split; [reflexivity|]. split; [reflexivity|].
  apply (executeCommand_never_times_out (JS.str "gemini") true DEFAULT_TIMEOUT_MS
           [StdoutData (JS.str "thinking"); Elapsed 59000] 1000 None).
  - reflexivity.
  - reflexivity.
  - vm_compute. split; [reflexivity|discriminate].
Defined.

(** C9, as the claim words it, fails: an hour passes while the child is
    still writing, and [executeCommand] has neither rejected nor killed
    the child; it offers no parameter to ask for that. *)
Lemma executeCommand_timeout_counterexample :
  let st := executeCommand (JS.str "gemini") true
              [StdoutData (JS.str "thinking"); Elapsed 3600000;
               StdoutData (JS.str "still thinking")] in
  settled st = None /\ killed st = false.
Proof. vm_compute. split; reflexivity. Qed.

(** ** Tier fallback *)

Import Constants GeminiExecutor Fallback.

Section FallbackLoop.

Variable parse : list JS.char -> ParsedOutput.
Variable child : nat -> list (list JS.char) -> list ProcEvent.
Variable latency : nat -> Z.
Variable hp : bool.
Variable fp : list JS.char.
Variable tiers : list (option (list JS.char)).

Local Abbreviation run := (runAt child hp fp tiers).
Local Abbreviation args := (argsAt fp tiers).
Local Abbreviation attempt := (attemptTrace child hp fp tiers).

Local Abbreviation finalOutcome := (Fallback.finalOutcome parse child latency hp fp tiers).

Lemma tierLoop_spec rest :
  forall (i : nat) lastError trace,
    drop i tiers = rest -> rest <> [] ->
    exists (k : nat) outcome,
      tierLoop parse child latency hp fp tiers i rest lastError trace
        = (outcome, trace ++ concat (map attempt (seq i (k - i)))) /\
      (i < k <= length tiers)%nat /\
      (forall (j : nat) message, (i <= j < k)%nat ->
         settled (run j) = Some (Rejected message) ->
         ((S j < k)%nat <-> isQuotaError message = true /\ (S j < length tiers)%nat)) /\
      (forall j : nat, (i <= j)%nat -> (S j < k)%nat ->
         exists message, settled (run j) = Some (Rejected message)) /\
      finalOutcome (k - 1) outcome.
Proof.
  induction rest as [|model rest' IH]; intros i lastError trace Hdrop Hne; [done|].
  assert (Hlen : length tiers = (i + S (length rest'))%nat).
  { assert (Hl : length (drop i tiers) = S (length rest')) by (by rewrite Hdrop).
    rewrite length_drop in Hl. lia. }
  assert (Hmodel : tierAt tiers i = model).
  { unfold tierAt. rewrite <- (Nat.add_0_r i), <- lookup_drop, Hdrop. done. }
  assert (Hdrop' : drop (S i) tiers = rest').
  { replace (S i) with (i + 1)%nat by lia. by rewrite <- drop_drop, Hdrop. }
  cbn [tierLoop].
  set (trace1 := trace ++ attempt i).
  assert (Htrace :
    (if (0 <? i)%nat
     then if hp
          then trace ++ [Progress ((if (i =? 1)%nat then FALLBACK_RETRY else AUTO_SELECT_RETRY)
                                     ++ [JS.newline])]
          else trace
     else trace)
    ++ Spawn GEMINI (buildGeminiArgs fp model)
       :: map Progress (reported (executeCommand GEMINI hp (child i (buildGeminiArgs fp model))))
    = trace1).
  { unfold trace1, attemptTrace, runAt, argsAt, noteFor. rewrite Hmodel.
    destruct (0 <? i)%nat, hp; simpl; by rewrite <- ?app_assoc. }
  rewrite Htrace.
  assert (Hrun : executeCommand GEMINI hp (child i (buildGeminiArgs fp model)) = run i).
  { unfold runAt, argsAt. by rewrite Hmodel. }
  rewrite Hrun.
  assert (Hone : forall t, t ++ concat (map attempt (seq i (S i - i))) = t ++ attempt i).
  { intros t. replace (S i - i)%nat with 1%nat by lia. simpl. by rewrite app_nil_r. }
  destruct (settled (run i)) as [[output|message]|] eqn:Hset.
  - exists (S i), (Returned (mkResponse (text (parse output))
                            (default [] (parsedFilesAccessed (parse output)))
                            (default 0 (parsedTokensUsed (parse output)))
                            (default 0 (parsedToolCalls (parse output)))
                            (latency i) (default (JS.str "auto") model))).
    rewrite Hone. split; [done|]. split; [lia|]. split; [|split; [intros; lia|]].
    + intros j m Hj Hm. assert (j = i) by lia. subst j. congruence.
    + unfold Fallback.finalOutcome. replace (S i - 1)%nat with i by lia.
      by rewrite Hset, Hmodel.
  - destruct (isQuotaError message
              && bool_decide (Z.of_nat i < Z.of_nat (length tiers) - 1)) eqn:Hretry.
    + apply andb_true_iff in Hretry as [Hq Hlast].
      apply bool_decide_eq_true in Hlast.
      assert (Hne' : rest' <> []) by (intros ->; simpl in Hlen; lia).
      destruct (IH (S i) (Some message) trace1 Hdrop' Hne')
        as (k & outcome & Heq & Hk & Hsteps & Hfailed & Hfinal).
      exists k, outcome. split; [|split; [lia|split; [|split; [|done]]]].
      * rewrite Heq. unfold trace1. rewrite <- app_assoc. do 2 f_equal.
        replace (k - i)%nat with (S (k - S i)) by lia. done.
      * intros j m Hj Hm. destruct (decide (j = i)) as [->|Hji].
        -- rewrite Hset in Hm. injection Hm as <-. split; [intros _; split; [done|lia]|lia].
        -- apply Hsteps; [lia|done].
      * intros j Hj Hjk. destruct (decide (j = i)) as [->|Hji]; [by exists message|].
        apply Hfailed; lia.
    + exists (S i), (Thrown message).
      rewrite Hone. split; [done|]. split; [lia|]. split; [|split; [intros; lia|]].
      * intros j m Hj Hm. assert (j = i) by lia. subst j.
        rewrite Hset in Hm. injection Hm as <-.
        split; [lia|]. intros [Hq Hlast].
        rewrite Hq in Hretry. simpl in Hretry.
        apply bool_decide_eq_false in Hretry. lia.
      * unfold Fallback.finalOutcome. replace (S i - 1)%nat with i by lia. by rewrite Hset.
  - exists (S i), Pending.
    rewrite Hone. split; [done|]. split; [lia|]. split; [|split; [intros; lia|]].
    + intros j m Hj Hm. assert (j = i) by lia. subst j. congruence.
    + unfold Fallback.finalOutcome. replace (S i - 1)%nat with i by lia. by rewrite Hset.
Qed.

End FallbackLoop.

Lemma spawnsOf_app t1 t2 : spawnsOf (t1 ++ t2) = spawnsOf t1 ++ spawnsOf t2.
Proof. unfold spawnsOf. by rewrite flat_map_app. Qed.

Lemma spawnsOf_progress outputs : spawnsOf (map Progress outputs) = [].
Proof. induction outputs; simpl; done. Qed.

Lemma spawnsOf_attempt child hp fp tiers j :
  spawnsOf (attemptTrace child hp fp tiers j) = [argsAt fp tiers j].
Proof.
  unfold attemptTrace. rewrite spawnsOf_app.
  replace (spawnsOf (if (0 <? j)%nat && hp then [Progress (noteFor j)] else [])) with
    (@nil (list (list JS.char))) by (by destruct ((0 <? j)%nat && hp)).
  simpl. by rewrite (spawnsOf_progress (reported _)).
Qed.

Lemma attemptTrace_retry child fp tiers (j : nat) rest :
  (0 < j)%nat ->
  attemptTrace child true fp tiers j ++ rest
  = Progress (noteFor j) :: Spawn GEMINI (argsAt fp tiers j)
      :: map Progress (reported (runAt child true fp tiers j)) ++ rest.
Proof.
  intros Hj. unfold attemptTrace.
  replace (0 <? j)%nat with true by (symmetry; apply Nat.ltb_lt; lia).
  done.
Qed.

Lemma spawnsOf_attempts child hp fp tiers (i n : nat) :
  spawnsOf (concat (map (attemptTrace child hp fp tiers) (seq i n)))
  = map (argsAt fp tiers) (seq i n).
Proof.
  revert i. induction n as [|n IH]; intros i; simpl; [done|].
  by rewrite spawnsOf_app, spawnsOf_attempt, IH.
Qed.

Lemma argsAt_seq fp tiers (k : nat) :
  (k <= length tiers)%nat ->
  map (argsAt fp tiers) (seq 0 k) = map (buildGeminiArgs fp) (take k tiers).
Proof.
  intros Hk. apply list_eq. intros j.
  change (map (argsAt fp tiers) (seq 0 k)) with (argsAt fp tiers <$> seq 0 k).
  change (map (buildGeminiArgs fp) (take k tiers)) with (buildGeminiArgs fp <$> take k tiers).
  rewrite !list_lookup_fmap.
  destruct (decide (j < k)%nat) as [Hj|Hj].
  - rewrite lookup_seq_lt by done. rewrite lookup_take_lt by done. simpl.
    destruct (lookup_lt_is_Some_2 tiers j ltac:(lia)) as [m Hm].
    unfold argsAt, tierAt. by rewrite Hm.
  - rewrite lookup_seq_ge by lia. rewrite lookup_take_ge by lia. done.
Qed.

(** The shape of every run of [executeGeminiCLI]: [k] tiers are attempted,
    each attempt contributing its note, its spawn and its streamed output
    to the trace, and the last attempt decides the outcome. *)
Lemma executeGeminiCLI_trace parse child latency hp prompt tool :
  let tiers := getModelTiers tool in
  let fp := finalPromptOf prompt in
  exists (k : nat) outcome,
    executeGeminiCLI parse child latency hp prompt tool
      = (outcome, concat (map (attemptTrace child hp fp tiers) (seq 0 k))) /\
    (1 <= k <= length tiers)%nat /\
    (forall (j : nat) message, (j < k)%nat ->
       settled (runAt child hp fp tiers j) = Some (Rejected message) ->
       ((S j < k)%nat <-> isQuotaError message = true /\ (S j < length tiers)%nat)) /\
    (forall j : nat, (S j < k)%nat ->
       exists message, settled (runAt child hp fp tiers j) = Some (Rejected message)) /\
    finalOutcome parse child latency hp fp tiers (k - 1) outcome.
Proof.
  intros tiers fp.
  destruct (tierLoop_spec parse child latency hp fp tiers tiers 0 None [] eq_refl ltac:(done))
    as (k & outcome & Heq & Hk & Hsteps & Hfailed & Hfinal).
  exists k, outcome. rewrite Nat.sub_0_r in Heq. split; [exact Heq|].
  split; [lia|]. split; [|split; [|done]].
  - intros j m Hj. apply Hsteps. lia.
  - intros j Hj. apply Hfailed; lia.
Qed.

(** C5: within one call the tiers are attempted in plan order with none
    skipped or repeated; an attempt that fails is followed by an attempt
    of the next tier exactly when its error message matches the quota
    pattern and it was not the last tier; any other failure ends the call
    at once with that very error; and, when the caller listens for
    progress, each retry is preceded by its progress note. *)
Theorem executeGeminiCLI_fallback
    (parse : list JS.char -> ParsedOutput)
    (child : nat -> list (list JS.char) -> list ProcEvent)
    (latency : nat -> Z) (hp : bool) (prompt : list JS.char) (tool : ToolName) :
  let tiers := getModelTiers tool in
  let fp := finalPromptOf prompt in
  let result := executeGeminiCLI parse child latency hp prompt tool in
  exists k : nat,
    (1 <= k <= length tiers)%nat /\
    spawnsOf result.2 = map (buildGeminiArgs fp) (take k tiers) /\
    (forall (j : nat) message, (j < k)%nat ->
       settled (runAt child hp fp tiers j) = Some (Rejected message) ->
       ((S j < k)%nat <-> isQuotaError message = true /\ (S j < length tiers)%nat) /\
       (~ (isQuotaError message = true /\ (S j < length tiers)%nat) ->
          result.1 = Thrown message /\ k = S j)) /\
    (hp = true -> forall j : nat, (0 < j < k)%nat ->
       exists before after,
         result.2 = before ++ Progress (noteFor j) :: Spawn GEMINI (argsAt fp tiers j) :: after /\
         spawnsOf before = map (buildGeminiArgs fp) (take j tiers)).
Proof.
  intros tiers fp result.
  destruct (executeGeminiCLI_trace parse child latency hp prompt tool)
    as (k & outcome & Heq & Hk & Hsteps & _ & Hfinal).
  fold tiers fp in Heq, Hk, Hsteps, Hfinal. subst result. rewrite Heq. simpl.
  exists k. split; [done|]. split; [|split].
  - rewrite spawnsOf_attempts. apply argsAt_seq. lia.
  - intros j m Hj Hm. split; [by apply Hsteps|].
    intros Hno. assert (Hk' : k = S j).
    { destruct (decide (S j < k)%nat) as [Hlt|]; [|lia].
      exfalso. apply Hno. by apply (Hsteps j m Hj Hm). }
    split; [|done]. unfold finalOutcome in Hfinal.
    replace (k - 1)%nat with j in Hfinal by lia. by rewrite Hm in Hfinal.
  - intros -> j Hj.
    exists (concat (map (attemptTrace child true fp tiers) (seq 0 j))),
      (map Progress (reported (runAt child true fp tiers j))
         ++ concat (map (attemptTrace child true fp tiers) (seq (S j) (k - S j)))).
    split.
    + replace k with (j + S (k - S j))%nat at 1 by lia.
      rewrite seq_app, map_app, concat_app. f_equal.
      cbn [seq map concat Nat.add].
      by rewrite attemptTrace_retry by lia.
    + rewrite spawnsOf_attempts. apply argsAt_seq. lia.
Qed.

Lemma getModelTiers_length tool : length (getModelTiers tool) = 3%nat.
Proof. done. Qed.

(** When every tier fails with a quota-pattern error, every tier of the
    plan is attempted, in order and once, and the call ends with the last
    tier's error. *)
Lemma executeGeminiCLI_all_quota parse child latency hp prompt tool :
  let tiers := getModelTiers tool in
  let fp := finalPromptOf prompt in
  let result := executeGeminiCLI parse child latency hp prompt tool in
  (forall j : nat, (j < length tiers)%nat ->
     exists message, settled (runAt child hp fp tiers j) = Some (Rejected message) /\
                     isQuotaError message = true) ->
  spawnsOf result.2 = map (buildGeminiArgs fp) tiers /\
  exists message, result.1 = Thrown message /\ isQuotaError message = true /\
    settled (runAt child hp fp tiers (length tiers - 1)) = Some (Rejected message).
Proof.
  intros tiers fp result Hall.
  destruct (executeGeminiCLI_trace parse child latency hp prompt tool)
    as (k & outcome & Heq & Hk & Hsteps & _ & Hfinal).
  fold tiers fp in Heq, Hk, Hsteps, Hfinal.
  assert (Hkn : k = length tiers).
  { destruct (decide (k = length tiers)) as [|Hne]; [done|]. exfalso.
    destruct (Hall (k - 1)%nat ltac:(lia)) as (m & Hm & Hq).
    assert (Hlt : (S (k - 1) < k)%nat) by (apply (Hsteps (k - 1)%nat m); [lia|done|split; [done|lia]]).
    lia. }
  subst result. rewrite Heq. simpl. split.
  - rewrite spawnsOf_attempts, argsAt_seq by lia. by rewrite Hkn, firstn_all.
  - assert (Hlen : length tiers = 3%nat) by done.
    destruct (Hall (length tiers - 1)%nat ltac:(lia)) as (m & Hm & Hq).
    exists m. unfold finalOutcome in Hfinal. rewrite Hkn, Hm in Hfinal. done.
Qed.

(** When tier 1 fails with a quota-pattern error and tier 2 succeeds, the
    result names tier 2's model. *)
Lemma executeGeminiCLI_second_tier parse child latency hp prompt tool message output :
  let tiers := getModelTiers tool in
  let fp := finalPromptOf prompt in
  settled (runAt child hp fp tiers 0) = Some (Rejected message) ->
  isQuotaError message = true ->
  settled (runAt child hp fp tiers 1) = Some (Resolved output) ->
  exists response,
    (executeGeminiCLI parse child latency hp prompt tool).1 = Returned response /\
    model response = tier2 (MODEL_TIERS tool).
Proof.
  intros tiers fp H0 Hq H1.
  destruct (executeGeminiCLI_trace parse child latency hp prompt tool)
    as (k & outcome & Heq & Hk & Hsteps & Hfailed & Hfinal).
  fold tiers fp in Heq, Hk, Hsteps, Hfailed, Hfinal.
  assert (Hk1 : (1 < k)%nat).
  { assert (Hlen : length tiers = 3%nat) by done.
    apply (Hsteps 0%nat message); [lia|done|]. split; [done|lia]. }
  assert (Hk2 : k = 2%nat).
  { destruct (decide (k = 2%nat)) as [|Hne]; [done|]. exfalso.
    destruct (Hfailed 1%nat ltac:(lia)) as (m & Hm). congruence. }
  rewrite Heq. simpl. unfold finalOutcome in Hfinal. rewrite Hk2 in Hfinal.
  simpl in Hfinal. rewrite H1 in Hfinal. eexists. split; [exact Hfinal|]. done.
Qed.

(** C3: the engine of the specification's tier-monotonicity property,
    which fails every tier with RESOURCE_EXHAUSTED.  All three tiers of
    the plan are attempted in order, once each, and the call fails with a
    quota-pattern error; but the tool's [catch] block tests for the
    lower-case substring "quota" only and reports the failure as
    GEMINI_CLI_ERROR, not QUOTA_EXCEEDED.  With the engine that answers on
    tier 2, the result's model is tier 2's identifier. *)
Theorem executeGeminiCLI_exhausted_misclassified :
  let prompt := JS.str "Summarise @src/index.ts" in
  let fp := finalPromptOf prompt in
  let failing := executeGeminiCLI Scenarios.rawParse Scenarios.alwaysExhausted
                   Scenarios.noLatency true prompt deep_research in
  let message := JS.str "Command failed with exit code 1: RESOURCE_EXHAUSTED" in
  spawnsOf failing.2
    = [buildGeminiArgs fp (Some PRO_DEFAULT); buildGeminiArgs fp (Some PRO_FALLBACK);
       buildGeminiArgs fp None] /\
  failing.1 = Thrown message /\
  isQuotaError message = true /\
  (DeepResearchTool.executeTry Scenarios.rawParse Scenarios.alwaysExhausted
     Scenarios.noLatency true prompt (JS.str "cache_k") 0 ResponseCache.emptyStore).1
    = DeepResearchTool.Resolves
        (DeepResearchTool.ToolError GEMINI_CLI_ERROR message
           (JS.str "Check server logs for details")) /\
  exists response,
    (executeGeminiCLI Scenarios.rawParse Scenarios.secondTierAnswers
       Scenarios.noLatency true prompt deep_research).1 = Returned response /\
    model response = PRO_FALLBACK.
Proof.
  intros prompt fp failing message.
  split; [vm_compute; reflexivity|].
  split; [vm_compute; reflexivity|].
  split; [vm_compute; reflexivity|].
  split; [vm_compute; reflexivity|].
  eexists. split; [vm_compute; reflexivity|reflexivity].
Qed.

(** ** Error classification *)

Import DeepResearchTool.

Lemma classify_codes message :
  (classify message).1 = GEMINI_CLI_NOT_FOUND \/ (classify message).1 = AUTH_MISSING \/
  (classify message).1 = QUOTA_EXCEEDED \/ (classify message).1 = GEMINI_CLI_ERROR.
Proof.
  unfold classify.
  destruct (_ || _); [by left|].
  destruct (_ || _); [by right; left|].
  destruct (JS.includes _ _); [by right; right; left|by right; right; right].
Qed.

(** An error thrown by [executeGeminiCLI] is the rejection of one of the
    children it spawned, passed on as it is. *)
Lemma executeGeminiCLI_thrown_is_raw parse child latency hp prompt tool message :
  (executeGeminiCLI parse child latency hp prompt tool).1 = Thrown message ->
  exists j : nat, (j < length (getModelTiers tool))%nat /\
    settled (runAt child hp (finalPromptOf prompt) (getModelTiers tool) j)
      = Some (Rejected message).
Proof.
  intros Hthrown.
  destruct (executeGeminiCLI_trace parse child latency hp prompt tool)
    as (k & outcome & Heq & Hk & _ & _ & Hfinal).
  rewrite Heq in Hthrown. simpl in Hthrown. subst outcome.
  exists (k - 1)%nat. split; [lia|].
  unfold finalOutcome in Hfinal.
  destruct (settled _) as [[output|m]|]; [done| |done].
  by injection Hfinal as <-.
Qed.

(** C6 (as amended): whenever the orchestrated call fails,
    [executeGeminiCLI] rejects with the error of the child process that
    failed, unchanged and unclassified; the tool's [execute] catches it and
    resolves with an error object that carries that message under exactly
    one of the four codes GEMINI_CLI_NOT_FOUND, AUTH_MISSING,
    QUOTA_EXCEEDED and GEMINI_CLI_ERROR (pairwise distinct), chosen from
    the text of the message. *)
Theorem executeTry_failure_classified
    (parse : list JS.char -> ParsedOutput)
    (child : nat -> list (list JS.char) -> list ProcEvent)
    (latency : nat -> Z) (hp : bool) (fullPrompt freshKey : list JS.char) (now : Z)
    (st : ResponseCache.Store) (message : list JS.char) :
  (executeGeminiCLI parse child latency hp fullPrompt deep_research).1 = Thrown message ->
  (exists j : nat, (j < length (getModelTiers deep_research))%nat /\
     settled (runAt child hp (finalPromptOf fullPrompt) (getModelTiers deep_research) j)
       = Some (Rejected message)) /\
  exists code nextStep,
    executeTry parse child latency hp fullPrompt freshKey now st
      = (Resolves (ToolError code message nextStep), st) /\
    (code, nextStep) = classify message /\
    (code = GEMINI_CLI_NOT_FOUND \/ code = AUTH_MISSING \/
     code = QUOTA_EXCEEDED \/ code = GEMINI_CLI_ERROR) /\
    NoDup [GEMINI_CLI_NOT_FOUND; AUTH_MISSING; QUOTA_EXCEEDED; GEMINI_CLI_ERROR].
Proof.
  intros Hthrown. split; [by eapply executeGeminiCLI_thrown_is_raw|].
  unfold executeTry. rewrite Hthrown.
  pose proof (classify_codes message) as Hcodes.
  destruct (classify message) as [code nextStep] eqn:Hc. simpl in Hcodes.
  exists code, nextStep. split; [done|]. split; [done|]. split; [done|].
  rewrite !NoDup_cons, !elem_of_cons, !elem_of_nil.
  repeat split; try (intros H; intuition discriminate). apply NoDup_nil_2.
Qed.

Lemma executeTry_failure_classified_witness :
  (executeGeminiCLI Scenarios.rawParse Scenarios.notInstalled
     Scenarios.noLatency false (JS.str "Explain the cache") deep_research).1
    = Thrown (JS.str "Failed to spawn command 'gemini': spawn gemini ENOENT") /\
  exists code nextStep,
    executeTry Scenarios.rawParse Scenarios.notInstalled
      Scenarios.noLatency false (JS.str "Explain the cache") (JS.str "cache_k") 0
      ResponseCache.emptyStore
      = (Resolves
           (ToolError code
              (JS.str "Failed to spawn command 'gemini': spawn gemini ENOENT")
              nextStep), ResponseCache.emptyStore) /\
    (code, nextStep)
      = classify (JS.str "Failed to spawn command 'gemini': spawn gemini ENOENT") /\
    (code = GEMINI_CLI_NOT_FOUND \/ code = AUTH_MISSING \/
     code = QUOTA_EXCEEDED \/ code = GEMINI_CLI_ERROR) /\
    NoDup [GEMINI_CLI_NOT_FOUND; AUTH_MISSING; QUOTA_EXCEEDED; GEMINI_CLI_ERROR].
Proof.
  split; [vm_compute; reflexivity|].
  apply (executeTry_failure_classified Scenarios.rawParse Scenarios.notInstalled
           Scenarios.noLatency false (JS.str "Explain the cache") (JS.str "cache_k") 0
           ResponseCache.emptyStore).
  vm_compute. reflexivity.
Defined.

(** C6, as the claim words it, fails: the engine is not installed;
    [executeGeminiCLI] rejects with the process runner's
    error as it stands, which carries a message and no classification, and
    the tool's [execute], which does classify, resolves instead of
    rejecting. *)
Lemma executeGeminiCLI_raw_error_counterexample :
  let prompt := JS.str "Explain the cache" in
  let message := JS.str "Failed to spawn command 'gemini': spawn gemini ENOENT" in
  settled (runAt Scenarios.notInstalled false (finalPromptOf prompt)
             (getModelTiers deep_research) 0) = Some (Rejected message) /\
  (executeGeminiCLI Scenarios.rawParse Scenarios.notInstalled Scenarios.noLatency false
     prompt deep_research).1 = Thrown message /\
  (executeTry Scenarios.rawParse Scenarios.notInstalled Scenarios.noLatency false
     prompt (JS.str "cache_k") 0 ResponseCache.emptyStore).1
    = Resolves (ToolError GEMINI_CLI_NOT_FOUND message
                  (JS.str "Install Gemini CLI: npm install -g @google/gemini-cli, or run setup wizard: npx better-gemini-mcp init")) /\
  (executeTry Scenarios.rawParse Scenarios.notInstalled Scenarios.noLatency false
     prompt (JS.str "cache_k") 0 ResponseCache.emptyStore).1 <> Rejects message.
Proof.
  intros prompt message.
  split; [vm_compute; reflexivity|].
  split; [vm_compute; reflexivity|].
  split; [vm_compute; reflexivity|].
  vm_compute. discriminate.
Qed.

(** ** Invocation arguments *)

Lemma SYSTEM_PROMPT_head : exists rest, SYSTEM_PROMPT = JS.newline :: rest.
Proof. eexists. vm_compute. reflexivity. Qed.

Lemma finalPromptOf_prefix prompt :
  JS.startsWith (finalPromptOf prompt) SYSTEM_PROMPT = true.
Proof. apply startsWith_spec. unfold finalPromptOf. by eexists. Qed.

Lemma finalPromptOf_not_flag prompt : finalPromptOf prompt <> JS.str "--yolo".
Proof.
  unfold finalPromptOf. destruct SYSTEM_PROMPT_head as [rest ->]. discriminate.
Qed.

Lemma buildGeminiArgs_eq prompt model :
  buildGeminiArgs prompt model
  = match model with Some m => [FLAG_MODEL; m] | None => [] end
    ++ [FLAG_YES; FLAG_OUTPUT_FORMAT; FORMAT_JSON; FLAG_PROMPT; prompt].
Proof. unfold buildGeminiArgs. by rewrite <- !app_assoc. Qed.

Lemma buildGeminiArgs_no_yolo prompt tool model :
  model ∈ getModelTiers tool ->
  JS.str "--yolo" ∉ buildGeminiArgs (finalPromptOf prompt) model.
Proof.
  intros Hmodel Hin. rewrite buildGeminiArgs_eq in Hin.
  apply elem_of_app in Hin as [Hin|Hin].
  - destruct tool; unfold getModelTiers in Hmodel; simpl in Hmodel;
      repeat (apply elem_of_cons in Hmodel as [->|Hmodel]);
      try (by apply elem_of_nil in Hmodel);
      repeat (apply elem_of_cons in Hin as [Hin|Hin]; [discriminate Hin|]);
      by apply elem_of_nil in Hin.
  - repeat (apply elem_of_cons in Hin as [Hin|Hin];
            [first [discriminate Hin | by apply (finalPromptOf_not_flag prompt)]|]).
    by apply elem_of_nil in Hin.
Qed.

Lemma buildGeminiArgs_yes prompt model : FLAG_YES ∈ buildGeminiArgs prompt model.
Proof.
  rewrite buildGeminiArgs_eq. apply elem_of_app. right. by left.
Qed.

Lemma grantsWriteOrExecute_yes args :
  FLAG_YES ∈ args -> ReadOnlyPolicy.grantsWriteOrExecute args = true.
Proof.
  intros Hin. unfold ReadOnlyPolicy.grantsWriteOrExecute, ReadOnlyPolicy.writeEnablingFlags.
  simpl. rewrite (bool_decide_eq_true_2 (JS.str "-y" ∈ args)) by exact Hin.
  by rewrite orb_true_r.
Qed.

(** C4: for every prompt, tool and run of the engine, each child is
    spawned with the fixed system prompt prepended to the user's prompt,
    and the literal flag [--yolo] is never among its arguments; but every
    argument vector carries [-y], which the project's own requirements
    list next to [--yolo] as the flag that takes the engine out of
    read-only mode. *)
Theorem executeGeminiCLI_passes_yes_flag
    (parse : list JS.char -> ParsedOutput)
    (child : nat -> list (list JS.char) -> list ProcEvent)
    (latency : nat -> Z) (hp : bool) (prompt : list JS.char) (tool : ToolName) :
  let spawns := spawnsOf (executeGeminiCLI parse child latency hp prompt tool).2 in
  spawns <> [] /\
  Forall (fun args =>
            last args = Some (finalPromptOf prompt) /\
            (JS.str "--yolo" ∉ args) /\
            (FLAG_YES ∈ args) /\
            ReadOnlyPolicy.grantsWriteOrExecute args = true) spawns /\
  JS.startsWith (finalPromptOf prompt) SYSTEM_PROMPT = true.
Proof.
  cbv zeta.
  destruct (executeGeminiCLI_trace parse child latency hp prompt tool)
    as (k & outcome & Heq & Hk & _).
  rewrite Heq. cbn [snd]. rewrite spawnsOf_attempts, argsAt_seq by lia.
  split; [|split; [|apply finalPromptOf_prefix]].
  - destruct k as [|k]; [lia|]. done.
  - apply Forall_forall. intros args Hin.
    change (map (buildGeminiArgs (finalPromptOf prompt)) (take k (getModelTiers tool)))
      with (buildGeminiArgs (finalPromptOf prompt) <$> take k (getModelTiers tool)) in Hin.
    apply list_elem_of_fmap in Hin as (model & -> & Hmodel).
    assert (Hm : model ∈ getModelTiers tool).
    { by apply (list.subseteq_take k (getModelTiers tool)). }
    split; [|split; [exact (buildGeminiArgs_no_yolo prompt tool model Hm)|split]].
    + rewrite buildGeminiArgs_eq. by destruct model.
    + apply buildGeminiArgs_yes.
    + apply grantsWriteOrExecute_yes, buildGeminiArgs_yes.
Qed.

(** * Further properties *)

(** ** Prompt references *)

Import PromptPaths.

Lemma at_sign_not_path : isPathChar at_sign = false.
Proof. reflexivity. Qed.

Lemma pathRun_Forall s : Forall (fun c => isPathChar c = true) (pathRun s).
Proof.
  induction s as [|c s IH]; simpl; [done|].
  destruct (isPathChar c) eqn:E; [by constructor|done].
Qed.

Lemma pathRun_app_at pre rest : pathRun (pre ++ at_sign :: rest) = pathRun pre.
Proof.
  induction pre as [|c pre IH].
  - reflexivity.
  - cbn [app pathRun]. destruct (isPathChar c); [by rewrite IH|done].
Qed.

Lemma pathRun_all ref post :
  Forall (fun c => isPathChar c = true) ref ->
  match post with [] => True | c :: _ => isPathChar c = false end ->
  pathRun (ref ++ post) = ref.
Proof.
  intros Href Hpost. induction Href as [|c ref Hc _ IH]; simpl.
  - destruct post as [|c post]; [done|]. simpl. by rewrite Hpost.
  - by rewrite Hc, IH.
Qed.

Lemma matchesFrom_skip_all (k : nat) s post :
  (k = length s)%nat -> matchesFrom k (s ++ post) = matchesFrom 0 post.
Proof.
  revert k. induction s as [|c s IH]; intros k Hk; simpl in *; [by subst|].
  destruct k as [|k]; [lia|]. apply IH. lia.
Qed.

Lemma matchesFrom_wellformed (skip : nat) s :
  Forall (fun ref => ref <> [] /\ Forall (fun c => isPathChar c = true) ref)
         (matchesFrom skip s).
Proof.
  revert skip. induction s as [|c s IH]; intros skip; simpl; [done|].
  destruct skip as [|k]; [|apply IH].
  case_decide; [|apply IH].
  destruct (pathRun s) as [|d run] eqn:E; [apply IH|].
  constructor; [|apply IH]. split; [done|]. rewrite <- E. apply pathRun_Forall.
Qed.

Lemma matchesFrom_no_at (skip : nat) s : at_sign ∉ s -> matchesFrom skip s = [].
Proof.
  revert skip. induction s as [|c s IH]; intros skip Hno; simpl; [done|].
  assert (Hs : at_sign ∉ s) by (intros H; apply Hno; by right).
  destruct skip as [|k]; [|by apply IH].
  case_decide as Hc; [|by apply IH].
  exfalso. apply Hno. subst. by left.
Qed.

Lemma matchesFrom_app_at (skip : nat) pre rest :
  (skip <= length (pathRun pre))%nat ->
  matchesFrom skip (pre ++ at_sign :: rest)
  = matchesFrom skip pre ++ matchesFrom 0 (at_sign :: rest).
Proof.
  set (tail := matchesFrom 0 (at_sign :: rest)).
  revert skip. induction pre as [|c pre IH]; intros skip Hskip.
  - simpl in Hskip. by replace skip with 0%nat by lia.
  - change ((c :: pre) ++ at_sign :: rest) with (c :: (pre ++ at_sign :: rest)).
    cbn [matchesFrom]. destruct skip as [|k].
    + case_decide as Hc.
      * rewrite pathRun_app_at. destruct (pathRun pre) as [|d run] eqn:E.
        -- apply IH. lia.
        -- rewrite IH by (simpl; lia). done.
      * apply IH. lia.
    + apply IH. simpl in Hskip. destruct (isPathChar c); simpl in Hskip; lia.
Qed.

(** X1: every reference [extractAtPathReferences] returns is non-empty and
    consists of path characters only (letters, digits, [_], [.], [/],
    [-]); a prompt without [@] has no references. *)
Theorem extractAtPathReferences_wellformed (prompt : list JS.char) :
  Forall (fun ref => ref <> [] /\ Forall (fun c => isPathChar c = true) ref)
         (extractAtPathReferences prompt) /\
  (at_sign ∉ prompt -> extractAtPathReferences prompt = []).
Proof.
  split; [apply matchesFrom_wellformed|apply matchesFrom_no_at].
Qed.

(** X2: a reference written as [@ref], with [ref] a non-empty run of path
    characters that ends the prompt or is followed by another character,
    is always found, whatever precedes it: the references of the prompt
    are those of the text before it, then [ref], then those of the text
    after it. *)
Theorem extractAtPathReferences_finds (pre ref post : list JS.char) :
  ref <> [] ->
  Forall (fun c => isPathChar c = true) ref ->
  match post with [] => True | c :: _ => isPathChar c = false end ->
  extractAtPathReferences (pre ++ at_sign :: ref ++ post)
  = extractAtPathReferences pre ++ ref :: extractAtPathReferences post.
Proof.
  intros Hne Href Hpost. unfold extractAtPathReferences.
  rewrite matchesFrom_app_at by lia. f_equal.
  cbn [matchesFrom]. rewrite decide_True by done.
  rewrite (pathRun_all ref post Href Hpost).
  destruct ref as [|c ref]; [done|]. f_equal.
  by apply matchesFrom_skip_all.
Qed.

Lemma extractAtPathReferences_finds_witness :
  JS.str "src/a.ts" <> [] /\
  extractAtPathReferences (JS.str "Explain " ++ at_sign :: JS.str "src/a.ts" ++ JS.str " now")
  = extractAtPathReferences (JS.str "Explain ")
      ++ JS.str "src/a.ts" :: extractAtPathReferences (JS.str " now").
Proof.
  split; [discriminate|].
  apply (extractAtPathReferences_finds (JS.str "Explain ") (JS.str "src/a.ts") (JS.str " now")).
  - discriminate.
  - repeat constructor.
  - reflexivity.
Defined.

(** ** Path verdicts *)

(** The components of the path that [validatePath] resolves. *)
Lemma validatePath_shape cwd accessSync p r :
  Path.isAbsolute r = true ->
  exists P, Forall clean_seg P /\
    P = (if Path.isAbsolute p then canon p
         else Path.normalizeSegments false (Path.splitSep p) (rev (canon r))) /\
    resolved (validatePath cwd accessSync p r) = render P /\
    Path.resolve cwd [r] = render (canon r) /\
    allowed (validatePath cwd accessSync p r)
      = isWithinProjectRoot (render P) (render (canon r)).
Proof.
  intros Hr.
  pose proof (resolve_absolute cwd r Hr) as Hroot.
  pose proof (canon_clean r) as HR.
  eexists. split; [|split; [reflexivity|]].
  - destruct (Path.isAbsolute p); [apply canon_clean|].
    apply normalizeSegments_Forall_clean; [apply splitSep_sep_free|].
    by apply Forall_rev.
  - assert (Hres : Path.normalize
              (if Path.isAbsolute p then Path.resolve cwd [p]
               else Path.resolve cwd [Path.resolve cwd [r]; p])
            = render (if Path.isAbsolute p then canon p
                      else Path.normalizeSegments false (Path.splitSep p) (rev (canon r)))).
    { destruct (Path.isAbsolute p) eqn:Hp.
      - rewrite resolve_absolute by done. apply normalize_render, canon_clean.
      - rewrite Hroot. rewrite (resolve_pair cwd (render (canon r)) p) by done.
        rewrite canon_render by done. apply normalize_render.
        apply normalizeSegments_Forall_clean; [apply splitSep_sep_free|].
        by apply Forall_rev. }
    unfold validatePath. cbn [resolved allowed]. rewrite Hres, Hroot. done.
Qed.

Lemma normalizeSegments_no_dotdot segs res :
  Path.dotdot ∉ segs ->
  exists k, Path.normalizeSegments false segs res = rev res ++ k.
Proof.
  revert res. induction segs as [|seg segs IH]; intros res Hno; simpl.
  - exists []. by rewrite app_nil_r.
  - assert (Hsegs : Path.dotdot ∉ segs) by (intros H; apply Hno; by right).
    case_decide; [by apply IH|].
    case_decide as Hdd; [exfalso; apply Hno; subst; by left|].
    destruct (IH (seg :: res) Hsegs) as [k Hk]. exists (seg :: k).
    rewrite Hk. simpl. by rewrite <- app_assoc.
Qed.

(** X3: under an absolute root, a relative path none of whose components
    is [..] is always allowed. *)
Theorem validatePath_relative_allowed (cwd : list JS.char) (accessSync : list JS.char -> bool)
    (p r : list JS.char) :
  Path.isAbsolute r = true ->
  Path.isAbsolute p = false ->
  Path.dotdot ∉ Path.splitSep p ->
  allowed (validatePath cwd accessSync p r) = true.
Proof.
  intros Hr Hp Hno.
  destruct (validatePath_shape cwd accessSync p r Hr) as (P & HP & HPeq & _ & _ & Hallowed).
  rewrite Hallowed. apply isWithinProjectRoot_render; [apply canon_clean|done|].
  rewrite Hp in HPeq.
  destruct (normalizeSegments_no_dotdot (Path.splitSep p) (rev (canon r)) Hno) as [k Hk].
  rewrite Hk, rev_involutive in HPeq. subst P. by exists k.
Qed.

Lemma validatePath_relative_allowed_witness :
  Path.isAbsolute (JS.str "/home/u/proj") = true /\
  allowed (validatePath (JS.str "/srv") (fun _ => false)
             (JS.str "src/./utils//a..b.ts") (JS.str "/home/u/proj")) = true.
Proof.
  split; [reflexivity|].
  apply (validatePath_relative_allowed (JS.str "/srv") (fun _ => false)
           (JS.str "src/./utils//a..b.ts") (JS.str "/home/u/proj")).
  - reflexivity.
  - reflexivity.
  - vm_compute. intros H. repeat (apply elem_of_cons in H as [H|H]; [discriminate H|]).
    by apply elem_of_nil in H.
Defined.

(** X4: under an absolute root the resolved path of a verdict is in
    normal form (a [/] followed by components, joined by [/], that are
    non-empty, free of [/], and neither [.] nor [..]), and validating it
    again changes nothing: same resolved path, same verdict. *)
Theorem validatePath_idempotent (cwd : list JS.char) (accessSync : list JS.char -> bool)
    (p r : list JS.char) :
  Path.isAbsolute r = true ->
  let v := validatePath cwd accessSync p r in
  let v' := validatePath cwd accessSync (resolved v) r in
  (exists segs, Forall clean_seg segs /\ resolved v = Path.sep :: Path.joinSep segs) /\
  resolved v' = resolved v /\ allowed v' = allowed v /\ exists_ v' = exists_ v.
Proof.
  intros Hr v v'.
  destruct (validatePath_shape cwd accessSync p r Hr) as (P & HP & _ & Hres & _ & Hallowed).
  fold v in Hres, Hallowed.
  destruct (validatePath_shape cwd accessSync (resolved v) r Hr)
    as (P' & _ & HPeq' & Hres' & _ & Hallowed').
  fold v' in Hres', Hallowed'.
  rewrite Hres in HPeq'. rewrite isAbsolute_render, canon_render in HPeq' by done.
  subst P'. split; [by exists P|].
  assert (Hr' : resolved v' = resolved v) by (by rewrite Hres, Hres').
  assert (Ha' : allowed v' = allowed v) by (by rewrite Hallowed, Hallowed').
  split; [done|]. split; [done|].
  change (exists_ v') with (if allowed v' then accessSync (resolved v') else false).
  change (exists_ v) with (if allowed v then accessSync (resolved v) else false).
  by rewrite Hr', Ha'.
Qed.

Lemma validatePath_idempotent_witness :
  Path.isAbsolute (JS.str "/home/u/proj") = true /\
  let v := validatePath (JS.str "/srv") (fun _ => true)
             (JS.str "a/../b/./c") (JS.str "/home/u/proj") in
  let v' := validatePath (JS.str "/srv") (fun _ => true) (resolved v) (JS.str "/home/u/proj") in
  (exists segs, Forall clean_seg segs /\ resolved v = Path.sep :: Path.joinSep segs) /\
  resolved v' = resolved v /\ allowed v' = allowed v /\ exists_ v' = exists_ v.
Proof.
  split; [reflexivity|].
  apply (validatePath_idempotent (JS.str "/srv") (fun _ => true)
           (JS.str "a/../b/./c") (JS.str "/home/u/proj")).
  reflexivity.
Defined.

Lemma filter_negb_allowed_nil (results : list PathValidationResult) :
  length (List.filter (fun r => negb (allowed r)) results) = 0%nat <->
  Forall (fun r => allowed r = true) results.
Proof.
  induction results as [|v results IH]; simpl; [done|].
  destruct (allowed v) eqn:E; simpl.
  - rewrite IH. split; [by constructor|by inversion 1].
  - split; [lia|]. inversion 1; congruence.
Qed.

(** X5: [checkPromptPathsValid] calls a prompt valid exactly when every
    [@] reference in it is allowed, and the verdicts it hands back are
    the disallowed ones, each for a reference of the prompt; a prompt
    without [@] is always valid. *)
Theorem checkPromptPathsValid_iff (cwd : list JS.char) (accessSync : list JS.char -> bool)
    (prompt root : list JS.char) :
  let result := checkPromptPathsValid cwd accessSync prompt root in
  (result.1 = true <->
     Forall (fun ref => allowed (validatePath cwd accessSync ref root) = true)
            (extractAtPathReferences prompt)) /\
  Forall (fun v => allowed v = false /\ In (input v) (extractAtPathReferences prompt))
         result.2 /\
  (at_sign ∉ prompt -> result = (true, [])).
Proof.
  unfold checkPromptPathsValid, validatePromptPaths. cbn [fst snd]. split; [|split].
  - rewrite bool_decide_eq_true, filter_negb_allowed_nil.
    rewrite Forall_map. done.
  - apply List.Forall_forall. intros v Hin. apply List.filter_In in Hin as [Hin Hneg].
    apply List.in_map_iff in Hin as (ref & <- & Href).
    split; [by apply negb_true_iff|done].
  - intros Hno. unfold extractAtPathReferences. by rewrite matchesFrom_no_at.
Qed.

(** X6: when the project root is already a resolved absolute path (as
    [process.cwd()] is), the path check of [analyze_directory] decides
    exactly as [validatePath] does. *)
Theorem analyzeDirectoryAllowed_agrees (cwd : list JS.char) (accessSync : list JS.char -> bool)
    (p r : list JS.char) :
  Path.isAbsolute r = true ->
  Path.resolve cwd [r] = r ->
  analyzeDirectoryAllowed cwd p r = allowed (validatePath cwd accessSync p r).
Proof.
  intros Hr Hfix.
  destruct (validatePath_shape cwd accessSync p r Hr) as (P & HP & HPeq & _ & Hroot & Hallowed).
  rewrite Hallowed. unfold analyzeDirectoryAllowed.
  assert (Hrr : r = render (canon r)) by (by rewrite <- Hroot).
  rewrite <- Hrr. f_equal. subst P.
  destruct (Path.isAbsolute p) eqn:Hp.
  - by apply resolve_absolute.
  - by apply resolve_pair.
Qed.

Lemma analyzeDirectoryAllowed_agrees_witness :
  Path.isAbsolute (JS.str "/home/u/proj") = true /\
  Path.resolve (JS.str "/srv") [JS.str "/home/u/proj"] = JS.str "/home/u/proj" /\
  analyzeDirectoryAllowed (JS.str "/srv") (JS.str "../other") (JS.str "/home/u/proj")
  = allowed (validatePath (JS.str "/srv") (fun _ => true)
               (JS.str "../other") (JS.str "/home/u/proj")).
Proof.
  split; [reflexivity|]. split; [reflexivity|].
  apply (analyzeDirectoryAllowed_agrees (JS.str "/srv") (fun _ => true)
           (JS.str "../other") (JS.str "/home/u/proj")); reflexivity.
Defined.

(** With a trailing separator on the root the two checks part ways: the
    root itself passes [validatePath] and fails [analyze_directory]. *)
Example analyzeDirectoryAllowed_trailing_separator :
  analyzeDirectoryAllowed (JS.str "/srv") (JS.str ".") (JS.str "/home/u/proj/") = false /\
  allowed (validatePath (JS.str "/srv") (fun _ => true)
             (JS.str ".") (JS.str "/home/u/proj/")) = true.
Proof. vm_compute. split; reflexivity. Qed.

(** ** Chunk estimate *)

Import ChunkEstimate.

Lemma lastIndexOf_from_absent c s (k : nat) :
  c ∉ s -> JS.lastIndexOf_from c s k = -1.
Proof.
  intros Hno. induction k as [|k IH]; simpl.
  - case_decide as H; [|done]. exfalso. apply Hno. by eapply list_elem_of_lookup_2.
  - case_decide as H; [|done]. exfalso. apply Hno. by eapply list_elem_of_lookup_2.
Qed.

Lemma lastIndexOf_absent c s pos : c ∉ s -> JS.lastIndexOf c s pos = -1.
Proof.
  intros Hno. unfold JS.lastIndexOf. simpl. case_decide; [done|].
  by apply lastIndexOf_from_absent.
Qed.

Lemma endPositionOf_no_newline s c cur :
  0 < c -> 0 <= cur -> JS.newline ∉ s ->
  endPositionOf s c cur = Z.min (cur + c) (JS.len s).
Proof.
  intros Hc Hcur Hno. unfold endPositionOf. simpl.
  rewrite lastIndexOf_absent by done.
  case_decide; [|lia]. case_decide; lia.
Qed.

Lemma ceil_step a c : 0 < c -> - (- a / c) = 1 + - (- (a - c) / c).
Proof.
  intros Hc. replace (- a) with (- (a - c) + (-1) * c) by lia.
  rewrite Z.div_add by lia. lia.
Qed.

Lemma ceil_one a c : 0 < a <= c -> - (- a / c) = 1.
Proof.
  intros Ha. assert (H : - a / c = -1); [|lia].
  symmetry. apply (Z.div_unique (- a) c (-1) (c - a)); lia.
Qed.

Lemma ceil_zero c : - (- 0 / c) = 0.
Proof. change (- 0) with 0. by rewrite Zdiv_0_l. Qed.

Lemma chunkLoop_count_no_newline fuel s c cur idx :
  0 < c -> 0 <= cur <= JS.len s -> JS.newline ∉ s ->
  (Z.to_nat (JS.len s - cur) <= fuel)%nat ->
  Z.of_nat (length (chunkLoop fuel s c cur idx [])) = - (- (JS.len s - cur) / c).
Proof.
  intros Hc. revert cur idx. induction fuel as [|fuel IH]; intros cur idx Hcur Hno Hfuel.
  - simpl. replace (JS.len s - cur) with 0 by lia. by rewrite ceil_zero.
  - destruct (decide (cur < JS.len s)) as [Hlt|Hge].
    + rewrite chunkLoop_step by done. simpl length. rewrite Nat2Z.inj_succ.
      rewrite endPositionOf_no_newline by (done || lia).
      rewrite IH by (done || lia).
      destruct (decide (cur + c < JS.len s)) as [Hin|Hout].
      * rewrite Z.min_l by lia. rewrite (ceil_step (JS.len s - cur)) by done.
        replace (JS.len s - (cur + c)) with (JS.len s - cur - c) by lia. lia.
      * rewrite Z.min_r by lia. rewrite Z.sub_diag, ceil_zero.
        rewrite ceil_one by lia. lia.
    + rewrite chunkLoop_done by lia. simpl.
      replace (JS.len s - cur) with 0 by lia. by rewrite ceil_zero.
Qed.

(** X7: for a non-empty response that contains no newline, the number of
    chunks [chunkResponse] produces is exactly what [estimateChunkCount]
    predicts. *)
Theorem estimateChunkCount_exact (s : list JS.char) (kb : Z) :
  0 < kb -> s <> [] -> JS.newline ∉ s ->
  Z.of_nat (length (chunkResponse s kb)) = estimateChunkCount s kb.
Proof.
  intros Hkb Hne Hno. unfold chunkResponse, estimateChunkCount. simpl.
  assert (Hlen : 0 < JS.len s) by (unfold JS.len; destruct s; [done|simpl; lia]).
  case_decide as Hfit.
  - simpl. rewrite ceil_one; lia.
  - rewrite length_map.
    rewrite (chunkLoop_count_no_newline (length s) s (kb * 1024) 0 1);
      [by rewrite Z.sub_0_r|lia|lia|done|unfold JS.len; lia].
Qed.

Lemma estimateChunkCount_exact_witness :
  0 < 1 /\
  Z.of_nat (length (chunkResponse (repeat (JS.chr "A") 2500) 1))
  = estimateChunkCount (repeat (JS.chr "A") 2500) 1.
Proof.
  split; [lia|].
  apply (estimateChunkCount_exact (repeat (JS.chr "A") 2500) 1).
  - lia.
  - discriminate.
  - intros H. apply list_elem_of_In, repeat_spec in H. discriminate H.
Defined.

(** With newlines the estimate can be off in both directions. *)
Example estimateChunkCount_off :
  let over := repeat (JS.chr "a") 1024 ++ [JS.newline] in
  let under := repeat (JS.chr "a") 600 ++ [JS.newline] ++ repeat (JS.chr "a") 1000
                 ++ [JS.newline] ++ repeat (JS.chr "a") 440 in
  (Z.of_nat (length (chunkResponse over 1)), estimateChunkCount over 1) = (1, 2) /\
  (Z.of_nat (length (chunkResponse under 1)), estimateChunkCount under 1) = (3, 2).
Proof. vm_compute. split; reflexivity. Qed.

(** ** Response cache, remaining operations *)

Import CacheOps.

Lemma getResponse_store key now st :
  (getResponse key now st).2 = st \/
  (getResponse key now st).2 = mkStore (delete key (cache st)) (cleanupScheduled st).
Proof.
  unfold getResponse. destruct (cache st !! key) as [e|]; [|by left].
  case_decide; [by right|by left].
Qed.

Lemma getChunk_store key i now st :
  (getChunk key i now st).2 = (getResponse key now st).2.
Proof.
  unfold getChunk. destruct (getResponse key now st) as [[e|] st']; [|done].
  by case_decide.
Qed.

Lemma getCacheMetadata_store key now st :
  (getCacheMetadata key now st).2 = (getResponse key now st).2.
Proof.
  unfold getCacheMetadata. by destruct (getResponse key now st) as [[e|] st'].
Qed.

Lemma hasValidCache_store key now st :
  (hasValidCache key now st).2 = (getResponse key now st).2.
Proof.
  unfold hasValidCache. by destruct (getResponse key now st) as [r st'].
Qed.

Lemma cleanupScheduled_mkStore (st : Store) :
  mkStore (cache st) (cleanupScheduled st) = st.
Proof. by destruct st. Qed.

(** The property every operation of the module keeps. *)
Lemma applyOp_keeps_sweep st op :
  cleanupScheduled st = true \/ cache st = ∅ ->
  cleanupScheduled (applyOp st op) = true \/ cache (applyOp st op) = ∅.
Proof.
  intros Hinv.
  assert (Hget : forall key now,
    cleanupScheduled (getResponse key now st).2 = true \/
    cache (getResponse key now st).2 = ∅).
  { intros key now. destruct (getResponse_store key now st) as [->| ->]; [done|].
    simpl. destruct Hinv as [H|H]; [by left|right]. rewrite H. apply delete_empty. }
  destruct op as [stored ttl key now|key now|key i now|key now|key now|key|now| |now]; simpl.
  - left. unfold cacheResponse, scheduleCleanup. simpl.
    by destruct (cleanupScheduled st) eqn:E.
  - apply Hget.
  - rewrite getChunk_store. apply Hget.
  - rewrite getCacheMetadata_store. apply Hget.
  - rewrite hasValidCache_store. apply Hget.
  - destruct Hinv as [H|H]; [by left|right]. rewrite H. apply delete_empty.
  - destruct Hinv as [H|H]; [by left|right]. rewrite H. apply map_filter_empty.
  - by right.
  - unfold timerFires. destruct (cleanupScheduled st) eqn:E.
    + unfold cleanupTick. simpl. case_decide as Hsize.
      * right. simpl. by apply map_size_empty_iff.
      * left. done.
    + destruct Hinv as [H|H]; [congruence|by right].
Qed.

(** X8: whatever calls are made into the cache module and whenever its
    timer fires, a cache that holds at least one bundle has its periodic
    sweep scheduled. *)
Theorem cache_nonempty_sweep_scheduled (ops : list CacheOp) :
  cache (runOps ops) <> ∅ -> cleanupScheduled (runOps ops) = true.
Proof.
  assert (Hinv : cleanupScheduled (runOps ops) = true \/ cache (runOps ops) = ∅).
  { induction ops as [|op ops IH] using rev_ind; [by right|].
    unfold runOps in *. rewrite fold_left_app. simpl. by apply applyOp_keeps_sweep. }
  intros Hne. by destruct Hinv.
Qed.

Lemma cache_nonempty_sweep_scheduled_witness :
  cache (runOps [OpCacheResponse [mkChunk (JS.str "x") 1 1] 1000 (JS.str "cache_a") 0;
                 OpTimer 300000;
                 OpCacheResponse [mkChunk (JS.str "y") 1 1] 1000 (JS.str "cache_b") 300500;
                 OpGetChunk (JS.str "cache_a") 1 300600]) <> ∅ /\
  cleanupScheduled
    (runOps [OpCacheResponse [mkChunk (JS.str "x") 1 1] 1000 (JS.str "cache_a") 0;
             OpTimer 300000;
             OpCacheResponse [mkChunk (JS.str "y") 1 1] 1000 (JS.str "cache_b") 300500;
             OpGetChunk (JS.str "cache_a") 1 300600]) = true.
Proof.
  assert (Hne : cache (runOps [OpCacheResponse [mkChunk (JS.str "x") 1 1] 1000 (JS.str "cache_a") 0;
                 OpTimer 300000;
                 OpCacheResponse [mkChunk (JS.str "y") 1 1] 1000 (JS.str "cache_b") 300500;
                 OpGetChunk (JS.str "cache_a") 1 300600]) <> ∅).
  { intros H. apply (f_equal (fun m => m !! JS.str "cache_b")) in H.
    vm_compute in H. discriminate H. }
  split; [exact Hne|].
  exact (cache_nonempty_sweep_scheduled _ Hne).
Defined.

(** X9: a sweep at time [now] keeps exactly the entries that are not past
    their expiry, unchanged; the number it returns is the number of
    entries it removed; and a second sweep at the same time removes
    nothing. *)
Theorem clearExpired_sweep (now : Z) (st : Store) :
  let swept := (clearExpired now st).2 in
  (forall key entry,
     cache swept !! key = Some entry <->
     cache st !! key = Some entry /\ now <= expiresAt entry) /\
  0 <= (clearExpired now st).1 /\
  Z.of_nat (size (cache st)) = Z.of_nat (size (cache swept)) + (clearExpired now st).1 /\
  clearExpired now swept = (0, swept).
Proof.
  unfold clearExpired. cbn [fst snd cache cleanupScheduled].
  set (kept := filter (fun kv => ~ now > expiresAt kv.2) (cache st)).
  assert (Hsub : (size kept <= size (cache st))%nat)
    by (apply map_subseteq_size, map_filter_subseteq).
  split; [|split; [lia|split; [lia|]]].
  - intros key entry. unfold kept. rewrite map_lookup_filter_Some. simpl.
    split; intros [H1 H2]; (split; [done|lia]).
  - assert (Hid : filter (fun kv => ~ now > expiresAt kv.2) kept = kept).
    { apply map_filter_id. intros key entry Hl.
      unfold kept in Hl. apply map_lookup_filter_Some in Hl as [_ H]. exact H. }
    rewrite Hid. f_equal. lia.
Qed.

(** X10: an operation on one key never changes what is stored under
    another key, and fetching a chunk of a bundle that has not expired
    leaves the whole cache as it was. *)
Theorem cache_keys_isolated (st : Store) (op : CacheOp) (key other : list JS.char) :
  opKey op = Some key -> other <> key ->
  cache (applyOp st op) !! other = cache st !! other /\
  (forall i now entry,
     op = OpGetChunk key i now -> cache st !! key = Some entry ->
     now <= expiresAt entry -> applyOp st op = st).
Proof.
  intros Hkey Hne.
  assert (Hget : forall now, cache (getResponse key now st).2 !! other = cache st !! other).
  { intros now. destruct (getResponse_store key now st) as [->| ->]; [done|].
    simpl. by rewrite lookup_delete_ne. }
  split.
  - destruct op as [stored ttl k now|k now|k i now|k now|k now|k|now| |now];
      simpl in Hkey; try discriminate; injection Hkey as ->; simpl.
    + unfold cacheResponse, scheduleCleanup. simpl.
      destruct (cleanupScheduled st); simpl; by rewrite lookup_insert_ne.
    + apply Hget.
    + rewrite getChunk_store. apply Hget.
    + rewrite getCacheMetadata_store. apply Hget.
    + rewrite hasValidCache_store. apply Hget.
    + by rewrite lookup_delete_ne.
  - intros i now entry -> Hl Hlive. simpl. rewrite getChunk_store.
    unfold getResponse. rewrite Hl. by rewrite decide_False by lia.
Qed.

Lemma cache_keys_isolated_witness :
  let st := CacheScenarios.twoBundles in
  let a := JS.str "cache_a" in
  let b := JS.str "cache_b" in
  cache (applyOp st (OpDeleteCache a)) !! a = None /\
  cache (applyOp st (OpDeleteCache a)) !! b
    = Some (mkEntry CacheScenarios.bundleB 5 1005) /\
  cache (applyOp st (OpCacheResponse [] 10 a 700)) !! b
    = Some (mkEntry CacheScenarios.bundleB 5 1005) /\
  applyOp st (OpGetChunk a 2 500) = st.
Proof.
  intros st a b.
  assert (Hab : b <> a) by discriminate.
  split; [vm_compute; reflexivity|]. split; [|split].
  - destruct (cache_keys_isolated st (OpDeleteCache a) a b eq_refl Hab) as [Hother _].
    rewrite Hother. vm_compute. reflexivity.
  - destruct (cache_keys_isolated st (OpCacheResponse [] 10 a 700) a b eq_refl Hab)
      as [Hother _].
    rewrite Hother. vm_compute. reflexivity.
  - destruct (cache_keys_isolated st (OpGetChunk a 2 500) a b eq_refl Hab) as [_ Hsame].
    apply (Hsame 2 500 (mkEntry CacheScenarios.bundleA 0 1000)).
    + reflexivity.
    + vm_compute. reflexivity.
    + vm_compute. discriminate.
Defined.

(** ** Fetching chunks *)

Import FetchChunkTool.

Lemma getResponse_live key now st entry :
  cache st !! key = Some entry -> now <= expiresAt entry ->
  getResponse key now st = (Some entry, st).
Proof. intros Hl Hle. unfold getResponse. rewrite Hl. by rewrite decide_False by lia. Qed.

Lemma getResponse_dead key now st entry :
  cache st !! key = Some entry -> now > expiresAt entry ->
  (getResponse key now st).1 = None.
Proof. intros Hl Hgt. unfold getResponse. rewrite Hl. by rewrite decide_True by lia. Qed.

Lemma getResponse_missing key now st :
  cache st !! key = None -> getResponse key now st = (None, st).
Proof. intros Hl. unfold getResponse. by rewrite Hl. Qed.

Lemma fetchChunk_live (key : list JS.char) (i now : Z) (st : Store) (entry : CacheEntry) :
  key <> [] -> 1 <= i ->
  cache st !! key = Some entry -> now <= expiresAt entry ->
  let result := (execute key i now now now st).1 in
  let total := Z.of_nat (length (chunks entry)) in
  (i > total -> result = FetchError INVALID_CHUNK_INDEX INVALID_CHUNK_INDEX_MESSAGE) /\
  (i <= total ->
     exists chunk, chunks entry !! Z.to_nat (i - 1) = Some chunk /\
       result = FetchedChunk i total (content chunk) (expiresAt entry)).
Proof.
  intros Hkey Hi Hl Hlive. unfold execute. cbv zeta.
  rewrite decide_False by done. rewrite decide_False by lia.
  rewrite (getResponse_live key now st entry) by done.
  unfold getCacheMetadata. rewrite (getResponse_live key now st entry) by done.
  cbn [totalChunks metaExpiresAt].
  destruct (decide (i > Z.of_nat (length (chunks entry)))) as [Hbig|Hin].
  - split; [done|]. intros. lia.
  - unfold getChunk. rewrite (getResponse_live key now st entry) by done.
    rewrite decide_False by lia.
    destruct (lookup_lt_is_Some_2 (chunks entry) (Z.to_nat (i - 1)) ltac:(lia))
      as [chunk Hchunk].
    rewrite Hchunk. cbn [fst]. split; [intros; lia|]. intros _. by exists chunk.
Qed.

(** X11: for a non-empty key, a positive index and a clock that does not
    run backwards between the tool's three reads of the cache,
    [fetch_chunk] answers CACHE_EXPIRED when the key is unknown or the
    bundle has expired by the second read, INVALID_CHUNK_INDEX when the
    index exceeds the number of chunks, INTERNAL only when the bundle
    expires between the second and the third read, and otherwise the
    content of the chunk asked for, with the bundle's chunk count and
    expiry time. *)
Theorem fetchChunk_outcome (key : list JS.char) (i now1 now2 now3 : Z) (st : Store) :
  key <> [] -> 1 <= i -> now1 <= now2 <= now3 ->
  let result := (execute key i now1 now2 now3 st).1 in
  match cache st !! key with
  | None => result = FetchError CACHE_EXPIRED CACHE_EXPIRED_MESSAGE
  | Some entry =>
      let total := Z.of_nat (length (chunks entry)) in
      (now2 > expiresAt entry -> result = FetchError CACHE_EXPIRED CACHE_EXPIRED_MESSAGE) /\
      (now2 <= expiresAt entry -> i > total ->
         result = FetchError INVALID_CHUNK_INDEX INVALID_CHUNK_INDEX_MESSAGE) /\
      (now2 <= expiresAt entry -> i <= total -> now3 > expiresAt entry ->
         result = FetchError INTERNAL (JS.str "Failed to retrieve chunk from cache")) /\
      (now3 <= expiresAt entry -> i <= total ->
         exists chunk, chunks entry !! Z.to_nat (i - 1) = Some chunk /\
           result = FetchedChunk i total (content chunk) (expiresAt entry))
  end.
Proof.
  intros Hkey Hi Hclock. unfold execute. simpl.
  rewrite decide_False by done. rewrite decide_False by lia.
  destruct (cache st !! key) as [entry|] eqn:Hl.
  - destruct (decide (now1 > expiresAt entry)) as [Hdead1|Hlive1].
    + assert (Hg : (getResponse key now1 st).1 = None) by (by eapply getResponse_dead).
      destruct (getResponse key now1 st) as [[e|] st1]; [done|]. simpl.
      repeat split; intros; (done || lia).
    + rewrite (getResponse_live key now1 st entry) by (done || lia).
      unfold getCacheMetadata.
      destruct (decide (now2 > expiresAt entry)) as [Hdead2|Hlive2].
      * assert (Hg : (getResponse key now2 st).1 = None) by (by eapply getResponse_dead).
        destruct (getResponse key now2 st) as [[e|] st2]; [done|]. simpl.
        repeat split; intros; (done || lia).
      * rewrite (getResponse_live key now2 st entry) by (done || lia). simpl.
        destruct (decide (i > Z.of_nat (length (chunks entry)))) as [Hbig|Hin].
        -- simpl. repeat split; intros; (done || lia).
        -- unfold getChunk.
           destruct (decide (now3 > expiresAt entry)) as [Hdead3|Hlive3].
           ++ assert (Hg : (getResponse key now3 st).1 = None) by (by eapply getResponse_dead).
              destruct (getResponse key now3 st) as [[e|] st3]; [done|]. simpl.
              repeat split; intros; (done || lia).
           ++ rewrite (getResponse_live key now3 st entry) by (done || lia).
              rewrite decide_False by lia.
              destruct (lookup_lt_is_Some_2 (chunks entry) (Z.to_nat (i - 1)) ltac:(lia))
                as [chunk Hchunk].
              rewrite Hchunk. simpl.
              split; [intros; lia|]. split; [intros; lia|]. split; [intros; lia|].
              intros _ _. by exists chunk.
  - by rewrite getResponse_missing.
Qed.

Lemma fetchChunk_outcome_witness :
  let st := CacheScenarios.twoBundles in
  let a := JS.str "cache_a" in
  (execute a 2 100 200 300 st).1 = FetchedChunk 2 2 (JS.str "lo") 1000 /\
  (execute a 3 100 200 300 st).1
    = FetchError INVALID_CHUNK_INDEX INVALID_CHUNK_INDEX_MESSAGE /\
  (execute a 2 990 1000 1001 st).1
    = FetchError INTERNAL (JS.str "Failed to retrieve chunk from cache") /\
  (execute a 2 1000 1001 1002 st).1 = FetchError CACHE_EXPIRED CACHE_EXPIRED_MESSAGE /\
  (execute (JS.str "cache_c") 1 100 200 300 st).1
    = FetchError CACHE_EXPIRED CACHE_EXPIRED_MESSAGE.
Proof.
  intros st a.
  assert (Ha : a <> []) by discriminate.
  assert (Hl : cache st !! a = Some (mkEntry CacheScenarios.bundleA 0 1000))
    by (vm_compute; reflexivity).
  split; [|split; [|split; [|split]]].
  - pose proof (fetchChunk_outcome a 2 100 200 300 st Ha ltac:(lia) ltac:(lia)) as H.
    cbv zeta in H. rewrite Hl in H. destruct H as (_ & _ & _ & Hok).
    destruct Hok as (chunk & Hchunk & Hres).
    + vm_compute. discriminate.
    + vm_compute. discriminate.
    + rewrite Hres. injection Hchunk as <-. reflexivity.
  - pose proof (fetchChunk_outcome a 3 100 200 300 st Ha ltac:(lia) ltac:(lia)) as H.
    cbv zeta in H. rewrite Hl in H. destruct H as (_ & Hbig & _).
    apply Hbig; vm_compute; (discriminate || reflexivity).
  - pose proof (fetchChunk_outcome a 2 990 1000 1001 st Ha ltac:(lia) ltac:(lia)) as H.
    cbv zeta in H. rewrite Hl in H. destruct H as (_ & _ & Hgone & _).
    apply Hgone; vm_compute; (discriminate || reflexivity).
  - pose proof (fetchChunk_outcome a 2 1000 1001 1002 st Ha ltac:(lia) ltac:(lia)) as H.
    cbv zeta in H. rewrite Hl in H. destruct H as (Hdead & _).
    apply Hdead. vm_compute. reflexivity.
  - pose proof (fetchChunk_outcome (JS.str "cache_c") 1 100 200 300 st
                  ltac:(discriminate) ltac:(lia) ltac:(lia)) as H.
    cbv zeta in H.
    assert (Hc : cache st !! JS.str "cache_c" = None) by (vm_compute; reflexivity).
    rewrite Hc in H. exact H.
Defined.

Lemma chunkResponse_concat s kb :
  0 < kb -> concat (map content (chunkResponse s kb)) = s.
Proof.
  intros Hkb. unfold chunkResponse. simpl. case_decide as Hfit.
  - simpl. by rewrite app_nil_r.
  - rewrite map_content_setTotal.
    rewrite (cut_from_concat s (kb * 1024) 0 1 _ ltac:(lia)); [done|].
    apply chunkLoop_total; lia.
Qed.

(** X12: the round trip through the cache.  After the chunks of a
    response have been stored, a client that fetches the chunks 1 to n
    one after the other, at any times up to the expiry, and concatenates
    their contents gets the response back; asking for chunk n + 1 is
    answered with INVALID_CHUNK_INDEX. *)
Theorem fetchChunk_roundtrip (s : list JS.char) (kb ttl t0 now : Z)
    (key : list JS.char) (st : Store) :
  0 < kb -> key <> [] -> now <= t0 + ttl ->
  let stored := chunkResponse s kb in
  let st' := (cacheResponse stored ttl key t0 st).2 in
  let n := Z.of_nat (length stored) in
  concat (map (fun i => contentOf (execute key i now now now st').1) (seqZ 1 n)) = s /\
  (execute key (n + 1) now now now st').1
    = FetchError INVALID_CHUNK_INDEX INVALID_CHUNK_INDEX_MESSAGE.
Proof.
  intros Hkb Hkey Hlive stored st' n.
  assert (Hl : cache st' !! key = Some (mkEntry stored t0 (t0 + ttl)))
    by apply cacheResponse_lookup.
  split.
  - transitivity (concat (map content stored)); [|by apply chunkResponse_concat].
    f_equal.
    apply list_eq. intros j.
    change (map ?f ?l) with (f <$> l). rewrite !list_lookup_fmap.
    destruct (decide (j < length stored)%nat) as [Hj|Hj].
    + rewrite lookup_seqZ_lt by lia. simpl.
      destruct (fetchChunk_live key (1 + Z.of_nat j) now st' _ Hkey ltac:(lia) Hl Hlive)
        as (_ & Hok).
      destruct (Hok ltac:(simpl; lia)) as (chunk & Hchunk & ->). simpl in Hchunk |- *.
      replace (Z.to_nat (1 + Z.of_nat j - 1)) with j in Hchunk by lia.
      by rewrite Hchunk.
    + rewrite lookup_seqZ_ge by lia. by rewrite lookup_ge_None_2 by lia.
  - destruct (fetchChunk_live key (n + 1) now st' _ Hkey ltac:(lia) Hl Hlive)
      as (Hbig & _).
    apply Hbig. simpl. fold n. lia.
Qed.

Lemma fetchChunk_roundtrip_witness :
  let s := CacheScenarios.longAnswer in
  let key := JS.str "cache_k" in
  let st' := (cacheResponse (chunkResponse s 1) 1000 key 0 CacheScenarios.twoBundles).2 in
  length (chunkResponse s 1) = 3%nat /\
  concat (map (fun i => contentOf (execute key i 500 500 500 st').1) [1; 2; 3]) = s /\
  (execute key 4 500 500 500 st').1
    = FetchError INVALID_CHUNK_INDEX INVALID_CHUNK_INDEX_MESSAGE.
Proof.
  intros s key st'.
  assert (Hn : length (chunkResponse s 1) = 3%nat) by (vm_compute; reflexivity).
  split; [exact Hn|].
  destruct (fetchChunk_roundtrip s 1 1000 0 500 key CacheScenarios.twoBundles)
    as [Hall Hnext].
  - lia.
  - discriminate.
  - lia.
  - cbv zeta in Hall, Hnext. rewrite Hn in Hall, Hnext. split; [exact Hall|exact Hnext].
Defined.

(** ** Substrings *)

Lemma includes_spec s sub :
  JS.includes s sub = true <-> exists a b, s = a ++ sub ++ b.
Proof.
  induction s as [|c s IH]; cbn [JS.includes].
  - rewrite orb_false_r, startsWith_spec. split.
    + intros [t Ht]. by exists [], t.
    + intros (a & b & Hab). destruct a; [by exists b|discriminate].
  - rewrite orb_true_iff, startsWith_spec, IH. split.
    + intros [[t Ht]|(a & b & ->)]; [by exists [], t|by exists (c :: a), b].
    + intros (a & b & Hab). destruct a as [|d a].
      * left. by exists b.
      * right. injection Hab as -> ->. by exists a, b.
Qed.

Lemma includes_app s sub a b :
  JS.includes s sub = true -> JS.includes (a ++ s ++ b) sub = true.
Proof.
  rewrite !includes_spec. intros (x & y & ->).
  exists (a ++ x), (y ++ b). by rewrite <- !app_assoc.
Qed.

Lemma includes_toLowerCase s sub :
  JS.includes s sub = true ->
  JS.includes (JS.toLowerCase s) (JS.toLowerCase sub) = true.
Proof.
  rewrite !includes_spec. intros (a & b & ->).
  exists (JS.toLowerCase a), (JS.toLowerCase b).
  unfold JS.toLowerCase. by rewrite !map_app.
Qed.

Lemma isQuotaError_app message a b :
  isQuotaError message = true -> isQuotaError (a ++ message ++ b) = true.
Proof.
  unfold isQuotaError. cbv zeta.
  replace (JS.toLowerCase (a ++ message ++ b))
    with (JS.toLowerCase a ++ JS.toLowerCase message ++ JS.toLowerCase b)
    by (unfold JS.toLowerCase; by rewrite !map_app).
  rewrite !orb_true_iff.
  intros H. repeat destruct H as [H|H]; apply (includes_app _ _ (JS.toLowerCase a) (JS.toLowerCase b)) in H;
    rewrite H; auto 10.
Qed.

Lemma isQuotaError_suffix message a :
  isQuotaError message = true -> isQuotaError (a ++ message) = true.
Proof.
  intros H. rewrite <- (app_nil_r message). by apply isQuotaError_app.
Qed.

Lemma classify_quota_isQuotaError message :
  (classify message).1 = QUOTA_EXCEEDED -> isQuotaError message = true.
Proof.
  unfold classify. destruct (_ || _); [discriminate|]. destruct (_ || _); [discriminate|].
  destruct (JS.includes message (JS.str "quota")) eqn:E; [|discriminate].
  intros _. apply includes_toLowerCase in E. unfold isQuotaError. cbv zeta.
  change (JS.toLowerCase (JS.str "quota")) with (JS.str "quota") in E. by rewrite E.
Qed.

(** ** Outcomes of the orchestrated call *)

(** X13: the code QUOTA_EXCEEDED is reported only after fallback: when the
    tool answers with it, every tier of the plan was attempted, in order
    and once each, and the error it reports is one the fallback logic
    itself counts as a quota error. *)
Theorem quota_exceeded_only_after_fallback
    (parse : list JS.char -> ParsedOutput)
    (child : nat -> list (list JS.char) -> list ProcEvent)
    (latency : nat -> Z) (hp : bool) (fullPrompt freshKey : list JS.char) (now : Z)
    (st : ResponseCache.Store) (message nextStep : list JS.char) :
  (executeTry parse child latency hp fullPrompt freshKey now st).1
    = Resolves (ToolError QUOTA_EXCEEDED message nextStep) ->
  spawnsOf (executeGeminiCLI parse child latency hp fullPrompt deep_research).2
    = map (buildGeminiArgs (finalPromptOf fullPrompt)) (getModelTiers deep_research) /\
  isQuotaError message = true.
Proof.
  intros Htool.
  destruct (executeGeminiCLI_trace parse child latency hp fullPrompt deep_research)
    as (k & outcome & Heq & Hk & Hsteps & _ & Hfinal).
  unfold executeTry in Htool. rewrite Heq in Htool |- *. cbn [fst snd] in *.
  destruct outcome as [response|m|].
  - destruct (needsChunking _ _); [|discriminate Htool].
    destruct (cacheResponse _ _ _ _ _). discriminate Htool.
  - destruct (classify m) as [code ns] eqn:Hc. simpl in Htool.
    injection Htool as -> -> ->.
    assert (Hq : isQuotaError message = true)
      by (apply classify_quota_isQuotaError; by rewrite Hc).
    split; [|done].
    unfold finalOutcome in Hfinal.
    destruct (settled (runAt child hp (finalPromptOf fullPrompt)
                         (getModelTiers deep_research) (k - 1))) as [[out|m']|] eqn:Hset;
      try discriminate Hfinal.
    injection Hfinal as <-.
    assert (Hk3 : k = 3%nat).
    { simpl in Hk. destruct (decide (k = 3%nat)) as [|Hne]; [done|]. exfalso.
      assert (Hlt : (S (k - 1) < k)%nat).
      { apply (Hsteps (k - 1)%nat message); [lia|done|]. split; [done|simpl; lia]. }
      lia. }
    rewrite spawnsOf_attempts, argsAt_seq by (simpl; lia). by rewrite Hk3.
  - discriminate Htool.
Qed.

Lemma quota_exceeded_only_after_fallback_witness :
  (executeTry Scenarios.rawParse
     (fun _ _ => [StderrData (JS.str "Quota exceeded for quota metric"); Close (Some 1)])
     Scenarios.noLatency false (JS.str "Explain") (JS.str "cache_k") 0
     ResponseCache.emptyStore).1
    = Resolves (ToolError QUOTA_EXCEEDED
                  (JS.str "Command failed with exit code 1: Quota exceeded for quota metric")
                  (JS.str "Quota exhausted after fallback. Wait for quota reset or upgrade plan. Consider using quick_query for lighter tasks.")) /\
  length (spawnsOf (executeGeminiCLI Scenarios.rawParse
     (fun _ _ => [StderrData (JS.str "Quota exceeded for quota metric"); Close (Some 1)])
     Scenarios.noLatency false (JS.str "Explain") deep_research).2) = 3%nat.
Proof.
  assert (H : (executeTry Scenarios.rawParse
     (fun _ _ => [StderrData (JS.str "Quota exceeded for quota metric"); Close (Some 1)])
     Scenarios.noLatency false (JS.str "Explain") (JS.str "cache_k") 0
     ResponseCache.emptyStore).1
    = Resolves (ToolError QUOTA_EXCEEDED
                  (JS.str "Command failed with exit code 1: Quota exceeded for quota metric")
                  (JS.str "Quota exhausted after fallback. Wait for quota reset or upgrade plan. Consider using quick_query for lighter tasks.")))
    by (vm_compute; reflexivity).
  split; [exact H|].
  destruct (quota_exceeded_only_after_fallback _ _ _ _ _ _ _ _ _ _ H) as [-> _].
  reflexivity.
Defined.

(** X14: when the orchestrated call succeeds, the model it names is that
    of the last tier attempted ("auto" for the tier without a model),
    the children spawned were those of the tiers up to that one, in
    order, and every earlier tier had failed with a quota-pattern error. *)
Theorem executeGeminiCLI_success_model
    (parse : list JS.char -> ParsedOutput)
    (child : nat -> list (list JS.char) -> list ProcEvent)
    (latency : nat -> Z) (hp : bool) (prompt : list JS.char) (tool : ToolName)
    (response : GeminiResponse) :
  let tiers := getModelTiers tool in
  let fp := finalPromptOf prompt in
  let result := executeGeminiCLI parse child latency hp prompt tool in
  result.1 = Returned response ->
  exists k : nat,
    (1 <= k <= 3)%nat /\
    spawnsOf result.2 = map (buildGeminiArgs fp) (take k tiers) /\
    model response = default (JS.str "auto") (tierAt tiers (k - 1)) /\
    (model response = JS.str "auto" <-> k = 3%nat) /\
    (forall j : nat, (S j < k)%nat ->
       exists message, settled (runAt child hp fp tiers j) = Some (Rejected message) /\
                       isQuotaError message = true) /\
    exists output, settled (runAt child hp fp tiers (k - 1)) = Some (Resolved output) /\
                   answer response = text (parse output).
Proof.
  intros tiers fp result Hret.
  destruct (executeGeminiCLI_trace parse child latency hp prompt tool)
    as (k & outcome & Heq & Hk & Hsteps & Hfailed & Hfinal).
  fold tiers fp in Heq, Hk, Hsteps, Hfailed, Hfinal.
  subst result. rewrite Heq in Hret |- *. cbn [fst snd] in *. subst outcome.
  assert (Hlen : length tiers = 3%nat) by done.
  exists k. split; [lia|]. split; [rewrite spawnsOf_attempts; apply argsAt_seq; lia|].
  unfold finalOutcome in Hfinal.
  destruct (settled (runAt child hp fp tiers (k - 1))) as [[output|m]|] eqn:Hset;
    try discriminate Hfinal.
  injection Hfinal as ->. cbn [model answer].
  split; [done|]. split; [|split].
  - assert (Hcases : k = 1%nat \/ k = 2%nat \/ k = 3%nat) by lia.
    destruct Hcases as [->|[->| ->]]; destruct tool; simpl; split; intros H; (discriminate H || lia || done).
  - intros j Hj. destruct (Hfailed j Hj) as [m Hm]. exists m. split; [done|].
    apply (Hsteps j m); [lia|done|lia].
  - by exists output.
Qed.

Lemma executeGeminiCLI_success_model_witness :
  (executeGeminiCLI Scenarios.rawParse Scenarios.secondTierAnswers Scenarios.noLatency
     true (JS.str "Explain") quick_query).1
    = Returned (mkResponse (JS.str "All good.") [] 0 0 0 FLASH_FALLBACK) /\
  exists k : nat, (1 <= k <= 3)%nat /\
    model (mkResponse (JS.str "All good.") [] 0 0 0 FLASH_FALLBACK)
      = default (JS.str "auto") (tierAt (getModelTiers quick_query) (k - 1)).
Proof.
  assert (H : (executeGeminiCLI Scenarios.rawParse Scenarios.secondTierAnswers
                 Scenarios.noLatency true (JS.str "Explain") quick_query).1
              = Returned (mkResponse (JS.str "All good.") [] 0 0 0 FLASH_FALLBACK))
    by (vm_compute; reflexivity).
  split; [exact H|].
  destruct (executeGeminiCLI_success_model _ _ _ _ _ _ _ H) as (k & Hk & _ & Hm & _).
  by exists k.
Defined.

(** ** The deep research tool *)




Lemma trim_len_zero s : JS.len (JS.trim s) = 0 <-> JS.trim s = [].
Proof.
  unfold JS.len. destruct (JS.trim s); simpl; split; (done || lia).
Qed.

Lemma buildFullPrompt_embeds prompt focus mode :
  exists pre post, DeepResearchExecute.buildFullPrompt prompt focus mode = pre ++ prompt ++ post.
Proof.
  exists (match focus with
          | Some DeepResearchExecute.focus_general | None => []
          | Some f => DeepResearchExecute.FOCUS_INSTRUCTIONS f ++ DeepResearchExecute.blankLine
          end),
         (match mode with
          | Some DeepResearchExecute.citation_none | None => []
          | Some m => DeepResearchExecute.blankLine ++ DeepResearchExecute.CITATION_INSTRUCTIONS m
          end).
  unfold DeepResearchExecute.buildFullPrompt.
  destruct focus as [[]|], mode as [[]|]; cbv beta iota zeta;
    rewrite <- ?app_assoc, ?app_nil_r; reflexivity.
Qed.

Lemma finalPromptOf_embeds :
  exists system, forall prompt, finalPromptOf prompt = system ++ prompt.
Proof.
  unfold finalPromptOf. eexists (_ ++ _). intros prompt.
  rewrite <- app_assoc. reflexivity.
Qed.

(** X16: the guard of [deep_research].  The engine is started exactly
    when the prompt is not blank and every [@] reference in it is allowed
    under the project root.  A blank prompt is answered with
    INVALID_ARGUMENT and a prompt with a disallowed reference with
    PATH_NOT_ALLOWED and the non-empty list of the references refused;
    in both cases the cache is untouched.  Every child that is started is
    handed, as its last argument, a prompt that contains the user's
    prompt verbatim. *)
Theorem deepResearch_execute_guard
    (cwd : list JS.char) (accessSync : list JS.char -> bool) (envRoot : option (list JS.char))
    (parse : list JS.char -> ParsedOutput)
    (child : nat -> list (list JS.char) -> list ProcEvent)
    (latency : nat -> Z) (hp : bool) (prompt : list JS.char)
    (focus : option DeepResearchExecute.Focus)
    (mode : option DeepResearchExecute.CitationMode)
    (freshKey : list JS.char) (now : Z) (st : ResponseCache.Store) :
  let root := getProjectRoot envRoot cwd in
  let out := DeepResearchExecute.execute cwd accessSync envRoot parse child latency hp
               prompt focus mode freshKey now st in
  let blank := prompt = [] \/ JS.trim prompt = [] in
  let refsAllowed :=
    Forall (fun ref => allowed (validatePath cwd accessSync ref root) = true)
           (extractAtPathReferences prompt) in
  (spawnsOf out.2 <> [] <-> ~ blank /\ refsAllowed) /\
  (blank ->
     out = (DeepResearchExecute.InvalidArgument DeepResearchExecute.NO_PROMPT_PROVIDED
              (JS.str "prompt"), st, [])) /\
  (~ blank -> ~ refsAllowed ->
     exists invalid, invalid <> [] /\
       Forall (fun v => allowed v = false /\ In (input v) (extractAtPathReferences prompt))
              invalid /\
       out = (DeepResearchExecute.PathNotAllowed
                (JS.str "Invalid @path references in prompt") invalid, st, [])) /\
  (forall args, In args (spawnsOf out.2) ->
     exists pre post, last args = Some (pre ++ prompt ++ post)).
Proof.
  intros root out blank refsAllowed.
  assert (Hvalid : (checkPromptPathsValid cwd accessSync prompt root).1 = true <-> refsAllowed).
  { unfold checkPromptPathsValid, validatePromptPaths. cbn [fst].
    rewrite bool_decide_eq_true, filter_negb_allowed_nil, Forall_map. done. }
  assert (Hinvalid :
    Forall (fun v => allowed v = false /\ In (input v) (extractAtPathReferences prompt))
           (checkPromptPathsValid cwd accessSync prompt root).2).
  { unfold checkPromptPathsValid, validatePromptPaths. cbn [snd].
    apply List.Forall_forall. intros v Hin. apply List.filter_In in Hin as [Hin Hneg].
    apply List.in_map_iff in Hin as (ref & <- & Href).
    split; [by apply negb_true_iff|done]. }
  assert (Hnonempty : (checkPromptPathsValid cwd accessSync prompt root).1 = false ->
                      (checkPromptPathsValid cwd accessSync prompt root).2 <> []).
  { unfold checkPromptPathsValid. cbn [fst snd]. rewrite bool_decide_eq_false.
    intros Hne Heq. apply Hne. by rewrite Heq. }
  subst out. unfold DeepResearchExecute.execute. fold root.
  assert (Hblank : prompt = [] \/ JS.len (JS.trim prompt) = 0 <-> blank)
    by (unfold blank; by rewrite trim_len_zero).
  destruct (decide (prompt = [] \/ JS.len (JS.trim prompt) = 0)) as [Hb|Hb];
    rewrite Hblank in Hb.
  { cbn [fst snd]. change (spawnsOf []) with (@nil (list (list JS.char))).
    split; [|split; [|split]].
    - split; [intros Hne; by destruct Hne|]. intros [Hnb _]. by destruct Hnb.
    - intros _. reflexivity.
    - intros Hnb. by destruct Hnb.
    - intros args []. }
  cbv zeta.
  destruct (checkPromptPathsValid cwd accessSync prompt root).1 eqn:Hcheck; cbn [negb].
  - assert (Hall : refsAllowed) by (by apply Hvalid).
    destruct (executeTry parse child latency hp
                (DeepResearchExecute.buildFullPrompt prompt focus mode) freshKey now st)
      as [settlement st'].
    cbn [fst snd].
    destruct (executeGeminiCLI_trace parse child latency hp
                (DeepResearchExecute.buildFullPrompt prompt focus mode) deep_research)
      as (k & outcome & Heq & Hk & _).
    rewrite Heq. cbn [snd].
    rewrite spawnsOf_attempts, argsAt_seq by exact (proj2 Hk).
    change (length (getModelTiers deep_research)) with 3%nat in Hk.
    split; [|split; [|split]].
    + split; [intros _; by split|]. intros _ Hnil.
      apply (f_equal length) in Hnil. rewrite length_map, length_take in Hnil.
      change (length (getModelTiers deep_research)) with 3%nat in Hnil.
      change (length (@nil (list (list JS.char)))) with 0%nat in Hnil. lia.
    + intros Hb'. by destruct Hb.
    + intros _ Hn. by destruct Hn.
    + intros args Hin. apply List.in_map_iff in Hin as (m & <- & _).
      rewrite buildGeminiArgs_eq.
      destruct (buildFullPrompt_embeds prompt focus mode) as (pre & post & ->).
      destruct finalPromptOf_embeds as (sys & ->).
      exists (sys ++ pre), post.
      rewrite last_app. cbn [last]. by rewrite <- app_assoc.
  - cbn [fst snd]. change (spawnsOf []) with (@nil (list (list JS.char))).
    split; [|split; [|split]].
    + split; [intros Hne; by destruct Hne|]. intros [_ Hall]. apply Hvalid in Hall. congruence.
    + intros Hb'. by destruct Hb.
    + intros _ _. eexists. split; [by apply Hnonempty|]. split; [exact Hinvalid|reflexivity].
    + intros args [].
Qed.

Lemma deepResearch_execute_guard_witness :
  let out := DeepResearchExecute.execute (JS.str "/work") (fun _ => true) None
               Scenarios.rawParse Scenarios.secondTierAnswers Scenarios.noLatency false
               (JS.str "Read @../secret") None None (JS.str "cache_k") 0
               ResponseCache.emptyStore in
  exists invalid, invalid <> [] /\
    out = (DeepResearchExecute.PathNotAllowed
             (JS.str "Invalid @path references in prompt") invalid,
           ResponseCache.emptyStore, []).
Proof.
  intros out.
  destruct (deepResearch_execute_guard (JS.str "/work") (fun _ => true) None
              Scenarios.rawParse Scenarios.secondTierAnswers Scenarios.noLatency false
              (JS.str "Read @../secret") None None (JS.str "cache_k") 0
              ResponseCache.emptyStore) as (_ & _ & Hbad & _).
  destruct Hbad as (invalid & Hne & _ & Heq).
  - vm_compute. intros [H|H]; discriminate H.
  - intros Hall. apply List.Forall_forall with (x := JS.str "../secret") in Hall.
    + vm_compute in Hall. discriminate Hall.
    + vm_compute. by left.
  - by exists invalid.
Defined.

(** ** Settlement of the executor's promise *)

Lemma executeCommand_first_end command hp events ev later :
  forallb isRunning events = true -> isRunning ev = false ->
  let st := executeCommand command hp (events ++ ev :: later) in
  settled st = settled (CommandExecutor.handle command hp
                          (executeCommand command hp events) ev) /\
  isResolved st = true /\ killed st = false.
Proof.
  intros Hrun Hev.
  destruct (executeCommand_running command hp events Hrun) as (_ & _ & Hres & _ & Hkill).
  change (events ++ ev :: later) with (events ++ [ev] ++ later).
  rewrite app_assoc, executeCommand_app, executeCommand_snoc.
  set (st0 := CommandExecutor.handle command hp (executeCommand command hp events) ev).
  assert (Hst0 : isResolved st0 = true /\ killed st0 = false).
  { unfold st0. destruct ev as [c|c|m|code|ms]; try discriminate Hev; simpl; rewrite Hres.
    - done.
    - by case_decide. }
  destruct Hst0 as [Hst0 Hk0].
  destruct (fold_handle_settled command hp st0 later Hst0) as (H1 & H2 & H3).
  cbv zeta in *. by rewrite H1, H2, H3.
Qed.

Lemma executeCommand_closed_nonzero command hp events code later :
  forallb isRunning events = true -> code <> Some 0 ->
  settled (executeCommand command hp (events ++ Close code :: later))
  = Some (Rejected (JS.str "Command failed with exit code " ++ showCode code ++ JS.str ": "
                    ++ (if decide (JS.trim (stderrOf events) = []) then JS.str "Unknown error"
                        else JS.trim (stderrOf events)))).
Proof.
  intros Hrun Hcode.
  destruct (executeCommand_first_end command hp events (Close code) later Hrun eq_refl)
    as (Hset & _).
  destruct (executeCommand_running command hp events Hrun) as (_ & Herr & Hres & _).
  cbv zeta in *. rewrite Hset. simpl. rewrite Hres, decide_False by done. simpl.
  by rewrite Herr.
Qed.

(** X17: quota messages on standard error drive the fallback.  When the
    child of an attempt that is not the last tier's exits with a code
    other than 0 and its standard error, trimmed, matches one of the
    quota patterns, the next tier is attempted with that tier's
    arguments. *)
Theorem stderr_quota_triggers_fallback
    (parse : list JS.char -> ParsedOutput)
    (child : nat -> list (list JS.char) -> list ProcEvent)
    (latency : nat -> Z) (hp : bool) (prompt : list JS.char) (tool : ToolName)
    (j : nat) (events : list ProcEvent) (code : option Z) (later : list ProcEvent) :
  let tiers := getModelTiers tool in
  let fp := finalPromptOf prompt in
  let trace := (executeGeminiCLI parse child latency hp prompt tool).2 in
  (j < length (spawnsOf trace))%nat ->
  (S j < 3)%nat ->
  child j (argsAt fp tiers j) = events ++ Close code :: later ->
  forallb isRunning events = true ->
  code <> Some 0 ->
  isQuotaError (JS.trim (stderrOf events)) = true ->
  spawnsOf trace !! S j = Some (buildGeminiArgs fp (tierAt tiers (S j))).
Proof.
  intros tiers fp trace Hmade Hj Hchild Hrun Hcode Hquota.
  destruct (executeGeminiCLI_trace parse child latency hp prompt tool)
    as (k & outcome & Heq & Hk & Hsteps & _).
  fold tiers fp in Heq, Hk, Hsteps.
  assert (Hlen : length tiers = 3%nat) by done.
  subst trace. rewrite Heq in Hmade |- *. cbn [snd] in *.
  rewrite spawnsOf_attempts in Hmade |- *. rewrite length_map, length_seq in Hmade.
  assert (Hset : settled (runAt child hp fp tiers j)
                 = Some (Rejected (JS.str "Command failed with exit code " ++ showCode code
                                   ++ JS.str ": " ++ JS.trim (stderrOf events)))).
  { unfold runAt. rewrite Hchild, executeCommand_closed_nonzero by done.
    rewrite decide_False; [done|]. intros Hnil. by rewrite Hnil in Hquota. }
  assert (Hnext : (S j < k)%nat).
  { apply (Hsteps j _ Hmade Hset). split; [|lia].
    rewrite !app_assoc. by apply isQuotaError_suffix. }
  change (map (argsAt fp tiers) (seq 0 k)) with (argsAt fp tiers <$> seq 0 k).
  rewrite list_lookup_fmap, lookup_seq_lt by done. done.
Qed.

Lemma stderr_quota_triggers_fallback_witness :
  spawnsOf (executeGeminiCLI Scenarios.rawParse Scenarios.secondTierAnswers
              Scenarios.noLatency false (JS.str "Explain") quick_query).2 !! 1%nat
  = Some (buildGeminiArgs (finalPromptOf (JS.str "Explain"))
            (tierAt (getModelTiers quick_query) 1)).
Proof.
  apply (stderr_quota_triggers_fallback Scenarios.rawParse Scenarios.secondTierAnswers
           Scenarios.noLatency false (JS.str "Explain") quick_query 0
           [StderrData (JS.str "RESOURCE_EXHAUSTED")] (Some 1) []).
  - vm_compute. lia.
  - lia.
  - reflexivity.
  - reflexivity.
  - discriminate.
  - vm_compute. reflexivity.
Defined.

(** ** What the logger writes *)

Import LoggerModel.

Lemma SYSTEM_PROMPT_long : (101 <= length SYSTEM_PROMPT)%nat.
Proof. apply Nat.leb_le. vm_compute. reflexivity. Qed.

Lemma isPromptFlag_FLAG_PROMPT : isPromptFlag FLAG_PROMPT = true.
Proof. unfold isPromptFlag. by rewrite bool_decide_eq_true_2. Qed.

Lemma truncateArg_finalPromptOf prompt :
  truncateArg (finalPromptOf prompt)
  = JS.slice SYSTEM_PROMPT 0 100 ++ JS.str "...[truncated]".
Proof.
  pose proof SYSTEM_PROMPT_long as Hlong.
  unfold truncateArg, finalPromptOf.
  rewrite decide_True by (unfold JS.len; rewrite length_app; lia).
  f_equal. rewrite !slice_nonneg by (unfold JS.len; rewrite ?length_app; lia).
  change (Z.to_nat (100 - 0)) with 100%nat. change (Z.to_nat 0) with 0%nat.
  rewrite !drop_0. by rewrite take_app_le by lia.
Qed.

(** X18: the user's prompt never reaches the log through
    [Logger.commandExecution].  For the argument vectors that
    [executeGeminiCLI] builds, the logged line is the same whatever the
    user's prompt is: of the prompt argument only the first 100
    characters are kept, and these belong to the fixed system prompt. *)
Theorem commandExecution_hides_prompt (command : list JS.char)
    (model : option (list JS.char)) (startTime : Z) (prompt other : list JS.char) :
  commandExecutionMessage command (buildGeminiArgs (finalPromptOf prompt) model) startTime
  = commandExecutionMessage command (buildGeminiArgs (finalPromptOf other) model) startTime /\
  last (safeArgs (buildGeminiArgs (finalPromptOf prompt) model))
  = Some (JS.slice SYSTEM_PROMPT 0 100 ++ JS.str "...[truncated]").
Proof.
  assert (Hargs : forall p,
    safeArgs (buildGeminiArgs (finalPromptOf p) model)
    = safeArgs (match model with Some m => [FLAG_MODEL; m] | None => [] end
                ++ [FLAG_YES; FLAG_OUTPUT_FORMAT; FORMAT_JSON; FLAG_PROMPT])
      ++ [JS.slice SYSTEM_PROMPT 0 100 ++ JS.str "...[truncated]"]).
  { intros p. rewrite buildGeminiArgs_eq. unfold safeArgs.
    destruct model as [m|]; cbn [app safeArgsFrom];
      rewrite isPromptFlag_FLAG_PROMPT, truncateArg_finalPromptOf; reflexivity. }
  split.
  - unfold commandExecutionMessage. rewrite !Hargs. reflexivity.
  - rewrite Hargs. apply last_snoc.
Qed.

(** ** Progress reports and the pending promise *)

Lemma executeCommand_stdout command hp events :
  stdout (executeCommand command hp events) = stdoutOf events.
Proof.
  induction events as [|ev events IH] using rev_ind; [done|].
  rewrite executeCommand_snoc. unfold stdoutOf in *.
  rewrite map_app, concat_app. simpl. rewrite app_nil_r.
  destruct ev as [c|c|m|code|ms]; simpl.
  - destruct (hp && _); simpl; by rewrite IH.
  - by rewrite IH, app_nil_r.
  - destruct (isResolved _); simpl; by rewrite IH, app_nil_r.
  - destruct (isResolved _); [|case_decide]; simpl; by rewrite IH, app_nil_r.
  - by rewrite IH, app_nil_r.
Qed.

Lemma executeCommand_reports command events :
  let st := executeCommand command true events in
  lastReportedLength st = JS.len (stdout st) /\
  concat (reported st) = stdout st /\
  Forall (fun piece => piece <> []) (reported st).
Proof.
  induction events as [|ev events IH] using rev_ind; [done|].
  rewrite executeCommand_snoc. cbv zeta in *.
  destruct IH as (Hlast & Hcat & Hne).
  set (st := executeCommand command true events) in *.
  destruct ev as [c|c|m|code|ms]; simpl.
  - rewrite Hlast. case_bool_decide as Hgrow; simpl.
    + assert (Hslice : JS.slice (stdout st ++ c) (JS.len (stdout st)) (JS.len (stdout st ++ c))
                       = c).
      { rewrite slice_nonneg by (unfold JS.len in *; rewrite ?length_app in *; lia).
        unfold JS.len. rewrite Nat2Z.id, drop_app_length.
        apply take_ge. rewrite length_app. lia. }
      rewrite Hslice. split; [done|]. split.
      * by rewrite concat_app, Hcat; simpl; rewrite app_nil_r.
      * apply Forall_app. split; [done|]. constructor; [|done].
        intros ->. unfold JS.len in Hgrow. rewrite app_nil_r in Hgrow. lia.
    + assert (c = []) as ->.
      { destruct c; [done|]. unfold JS.len in Hgrow. rewrite length_app in Hgrow.
        simpl in Hgrow. lia. }
      rewrite app_nil_r. done.
  - done.
  - by destruct (isResolved st).
  - destruct (isResolved st); [done|]. by case_decide.
  - done.
Qed.

Lemma executeCommand_silent command events :
  reported (executeCommand command false events) = [].
Proof.
  induction events as [|ev events IH] using rev_ind; [done|].
  rewrite executeCommand_snoc.
  destruct ev as [c|c|m|code|ms]; simpl; try done.
  - by destruct (isResolved _).
  - destruct (isResolved _); [done|]. by case_decide.
Qed.

Lemma executeCommand_callback_irrelevant command hp events :
  let st := executeCommand command hp events in
  let st' := executeCommand command false events in
  settled st = settled st' /\ isResolved st = isResolved st' /\
  stdout st = stdout st' /\ stderr st = stderr st'.
Proof.
  induction events as [|ev events IH] using rev_ind; [done|].
  rewrite !executeCommand_snoc. cbv zeta in *.
  destruct IH as (H1 & H2 & H3 & H4).
  destruct ev as [c|c|m|code|ms]; simpl.
  - destruct (hp && _); simpl; by rewrite H1, H2, H3, H4.
  - by rewrite H1, H2, H3, H4.
  - rewrite H2. destruct (isResolved (executeCommand command false events)) eqn:E;
      cbn [settled isResolved stdout stderr]; by rewrite ?H1, ?H3, ?H4, ?H2, ?E.
  - rewrite H2. destruct (isResolved (executeCommand command false events)) eqn:E;
      [|case_decide]; cbn [settled isResolved stdout stderr];
      by rewrite ?H1, ?H3, ?H4, ?H2, ?E.
  - done.
Qed.

(** X19: progress reporting of [executeCommand].  With a callback, the
    pieces handed to it are never empty and, put together in order, are
    exactly the standard output received so far, nothing repeated and
    nothing lost, also for output that arrives after the promise has
    settled; without a callback nothing is reported; and whether a
    callback is given changes neither how the promise settles nor the
    output collected. *)
Theorem executeCommand_progress (command : list JS.char) (hp : bool)
    (events : list ProcEvent) :
  let withCallback := executeCommand command true events in
  let without := executeCommand command false events in
  concat (reported withCallback) = stdoutOf events /\
  Forall (fun piece => piece <> []) (reported withCallback) /\
  reported without = [] /\
  settled (executeCommand command hp events) = settled without /\
  stdout (executeCommand command hp events) = stdout without.
Proof.
  cbv zeta.
  destruct (executeCommand_reports command events) as (_ & Hcat & Hne).
  destruct (executeCommand_callback_irrelevant command hp events) as (Hs & _ & Ho & _).
  cbv zeta in *.
  rewrite Hcat, executeCommand_stdout. repeat split; try done.
  apply executeCommand_silent.
Qed.

Lemma executeCommand_pending_running command hp events :
  settled (executeCommand command hp events) = None <-> forallb isRunning events = true.
Proof.
  split.
  - induction events as [|ev events IH] using rev_ind; [done|].
    rewrite executeCommand_snoc, forallb_app. intros Hnone.
    assert (Hprev : settled (executeCommand command hp events) = None).
    { destruct (settled (executeCommand command hp events)) as [s|] eqn:Hs; [|done].
      exfalso. revert Hnone.
      destruct ev as [c|c|m|code|ms]; simpl.
      - destruct (hp && _); simpl; by rewrite Hs.
      - by rewrite Hs.
      - destruct (isResolved _); simpl; by rewrite ?Hs.
      - destruct (isResolved _); [|case_decide]; simpl; by rewrite ?Hs.
      - by rewrite Hs. }
    specialize (IH Hprev). rewrite IH. cbn [andb forallb].
    destruct (executeCommand_running command hp events IH) as (_ & _ & Hres & _).
    cbv zeta in Hres.
    destruct ev as [c|c|m|code|ms]; try done; simpl in Hnone; rewrite Hres in Hnone.
    + discriminate Hnone.
    + by case_decide.
  - intros Hrun. by destruct (executeCommand_running command hp events Hrun) as (_ & _ & _ & H & _).
Qed.

(** X20: the promise of [executeCommand] is pending exactly as long as
    the child has neither failed to spawn nor closed.  When the spawn
    error comes first, the promise rejects with
    "Failed to spawn command '<command>': <message>", the child is not
    killed, and nothing that follows, not even a close with exit code 0,
    changes the outcome. *)
Theorem executeCommand_spawn_error (command : list JS.char) (hp : bool)
    (events : list ProcEvent) :
  (settled (executeCommand command hp events) = None <->
     forallb isRunning events = true) /\
  (forall message later,
     forallb isRunning events = true ->
     let st := executeCommand command hp (events ++ ErrorEvent message :: later) in
     settled st = Some (Rejected (JS.str "Failed to spawn command '" ++ command
                                  ++ JS.str "': " ++ message)) /\
     killed st = false).
Proof.
  split; [apply executeCommand_pending_running|].
  intros message later Hrun.
  destruct (executeCommand_first_end command hp events (ErrorEvent message) later Hrun eq_refl)
    as (Hset & _ & Hkill).
  destruct (executeCommand_running command hp events Hrun) as (_ & _ & Hres & _).
  cbv zeta in *. rewrite Hset, Hkill. simpl. by rewrite Hres.
Qed.

(** ** The setup wizard's deadline *)

Import WizardTest.

Lemma elapsedOf_app events later :
  elapsedOf (events ++ later) = elapsedOf events + elapsedOf later.
Proof.
  unfold elapsedOf. induction events as [|e events IH]; simpl; [lia|].
  rewrite IH. lia.
Qed.

(** What holds of the runner after any events: the clock is the time
    passed; while the timer is armed nothing has happened but output and
    time short of the deadline; once it is disarmed the promise is
    settled; the child is killed exactly when the timer fired, and the
    promise then carries the timeout message. *)
Lemma runCommand_invariant command timeoutMs events :
  0 < timeoutMs ->
  let st := runCommand command timeoutMs events in
  clock st = elapsedOf events /\
  (timerArmed st = true ->
     r_settled st = None /\ timedOut st = false /\
     forallb isRunning events = true /\ clock st < timeoutMs) /\
  (timerArmed st = false -> r_settled st <> None) /\
  r_killed st = timedOut st /\
  (timedOut st = true ->
     r_settled st = Some (Rejected (JS.str "Command timed out after "
                                    ++ showCode (Some timeoutMs) ++ JS.str "ms"))).
Proof.
  intros Hpos. induction events as [|ev events IH] using rev_ind.
  { cbn. repeat split; (done || lia). }
  rewrite runCommand_snoc, elapsedOf_snoc, forallb_app. cbv zeta in *.
  destruct IH as (Hclk & Harmed & Hdis & Hkill & Hto).
  set (st := runCommand command timeoutMs events) in *.
  destruct ev as [c|c|m|code|ms]; cbn [SetupWizard.handle].
  - cbn [clock timerArmed r_settled timedOut r_killed forallb isRunning].
    rewrite andb_true_r. split; [lia|]. done.
  - cbn [clock timerArmed r_settled timedOut r_killed forallb isRunning].
    rewrite andb_true_r. split; [lia|]. done.
  - cbn [clock timerArmed r_settled timedOut r_killed].
    split; [lia|]. split; [done|]. split; [|split; [done|]].
    + intros _. unfold settle. by destruct (r_settled st).
    + intros Ht. specialize (Hto Ht). unfold settle. by rewrite Hto.
  - destruct (timedOut st) eqn:Et.
    + cbn [clock timerArmed r_settled timedOut r_killed].
      split; [lia|]. split; [done|]. split; [|split; [by rewrite ?Hkill, ?Et|]].
      * intros _. by rewrite Hto.
      * intros _. by apply Hto.
    + assert (Hset : forall s, settle (r_settled st) s <> None)
        by (intros s; unfold settle; by destruct (r_settled st)).
      case_decide; cbn [clock timerArmed r_settled timedOut r_killed];
        rewrite ?Et; (split; [lia|]); (split; [done|]); (split; [intros _; apply Hset|]);
        (split; [by rewrite ?Hkill, ?Et|done]).
  - destruct (timerArmed st) eqn:Ea.
    + destruct (Harmed eq_refl) as (Hnone & Hnt & Hrun & Hlt).
      cbn [andb]. case_bool_decide as Hdue;
        cbn [clock timerArmed r_settled timedOut r_killed forallb isRunning].
      * split; [lia|]. split; [done|]. rewrite Hnone. cbn [settle]. done.
      * rewrite Hrun. cbn [andb]. split; [lia|]. split; [|split; [done|done]].
        intros _. split; [done|]. split; [done|]. split; [done|]. lia.
    + cbn [andb clock timerArmed r_settled timedOut r_killed].
      rewrite ?Ea. split; [lia|]. split; [done|]. split; [by intros _; apply Hdis|done].
Qed.

Lemma runCommand_settled_final command timeoutMs events later s :
  r_settled (runCommand command timeoutMs events) = Some s ->
  r_settled (runCommand command timeoutMs (events ++ later)) = Some s.
Proof.
  revert events. induction later as [|ev later IH]; intros events Hs.
  - by rewrite app_nil_r.
  - change (events ++ ev :: later) with (events ++ [ev] ++ later).
    rewrite app_assoc. apply IH. rewrite runCommand_snoc.
    set (st := runCommand command timeoutMs events) in *.
    destruct ev as [c|c|m|code|ms]; cbn [SetupWizard.handle].
    + done.
    + done.
    + cbn [r_settled]. by rewrite Hs.
    + destruct (timedOut st); [done|]. case_decide; cbn [r_settled]; by rewrite Hs.
    + destruct (timerArmed st && _); cbn [r_settled]; by rewrite ?Hs.
Qed.

(** X21: the wizard's [runCommand] never waits past its deadline.  With
    a positive timeout and time running forwards, its promise is pending
    exactly while the child has neither failed to spawn nor closed and
    less than [timeoutMs] has passed.  The child is killed by the runner
    only through the timeout, and a killed child always means the promise
    was rejected with the timeout message; once settled, the promise
    keeps its outcome whatever follows. *)
Theorem runCommand_deadline (command : list JS.char) (timeoutMs : Z)
    (events : list ProcEvent) :
  0 < timeoutMs ->
  forallb forwardInTime events = true ->
  let st := runCommand command timeoutMs events in
  (r_settled st = None <->
     forallb isRunning events = true /\ elapsedOf events < timeoutMs) /\
  (r_killed st = true ->
     r_settled st = Some (Rejected (JS.str "Command timed out after "
                                    ++ showCode (Some timeoutMs) ++ JS.str "ms"))) /\
  (forall s later,
     r_settled st = Some s ->
     r_settled (runCommand command timeoutMs (events ++ later)) = Some s).
Proof.
  intros Hpos Hfwd st.
  destruct (runCommand_invariant command timeoutMs events Hpos)
    as (Hclk & Harmed & Hdis & Hkill & Hto).
  fold st in Hclk, Harmed, Hdis, Hkill, Hto.
  split; [|split].
  - split.
    + intros Hnone. destruct (timerArmed st) eqn:Ea.
      * destruct (Harmed eq_refl) as (_ & _ & Hrun & Hlt). split; [done|lia].
      * by destruct (Hdis eq_refl).
    + intros [Hrun Hlt].
      by destruct (runCommand_before_deadline command timeoutMs events Hrun Hfwd Hlt)
        as (_ & _ & _ & Hnone & _).
  - intros Hk. apply Hto. by rewrite <- Hkill.
  - intros s later. apply runCommand_settled_final.
Qed.

Lemma runCommand_deadline_witness :
  let events := [StdoutData (JS.str "thinking"); Elapsed 59000; Elapsed 1000;
                 Close (Some 0)] in
  let st := runCommand (JS.str "gemini") DEFAULT_TIMEOUT_MS events in
  (r_settled st = None <->
     forallb isRunning events = true /\ elapsedOf events < DEFAULT_TIMEOUT_MS) /\
  (r_killed st = true ->
     r_settled st = Some (Rejected (JS.str "Command timed out after "
                                    ++ showCode (Some DEFAULT_TIMEOUT_MS) ++ JS.str "ms"))).
Proof.
  intros events st.
  destruct (runCommand_deadline (JS.str "gemini") DEFAULT_TIMEOUT_MS events)
    as (H1 & H2 & _).
  - reflexivity.
  - reflexivity.
  - split; [exact H1|exact H2].
Defined.

(** X22: the verdict of the wizard's test invocation.  While the engine
    has produced only output and less than two minutes have passed,
    there is no verdict yet.  From there, a close with exit code 0 gives
    success; letting the two minutes run out gives a failure with the
    message "Command timed out after 120000ms" that is flagged as an
    authentication problem; a spawn failure gives a failure carrying
    "Failed to spawn 'gemini': <message>".  What the child does after
    that does not change the verdict. *)
Theorem testGeminiInvocation_verdict (events later : list ProcEvent) :
  forallb isRunning events = true ->
  forallb forwardInTime events = true ->
  elapsedOf events < 120000 ->
  testGeminiInvocation events = None /\
  testGeminiInvocation (events ++ Close (Some 0) :: later)
    = Some (mkValidation true (JS.str "Test invocation successful") false) /\
  (forall ms, 120000 <= elapsedOf events + ms ->
     testGeminiInvocation (events ++ Elapsed ms :: later)
     = Some (mkValidation false (JS.str "Command timed out after 120000ms") true)) /\
  (forall m, exists verdict,
     testGeminiInvocation (events ++ ErrorEvent m :: later) = Some verdict /\
     success verdict = false /\
     message verdict = JS.str "Failed to spawn 'gemini': " ++ m).
Proof.
  intros Hrun Hfwd Hlt.
  destruct (runCommand_before_deadline GEMINI TEST_TIMEOUT_MS events Hrun Hfwd Hlt)
    as (Harm & Hto & Hclk & Hnone & _).
  assert (Hstep : forall ev s,
    r_settled (SetupWizard.handle GEMINI TEST_TIMEOUT_MS
                 (runCommand GEMINI TEST_TIMEOUT_MS events) ev) = Some s ->
    r_settled (runCommand GEMINI TEST_TIMEOUT_MS (events ++ ev :: later)) = Some s).
  { intros ev s Hs. change (events ++ ev :: later) with (events ++ [ev] ++ later).
    rewrite app_assoc. apply runCommand_settled_final. by rewrite runCommand_snoc. }
  unfold testGeminiInvocation. split; [by rewrite Hnone|]. split; [|split].
  - rewrite (Hstep (Close (Some 0)) (Resolved (JS.trim (r_stdout
               (runCommand GEMINI TEST_TIMEOUT_MS events))))); [done|].
    cbn [SetupWizard.handle]. rewrite Hto, decide_True by done.
    cbn [r_settled]. by rewrite Hnone.
  - intros ms Hms.
    rewrite (Hstep (Elapsed ms) (Rejected (JS.str "Command timed out after 120000ms"))).
    + reflexivity.
    + cbn [SetupWizard.handle]. rewrite Harm, Hclk.
      rewrite bool_decide_eq_true_2 by (unfold TEST_TIMEOUT_MS; lia).
      cbn [andb r_settled]. rewrite Hnone. reflexivity.
  - intros m.
    rewrite (Hstep (ErrorEvent m) (Rejected (JS.str "Failed to spawn 'gemini': " ++ m))).
    + eexists. split; [reflexivity|]. split; reflexivity.
    + cbn [SetupWizard.handle r_settled]. rewrite Hnone. reflexivity.
Qed.

Lemma testGeminiInvocation_verdict_witness :
  testGeminiInvocation ([StdoutData (JS.str "Waiting for login"); Elapsed 119000]
                          ++ Elapsed 1000 :: [Close None])
  = Some (mkValidation false (JS.str "Command timed out after 120000ms") true).
Proof.
  destruct (testGeminiInvocation_verdict
              [StdoutData (JS.str "Waiting for login"); Elapsed 119000] [Close None])
    as (_ & _ & Htimeout & _).
  - reflexivity.
  - reflexivity.
  - vm_compute. reflexivity.
  - apply (Htimeout 1000). vm_compute. discriminate.
Defined.

(** ** Cache statistics *)

Import CacheStats.

Lemma statsLoop_extremes values :
  match fold_left statsStep values (None, None) with
  | (Some o, Some n) =>
      values <> [] /\
      Forall (fun e => o <= createdAt e <= n) values /\
      Exists (fun e => createdAt e = o) values /\
      Exists (fun e => createdAt e = n) values
  | (None, None) => values = []
  | _ => False
  end.
Proof.
  induction values as [|e values IH] using rev_ind; [done|].
  rewrite fold_left_app. cbn [fold_left].
  destruct (fold_left statsStep values (None, None)) as [[o|] [n|]]; try done.
  - destruct IH as (_ & Hall & Ho & Hn). cbn [statsStep].
    assert (Hmono : forall o' n', o' <= o -> n <= n' ->
              Forall (fun e => o' <= createdAt e <= n') values).
    { intros o' n' H1 H2. eapply Forall_impl; [exact Hall|]. simpl. intros x. lia. }
    repeat case_decide; (split; [by destruct values|]);
      rewrite Forall_app, Forall_singleton, !Exists_app, !Exists_cons;
      (split; [split; [apply Hmono; lia|lia]|]); split; auto.
  - subst values. cbn. split; [done|].
    rewrite Forall_singleton, !Exists_cons. split; [lia|]. split; by left.
Qed.

(** X23: [getCacheStats] reports the number of bundles stored and, in
    whatever order the bundles are enumerated, the earliest and the
    latest creation time among them: every bundle was created between
    the two and each of the two is the creation time of some bundle.
    Both dates are null exactly when the cache is empty.  (Creation
    times come from [Date.now()] and are positive.) *)
Theorem getCacheStats_extremes (values : list CacheEntry) (st : Store) :
  values ≡ₚ (map_to_list (cache st)).*2 ->
  map_Forall (fun _ entry => 0 < createdAt entry) (cache st) ->
  let stats := getCacheStats values st in
  statsSize stats = Z.of_nat (length values) /\
  match oldestEntry stats, newestEntry stats with
  | Some o, Some n =>
      (forall key entry, cache st !! key = Some entry -> o <= createdAt entry <= n) /\
      (exists key entry, cache st !! key = Some entry /\ createdAt entry = o) /\
      (exists key entry, cache st !! key = Some entry /\ createdAt entry = n)
  | None, None => cache st = ∅
  | _, _ => False
  end.
Proof.
  intros Hperm Hpos stats.
  assert (Hin : forall e, e ∈ values <-> exists key, cache st !! key = Some e).
  { intros e. rewrite Hperm, list_elem_of_fmap. split.
    - intros ([key e'] & -> & Hel). exists key. by apply elem_of_map_to_list.
    - intros [key Hkey]. exists (key, e). split; [done|]. by apply elem_of_map_to_list. }
  assert (Hlen : size (cache st) = length values).
  { rewrite Hperm, length_fmap. symmetry. apply length_map_to_list. }
  subst stats. unfold getCacheStats.
  pose proof (statsLoop_extremes values) as Hloop.
  destruct (fold_left statsStep values (None, None)) as [[o|] [n|]]; try done;
    cbn [statsSize oldestEntry newestEntry toDate]; (split; [by rewrite Hlen|]).
  - destruct Hloop as (_ & Hall & Ho & Hn).
    apply Exists_exists in Ho as (eo & Heo & Hco).
    apply Exists_exists in Hn as (en & Hen & Hcn).
    apply Hin in Heo as [ko Hko]. apply Hin in Hen as [kn Hkn].
    pose proof (Hpos ko eo Hko) as Hpo. pose proof (Hpos kn en Hkn) as Hpn.
    simpl in Hpo, Hpn.
    rewrite !decide_False by lia.
    split; [|split].
    + intros key entry Hkey. rewrite Forall_forall in Hall. apply Hall, Hin. by exists key.
    + by exists ko, eo.
    + by exists kn, en.
  - subst values. apply map_size_empty_iff. by rewrite Hlen.
Qed.

Lemma getCacheStats_extremes_witness :
  let st := (cacheResponse [] 10 (JS.str "b") 7
               (cacheResponse [] 10 (JS.str "a") 5 emptyStore).2).2 in
  let stats := getCacheStats [mkEntry [] 5 15; mkEntry [] 7 17] st in
  statsSize stats = 2 /\ oldestEntry stats = Some 5 /\ newestEntry stats = Some 7.
Proof.
  intros st stats.
  destruct (getCacheStats_extremes [mkEntry [] 5 15; mkEntry [] 7 17] st) as (Hsize & _).
  - subst st. unfold cacheResponse, scheduleCleanup, emptyStore. cbn [cache snd cleanupScheduled].
    rewrite map_to_list_insert by (by rewrite lookup_insert_ne, lookup_empty).
    rewrite map_to_list_insert by apply lookup_empty.
    rewrite map_to_list_empty. cbn. apply Permutation_swap.
  - subst st. unfold cacheResponse, scheduleCleanup, emptyStore. cbn [cache snd cleanupScheduled].
    apply map_Forall_insert_2; [simpl; lia|].
    apply map_Forall_insert_2; [simpl; lia|]. apply map_Forall_empty.
  - split; [exact Hsize|]. split; reflexivity.
Defined.

(** ** White space beyond ASCII *)

(** [trim] removes the space separators, the line and paragraph
    separators and the byte order mark wherever they lead or trail, and
    keeps them inside. *)
Example trim_unicode_white_space :
  JS.trim ([12288; 65279; 8232; 9]%N ++ JS.str "an" ++ [12288%N] ++ JS.str "swer"
           ++ [160; 8201; 8233; 5760; 8239; 8287; 13]%N)
  = JS.str "an" ++ [12288%N] ++ JS.str "swer".
Proof. vm_compute. reflexivity. Qed.

(** NEL (U+0085), the Mongolian vowel separator (U+180E) and the zero
    width space (U+200B) are not white space for [trim]. *)
Example trim_keeps_lookalikes :
  JS.trim [133; 6158; 8203]%N = [133; 6158; 8203]%N.
Proof. vm_compute. reflexivity. Qed.

(** Output wrapped in an ideographic space and a byte order mark is
    resolved without them. *)
Example executeCommand_resolves_without_unicode_space :
  settled (executeCommand GEMINI false
             [StdoutData ([12288%N] ++ JS.str "answer" ++ [65279; 10]%N); Close (Some 0)])
  = Some (Resolved (JS.str "answer")).
Proof. vm_compute. reflexivity. Qed.

(** A prompt made of ideographic spaces is blank: no child is started. *)
Example deepResearch_ideographic_spaces_blank :
  DeepResearchExecute.execute (JS.str "/work") (fun _ => true) None
    Scenarios.rawParse Scenarios.secondTierAnswers Scenarios.noLatency false
    [12288; 12288]%N None None (JS.str "cache_k") 0 ResponseCache.emptyStore
  = (DeepResearchExecute.InvalidArgument DeepResearchExecute.NO_PROMPT_PROVIDED
       (JS.str "prompt"), ResponseCache.emptyStore, []).
Proof. vm_compute. reflexivity. Qed.
